(** * collation-nmf: the collation parser, embedded and verified

    A shallow embedding of [src/py/collation_parser.py]: the witness
    normalisers, the TEI serialiser, the per-unit parsers [parse_app] and
    [parse_segment], the assembly of the collation matrix in [read] and
    [postprocess].

    Conventions of the embedding.
    - A Python [str] is a list of 8-bit characters.  ASCII text is itself;
      other text stands for its UTF-8 bytes.  The character classes (white
      space, the digits of [\d]) are the ASCII ones.
    - A Python [dict] is an association list in insertion order; assigning to
      a present key keeps its place, assigning to a new key appends.
    - A float is an exact rational ([Q]); the logarithm of the TF-IDF
      reweighting takes the matrix to the reals ([R]).
    - A computation that may raise or that may loop for ever returns in the
      monad [M]: [inr v] is a normal return, [inl (Raised e)] an exception and
      [inl Diverged] a loop that never exits. *)

From Stdlib Require Import String Ascii Bool Arith ZArith QArith Qround List.
From Stdlib Require Import Reals Lia Lra Permutation.
Import ListNotations.

Close Scope R_scope.
Close Scope Q_scope.
Close Scope Z_scope.
Open Scope nat_scope.
Open Scope list_scope.

Set Implicit Arguments.

(** ** Python built-ins *)

Module Py.

Definition str := list ascii.

(** A literal. *)
Definition lit (x : string) : str := list_ascii_of_string x.

Fixpoint str_eqb (a b : str) : bool :=
  match a, b with
  | [], [] => true
  | x :: a', y :: b' => Ascii.eqb x y && str_eqb a' b'
  | _, _ => false
  end.

(** [x in l] for a list or a set of strings. *)
Definition contains (l : list str) (x : str) : bool := existsb (str_eqb x) l.

(** [c in chars] for a character and a string. *)
Definition has_char (chars : str) (c : ascii) : bool := existsb (Ascii.eqb c) chars.

(** [s.startswith(p)] *)
Fixpoint startswith (s p : str) : bool :=
  match p, s with
  | [], _ => true
  | y :: p', x :: s' => Ascii.eqb x y && startswith s' p'
  | _ :: _, [] => false
  end.

(** [s.endswith(suffix)] *)
Definition endswith (s suffix : str) : bool :=
  (length suffix <=? length s) && str_eqb (skipn (length s - length suffix) s) suffix.

(** [s[:-n]] for [n >= 0]; [s[:-0]] is [s[:0]], the empty string. *)
Definition slice_to_minus (s : str) (n : nat) : str :=
  match n with
  | 0 => []
  | _ => firstn (length s - n) s
  end.

(** [str.isspace] on one ASCII character. *)
Definition isspace (c : ascii) : bool :=
  let n := nat_of_ascii c in
  ((9 <=? n) && (n <=? 13)) || ((28 <=? n) && (n <=? 32)).

(** One character of [\d], of [[a-z]]. *)
Definition isdigit (c : ascii) : bool :=
  let n := nat_of_ascii c in (48 <=? n) && (n <=? 57).

Definition islower_az (c : ascii) : bool :=
  let n := nat_of_ascii c in (97 <=? n) && (n <=? 122).

Fixpoint lstrip_if (p : ascii -> bool) (s : str) : str :=
  match s with
  | c :: s' => if p c then lstrip_if p s' else s
  | [] => []
  end.

Definition rstrip_if (p : ascii -> bool) (s : str) : str :=
  rev (lstrip_if p (rev s)).

(** [s.strip(chars)]: every leading and trailing character that occurs in
    [chars] goes. *)
Definition strip_chars (s chars : str) : str :=
  rstrip_if (has_char chars) (lstrip_if (has_char chars) s).

(** [s.strip()] *)
Definition strip (s : str) : str :=
  rstrip_if isspace (lstrip_if isspace s).

(** [s.split()], on runs of white space; [cur] is the token being read,
    reversed. *)
Fixpoint split_ws_aux (cur : str) (s : str) : list str :=
  match s with
  | [] => match cur with [] => [] | _ => [rev cur] end
  | c :: s' =>
      if isspace c
      then match cur with [] => split_ws_aux [] s' | _ => rev cur :: split_ws_aux [] s' end
      else split_ws_aux (c :: cur) s'
  end.

Definition split (s : str) : list str := split_ws_aux [] s.

(** [s.split(sep)] for a separator of one character; empty fields are kept. *)
Fixpoint split_on_aux (sep : ascii) (cur : str) (s : str) : list str :=
  match s with
  | [] => [rev cur]
  | c :: s' =>
      if Ascii.eqb c sep
      then rev cur :: split_on_aux sep [] s'
      else split_on_aux sep (c :: cur) s'
  end.

Definition split_on (sep : ascii) (s : str) : list str := split_on_aux sep [] s.

(** [sep.join(l)] *)
Fixpoint join (sep : str) (l : list str) : str :=
  match l with
  | [] => []
  | [x] => x
  | x :: l' => x ++ sep ++ join sep l'
  end.

(** [s.replace(old, new)]: the occurrences of [old], left to right and not
    overlapping; [skip] counts the characters of an occurrence still to pass. *)
Fixpoint replace_aux (old new : str) (skip : nat) (s : str) : str :=
  match s with
  | [] => []
  | c :: s' =>
      match skip with
      | S k => replace_aux old new k s'
      | 0 =>
          if startswith s old
          then new ++ replace_aux old new (length old - 1) s'
          else c :: replace_aux old new 0 s'
      end
  end.

Definition replace (s old new : str) : str :=
  match old with
  | [] => new ++ flat_map (fun c => c :: new) s
  | _ => replace_aux old new 0 s
  end.

End Py.

Import Py.

Notation "` x" := (lit x%string) (at level 1, format "` x").

(** ** Exceptions and divergence *)

Inductive exception :=
| TypeError | AttributeError | KeyError | IndexError | ValueError.

Inductive failure :=
| Raised (e : exception)
| Diverged.

Definition M (A : Type) : Type := (failure + A)%type.

Definition ret {A} (a : A) : M A := inr a.
Definition raise {A} (e : exception) : M A := inl (Raised e).
Definition diverge {A} : M A := inl Diverged.

Definition bind {A B} (c : M A) (k : A -> M B) : M B :=
  match c with
  | inl f => inl f
  | inr a => k a
  end.

Notation "x <- c ;; k" := (bind c (fun x => k))
  (at level 61, c at next level, right associativity).
Notation "' p <- c ;; k" := (bind c (fun x => let p := x in k))
  (at level 61, p pattern, c at next level, right associativity).

(** A [for] loop whose body may fail, threading the loop's variables. *)
Fixpoint for_each {A S} (l : list A) (body : S -> A -> M S) (s : S) : M S :=
  match l with
  | [] => ret s
  | a :: l' => s' <- body s a ;; for_each l' body s'
  end.

(** A list comprehension whose element expression may fail. *)
Fixpoint comprehension {A B} (f : A -> M B) (l : list A) : M (list B) :=
  match l with
  | [] => ret []
  | a :: l' => b <- f a ;; bs <- comprehension f l' ;; ret (b :: bs)
  end.

(** A [for] loop with a [break]: the body also tells whether to leave. *)
Fixpoint for_each_break {A S} (l : list A) (body : S -> A -> M (S * bool)) (s : S) : M S :=
  match l with
  | [] => ret s
  | a :: l' =>
      '(s', stop) <- body s a ;;
      if (stop : bool) then ret s' else for_each_break l' body s'
  end.

(** A value that must not be [None]. *)
Definition not_none {A} (e : exception) (o : option A) : M A :=
  match o with
  | Some a => ret a
  | None => raise e
  end.

(** [l[i]] *)
Definition index {A} (l : list A) (i : nat) : M A :=
  not_none IndexError (nth_error l i).

(** [[a for a in l if p(a)]] where the test may fail. *)
Fixpoint comprehension_if {A} (p : A -> M bool) (l : list A) : M (list A) :=
  match l with
  | [] => ret []
  | a :: l' =>
      b <- p a ;;
      r <- comprehension_if p l' ;;
      ret (if b then a :: r else r)
  end.

(** [range(n)] and [enumerate(l)] *)
Definition range (n : nat) : list nat := seq 0 n.
Definition enumerate {A} (l : list A) : list (nat * A) := combine (seq 0 (length l)) l.

(** ** Dictionaries *)

Module Dict.
Section Dict.
Variable V : Type.

Definition dict := list (str * V).

(** [d.get(k)], also the test [k in d] and the access [d[k]]. *)
Fixpoint get (d : dict) (k : str) : option V :=
  match d with
  | [] => None
  | (k', v) :: d' => if str_eqb k' k then Some v else get d' k
  end.

Definition mem (d : dict) (k : str) : bool :=
  match get d k with Some _ => true | None => false end.

Definition item (d : dict) (k : str) : M V := not_none KeyError (get d k).

(** [d[k] = v] *)
Fixpoint set (d : dict) (k : str) (v : V) : dict :=
  match d with
  | [] => [(k, v)]
  | (k', v') :: d' => if str_eqb k' k then (k', v) :: d' else (k', v') :: set d' k v
  end.

Definition keys (d : dict) : list str := map fst d.
Definition values (d : dict) : list V := map snd d.
End Dict.
End Dict.

Abbreviation dict := Dict.dict.

(** ** Regular expressions

    The patterns of the parser are sequences of single characters, character
    classes under a greedy star, and the anchors [^] and [$]; [X+] is written
    [X X*].  The matcher backtracks as Python's does: a star first takes all
    it can and gives characters back one at a time. *)

Module Re.

Inductive atom :=
| Chr (p : ascii -> bool)
| Star (p : ascii -> bool)
| Bol
| Eol.

Definition regex := list atom.

(** The text each atom consumed, when [re] matches a prefix of [s];
    [at_start] tells whether [s] begins the subject string. *)
Fixpoint match_here (re : regex) (at_start : bool) (s : str) : option (list str) :=
  match re with
  | [] => Some []
  | Chr p :: re' =>
      match s with
      | c :: s' => if p c then option_map (cons [c]) (match_here re' false s') else None
      | [] => None
      end
  | Star p :: re' =>
      (fix star (at_start : bool) (s : str) {struct s} : option (list str) :=
         let stop := option_map (cons []) (match_here re' at_start s) in
         match s with
         | c :: s' =>
             if p c
             then match star false s' with
                  | Some (t :: ts) => Some ((c :: t) :: ts)
                  | _ => stop
                  end
             else stop
         | [] => stop
         end) at_start s
  | Bol :: re' =>
      if at_start then option_map (cons []) (match_here re' at_start s) else None
  | Eol :: re' =>
      match s with
      | [] => option_map (cons []) (match_here re' at_start s)
      | [c] => if Ascii.eqb c "010"%char
               then option_map (cons []) (match_here re' at_start s) else None
      | _ => None
      end
  end.

(** [pattern.match(s)] as a truth value. *)
Definition matches (re : regex) (s : str) : bool :=
  match match_here re true s with Some _ => true | None => false end.

(** [pattern.search(s)]: the leftmost match, as the texts of its atoms. *)
Fixpoint search_from (re : regex) (at_start : bool) (s : str) : option (list str) :=
  match match_here re at_start s with
  | Some ts => Some ts
  | None =>
      match s with
      | [] => None
      | _ :: s' => search_from re false s'
      end
  end.

Definition search (re : regex) (s : str) : option (list str) := search_from re true s.

(** [m.group()] *)
Definition group (ts : list str) : str := concat ts.

(** [pattern.findall(s)] for a pattern that matches no empty string: the
    matches left to right, not overlapping; [skip] counts the characters of
    the last match still to pass. *)
Fixpoint findall_aux (re : regex) (at_start : bool) (skip : nat) (s : str)
  : list (list str) :=
  match s with
  | [] => []
  | _ :: s' =>
      match skip with
      | S k => findall_aux re false k s'
      | 0 =>
          match match_here re at_start s with
          | Some ts => ts :: findall_aux re false (length (group ts) - 1) s'
          | None => findall_aux re false 0 s'
          end
      end
  end.

Definition findall (re : regex) (s : str) : list (list str) := findall_aux re true 0 s.

End Re.

(** ** XML trees (lxml elements) *)

#[warning="-register-all"]
Inductive element :=
| Element (tag : str) (attrib : dict str) (text tail : option str)
          (children : list element).

Definition tag (e : element) : str := let 'Element t _ _ _ _ := e in t.
Definition attrib (e : element) : dict str := let 'Element _ a _ _ _ := e in a.
Definition text (e : element) : option str := let 'Element _ _ t _ _ := e in t.
Definition tail (e : element) : option str := let 'Element _ _ _ t _ := e in t.
Definition children (e : element) : list element := let 'Element _ _ _ _ c := e in c.

(** [e.get(name)] *)
Definition attr (e : element) (name : str) : option str := Dict.get (attrib e) name.

(** [text or ""] *)
Definition or_empty (o : option str) : str :=
  match o with Some t => t | None => [] end.

(** The element and its descendants in document order. *)
Fixpoint descendants_or_self (e : element) : list element :=
  match e with
  | Element _ _ _ _ cs => e :: flat_map descendants_or_self cs
  end.

(** [e.xpath("name")]: the children of that tag. *)
Definition xpath_children (t : str) (e : element) : list element :=
  filter (fun c => str_eqb (tag c) t) (children e).

(** [doc.xpath("//name")]: every element of that tag in the document. *)
Definition xpath_anywhere (t : str) (root : element) : list element :=
  filter (fun c => str_eqb (tag c) t) (descendants_or_self root).

(** [e.xpath(".//name")]: the proper descendants of that tag. *)
Definition xpath_descendants (t : str) (e : element) : list element :=
  filter (fun c => str_eqb (tag c) t) (flat_map descendants_or_self (children e)).

(** The tag of an element [name] in namespace [ns], as lxml writes it. *)
Definition qname (ns name : str) : str := `"{" ++ ns ++ `"}" ++ name.

(** ** numpy arrays of two dimensions *)

Module Np.
Section Ndarray.
Variable A : Type.

(** An array of shape [(length data, ncols)]; every row of [data] has
    [ncols] entries. *)
Record ndarray := { ncols : nat; data : list (list A) }.

Definition nrows (m : ndarray) : nat := length (data m).
Definition shape (m : ndarray) : nat * nat := (nrows m, ncols m).

Definition well_shaped (m : ndarray) : Prop :=
  Forall (fun row => length row = ncols m) (data m).

(** [m[i, j]] with a default for the model's own use. *)
Definition entry (d : A) (m : ndarray) (i j : nat) : A :=
  nth j (nth i (data m) []) d.

Fixpoint list_set (l : list A) (i : nat) (v : A) : list A :=
  match l, i with
  | [], _ => []
  | _ :: l', 0 => v :: l'
  | x :: l', S i' => x :: list_set l' i' v
  end.

Fixpoint rows_set (rows : list (list A)) (i j : nat) (v : A) : list (list A) :=
  match rows, i with
  | [], _ => []
  | row :: rows', 0 => list_set row j v :: rows'
  | row :: rows', S i' => row :: rows_set rows' i' j v
  end.

(** [m[i, j] = v] *)
Definition setitem (m : ndarray) (i j : nat) (v : A) : M ndarray :=
  if (i <? nrows m) && (j <? ncols m)
  then ret {| ncols := ncols m; data := rows_set (data m) i j v |}
  else raise IndexError.

(** [m[:, inds]] and [m[inds, :]] for indices in range. *)
Definition take_cols (d : A) (m : ndarray) (inds : list nat) : ndarray :=
  {| ncols := length inds;
     data := map (fun row => map (fun j => nth j row d) inds) (data m) |}.

Definition take_rows (m : ndarray) (inds : list nat) : ndarray :=
  {| ncols := ncols m;
     data := map (fun i => nth i (data m) []) inds |}.

(** [m.T] *)
Definition transpose (d : A) (m : ndarray) : ndarray :=
  {| ncols := nrows m;
     data := map (fun j => map (fun row => nth j row d) (data m)) (range (ncols m)) |}.
End Ndarray.

(** [np.zeros(shape=(r, c))] *)
Definition zeros (r c : nat) : ndarray Q :=
  {| ncols := c; data := repeat (repeat 0%Q c) r |}.

Definition qsum (l : list Q) : Q := fold_right Qplus 0%Q l.

(** [np.sum(m, axis=0)], the column sums, and [np.sum(m, axis=1)], the row
    sums. *)
Definition sum_axis0 (m : ndarray Q) : list Q :=
  map (fun j => qsum (map (fun row => nth j row 0%Q) (data m))) (range (ncols m)).

Definition sum_axis1 (m : ndarray Q) : list Q := map qsum (data m).

Definition astype_real (m : ndarray Q) : ndarray R :=
  {| ncols := ncols m; data := map (map Q2R) (data m) |}.

Definition rsum (l : list R) : R := fold_right Rplus 0%R l.

End Np.

Import Np.

Definition Qlt_bool (x y : Q) : bool := negb (Qle_bool y x).

(** [int(x)] of a float: towards zero. *)
Definition int_of_float (x : Q) : Z := Z.quot (Qnum x) (Zpos (Qden x)).

(** ** scikit-learn's TfidfTransformer *)

Module Sklearn.

(** Modelled from the spec: scikit-learn's
    [TfidfTransformer(norm=None, smooth_idf=False)] is a library outside
    src/.  The spec (4.5) asks for a term-frequency/inverse-document-frequency
    transform with un-smoothed counts, witnesses as documents and readings as
    terms; the library documents [idf(t) = ln(n / df(t)) + 1] with [n] the
    number of documents and [df(t)] the number of documents in which term [t]
    is not zero, an input validation that refuses an array with no sample or
    no feature with a ValueError, and a transform that multiplies every
    document's term counts by the terms' [idf]. *)
Definition document_frequency (X : ndarray Q) : list nat :=
  map (fun t => length (filter (fun doc => negb (Qeq_bool (nth t doc 0%Q) 0%Q)) (data X)))
      (range (ncols X)).

Definition check_array (X : ndarray Q) : M unit :=
  if (nrows X =? 0) || (ncols X =? 0) then raise ValueError else ret tt.

Definition fit (X : ndarray Q) : M (list R) :=
  _ <- check_array X ;;
  ret (map (fun df => (ln (INR (nrows X) / INR df) + 1)%R) (document_frequency X)).

Definition transform (idf : list R) (X : ndarray Q) : M (ndarray R) :=
  _ <- check_array X ;;
  if length idf =? ncols X
  then ret {| ncols := ncols X;
              data := map (fun doc => map (fun '(x, w) => (Q2R x * w)%R) (combine doc idf))
                          (data X) |}
  else raise ValueError.

End Sklearn.

(** ** The base class [collation_parser] *)

Module collation_parser.

(** The settings given to the constructor. *)
Record settings := {
  min_extant_proportion : Q;
  use_tfidf : bool;
  ambiguous_rdg_prefix : str;
  subwitness_suffixes : list str;
  trivial_reading_types : list str;
  ignored_reading_types : list str
}.

(** The fields a parser object carries between [read] and [postprocess]. *)
Record parser (A : Type) := {
  min_extant : Z;
  readings : list str;
  witnesses : list str;
  collation_matrix : ndarray A;
  fragmentary_witnesses : list str;
  fragmentary_collation_matrix : ndarray A
}.

(** Lines 42-58: the split by column sum and the removal of the rows that the
    primary matrix no longer attests. *)
Definition split_and_prune (self : parser Q) : M (parser Q) :=
  let col_sums := sum_axis0 (collation_matrix self) in
  sufficient_col_inds <-
    comprehension_if (fun j => s <- index col_sums j ;;
                               ret (Qle_bool (inject_Z (min_extant self)) s))
                     (range (length (witnesses self))) ;;
  fragmentary_col_inds <-
    comprehension_if (fun j => s <- index col_sums j ;;
                               ret (Qlt_bool s (inject_Z (min_extant self))))
                     (range (length (witnesses self))) ;;
  sufficient_witnesses <- comprehension (index (witnesses self)) sufficient_col_inds ;;
  fragmentary_witnesses <- comprehension (index (witnesses self)) fragmentary_col_inds ;;
  let fragmentary_collation_matrix :=
    take_cols 0%Q (collation_matrix self) fragmentary_col_inds in
  let collation_matrix := take_cols 0%Q (collation_matrix self) sufficient_col_inds in
  let row_sums := sum_axis1 collation_matrix in
  preserved_row_inds <-
    comprehension_if (fun i => s <- index row_sums i ;; ret (Qlt_bool 0%Q s))
                     (range (length (readings self))) ;;
  preserved_readings <- comprehension (index (readings self)) preserved_row_inds ;;
  ret {| min_extant := min_extant self;
         readings := preserved_readings;
         witnesses := sufficient_witnesses;
         collation_matrix := take_rows collation_matrix preserved_row_inds;
         fragmentary_witnesses := fragmentary_witnesses;
         fragmentary_collation_matrix :=
           take_rows fragmentary_collation_matrix preserved_row_inds |}.

(** The matrices as they are, among the reals. *)
Definition as_real (self : parser Q) : parser R :=
  {| min_extant := min_extant self;
     readings := readings self;
     witnesses := witnesses self;
     collation_matrix := astype_real (collation_matrix self);
     fragmentary_witnesses := fragmentary_witnesses self;
     fragmentary_collation_matrix := astype_real (fragmentary_collation_matrix self) |}.

(** [m.shape != (0,0)] *)
Definition shape_not_empty {A} (m : ndarray A) : bool :=
  negb ((nrows m =? 0) && (ncols m =? 0)).

(** [tfidf_trans.transform(m.T).todense().T] *)
Definition reweight (idf : list R) (m : ndarray Q) : M (ndarray R) :=
  t <- Sklearn.transform idf (transpose 0%Q m) ;;
  ret (transpose 0%R t).

(** Lines 63-73: the optional reweighting. *)
Definition apply_tfidf (self : parser Q) : M (parser R) :=
  if shape_not_empty (collation_matrix self)
  then
    idf <- Sklearn.fit (transpose 0%Q (collation_matrix self)) ;;
    let idf := map (fun w => (w - 1)%R) idf in
    collation_matrix' <- reweight idf (collation_matrix self) ;;
    fragmentary_collation_matrix' <-
      (if shape_not_empty (fragmentary_collation_matrix self)
       then reweight idf (fragmentary_collation_matrix self)
       else ret (astype_real (fragmentary_collation_matrix self))) ;;
    ret {| min_extant := min_extant self;
           readings := readings self;
           witnesses := witnesses self;
           collation_matrix := collation_matrix';
           fragmentary_witnesses := fragmentary_witnesses self;
           fragmentary_collation_matrix := fragmentary_collation_matrix' |}
  else ret (as_real self).

Definition postprocess (cfg : settings) (self : parser Q) : M (parser R) :=
  self <- split_and_prune self ;;
  if use_tfidf cfg then apply_tfidf self else ret (as_real self).

End collation_parser.

Import collation_parser.

(** What both parsers do with the coefficients of one reading and with the
    maps of one variation unit. *)

(** Lines 261-270 and 511-520: the coefficients of the current reading are
    added to those of one base witness. *)
Definition add_support (rdg_coefficients : dict Q)
    (readings_by_witness : dict (dict Q)) (base_wit : str) : M (dict (dict Q)) :=
  let readings_by_witness :=
    if Dict.mem readings_by_witness base_wit then readings_by_witness
    else Dict.set readings_by_witness base_wit [] in
  base_wit_coefficients <- Dict.item readings_by_witness base_wit ;;
  base_wit_coefficients <-
    for_each rdg_coefficients
      (fun base_wit_coefficients '(label, c) =>
         let base_wit_coefficients :=
           if Dict.mem base_wit_coefficients label then base_wit_coefficients
           else Dict.set base_wit_coefficients label 0%Q in
         x <- Dict.item base_wit_coefficients label ;;
         ret (Dict.set base_wit_coefficients label (x + c)%Q))
      base_wit_coefficients ;;
  ret (Dict.set readings_by_witness base_wit base_wit_coefficients).

(** Lines 243-252 and 486-495: the readings an ambiguous reading may stand
    for, each with an equal share of one unit of support. *)
Definition resolve_ambiguous (readings_by_number : dict str)
    (possible_reading_numbers : list str) : dict Q :=
  let rdg_coefficients :=
    fold_left (fun rc possible_reading_number =>
                 match Dict.get readings_by_number possible_reading_number with
                 | Some label => Dict.set rc label 1%Q
                 | None => rc
                 end)
              possible_reading_numbers [] in
  map (fun '(label, _) => (label, (1 / inject_Z (Z.of_nat (length rdg_coefficients)))%Q))
      rdg_coefficients.

(** Lines 295-305 and 561-571: the maps of one unit enter those of the
    document, a new witness entering the witness list. *)
Definition merge_unit (st : list str * dict (dict Q))
    (readings_by_witness_for_app : dict (dict Q)) : M (list str * dict (dict Q)) :=
  for_each readings_by_witness_for_app
    (fun '(witnesses, readings_by_witness) '(wit, wit_coefficients_for_app) =>
       let '(witnesses, readings_by_witness) :=
         if Dict.mem readings_by_witness wit then (witnesses, readings_by_witness)
         else (witnesses ++ [wit], Dict.set readings_by_witness wit []) in
       wit_coefficients <- Dict.item readings_by_witness wit ;;
       let wit_coefficients :=
         fold_left (fun wc '(label, c) => Dict.set wc label c)
                   wit_coefficients_for_app wit_coefficients in
       ret (witnesses, Dict.set readings_by_witness wit wit_coefficients))
    st.

(** Lines 307-320 and 574-587: the matrix is filled from the maps. *)
Definition fill_matrix (readings witnesses : list str)
    (readings_by_witness : dict (dict Q)) : M (ndarray Q) :=
  let rows_by_reading :=
    fold_left (fun d '(i, rdg) => Dict.set d rdg i) (enumerate readings) [] in
  let cols_by_witness :=
    fold_left (fun d '(j, wit) => Dict.set d wit j) (enumerate witnesses) [] in
  for_each readings_by_witness
    (fun m '(wit, wit_coefficients) =>
       j <- Dict.item cols_by_witness wit ;;
       for_each wit_coefficients
         (fun m '(rdg, coefficient) =>
            i <- Dict.item rows_by_reading rdg ;;
            setitem m i j coefficient)
         m)
    (zeros (length readings) (length witnesses)).

(** Lines 283-305 and 549-571: the units are parsed one after the other;
    [parse_unit] is [parse_app] or [parse_segment]. *)
Definition collect (parse_unit : list str -> element -> M (list str * dict (dict Q)))
    (units : list element) : M (list str * list str * dict (dict Q)) :=
  for_each units
    (fun '(readings, witnesses, readings_by_witness) unit =>
       '(readings, readings_by_witness_for_unit) <- parse_unit readings unit ;;
       '(witnesses, readings_by_witness) <-
         merge_unit (witnesses, readings_by_witness) readings_by_witness_for_unit ;;
       ret (readings, witnesses, readings_by_witness))
    ([], [], []).

(** The body of [read] between the parsing of the input and the call of
    [postprocess]: the threshold and the raw collation matrix. *)
Definition assemble (cfg : settings)
    (parse_unit : list str -> element -> M (list str * dict (dict Q)))
    (units : list element) : M (parser Q) :=
  let min_extant :=
    int_of_float (min_extant_proportion cfg * inject_Z (Z.of_nat (length units)))%Q in
  '(readings, witnesses, readings_by_witness) <- collect parse_unit units ;;
  collation_matrix <- fill_matrix readings witnesses readings_by_witness ;;
  ret {| min_extant := min_extant;
         readings := readings;
         witnesses := witnesses;
         collation_matrix := collation_matrix;
         fragmentary_witnesses := [];
         fragmentary_collation_matrix := zeros 0 0 |}.

(** ** The TEI parser *)

Module tei_collation_parser.
Section Tei.
(** The namespaces of [common.py], a module outside src/. *)
Variables tei_ns xml_ns : str.
Variable cfg : settings.

(** The loop of [get_base_wit]; it runs for ever when the empty string is
    a suffix, and otherwise shortens the siglum at every turn. *)
Fixpoint strip_suffixes (fuel : nat) (base_wit : str) : M str :=
  match fuel with
  | 0 => diverge
  | S fuel' =>
      match find (endswith base_wit) (subwitness_suffixes cfg) with
      | Some suffix => strip_suffixes fuel' (slice_to_minus base_wit (length suffix))
      | None => ret base_wit
      end
  end.

Definition get_base_wit (wit : str) : M str :=
  let base_wit := strip_chars wit `"#" in
  strip_suffixes (S (length base_wit)) base_wit.

(** The optional parts of a [space] or [gap]. *)
Definition extent_of (xml : element) : str :=
  match attr xml `"unit", attr xml `"extent" with
  | Some unit, Some extent => `", " ++ extent ++ `" " ++ unit
  | _, _ => []
  end.

Fixpoint serialize (xml : element) : str :=
  match xml with
  | Element tag _ text tail children =>
      let raw_tag := replace tag (`"{" ++ tei_ns ++ `"}") [] in
      let kids := map serialize children in
      if str_eqb raw_tag `"rdg" then
        or_empty text ++ join `" " kids
      else if contains [`"w"; `"abbr"; `"hi"] raw_tag then
        or_empty text ++ join [] kids ++ or_empty tail
      else if str_eqb raw_tag `"space" then
        `"[" ++ `"space"
        ++ match attr xml `"reason" with
           | Some reason => `" " ++ `"(" ++ reason ++ `")"
           | None => []
           end
        ++ extent_of xml ++ `"]" ++ or_empty tail
      else if str_eqb raw_tag `"ex" then
        `"(" ++ or_empty text ++ join `" " kids ++ `")" ++ or_empty tail
      else if str_eqb raw_tag `"gap" then
        `"[" ++ `"gap"
        ++ match attr xml `"reason" with
           | Some reason => `" " ++ `"(" ++ reason ++ `")" ++ reason
           | None => []
           end
        ++ extent_of xml ++ `"]" ++ or_empty tail
      else if contains [`"unclear"; `"supplied"] raw_tag then
        `"[" ++ or_empty text ++ join `" " kids ++ `"]" ++ or_empty tail
      else if str_eqb raw_tag `"choice" then
        `"[" ++ or_empty text ++ join `"/" kids ++ `"]" ++ or_empty tail
      else if str_eqb raw_tag `"ref" then
        `"[" ++ or_empty text ++ `"]" ++ or_empty tail
      else []
  end.

Definition rdg_type_of (rdg : element) : str := or_empty (attr rdg `"type").

Definition app_id_of (xml : element) : str :=
  match attr xml (qname xml_ns `"id") with
  | Some i => i
  | None => or_empty (attr xml `"n")
  end.

(** [" ".join([app_id, rdg_n, rdg_text])]; a reading without [n] makes the
    join raise. *)
Definition rdg_label_of (app_id : str) (rdg : element) : M (str * str) :=
  let rdg_n := attr rdg `"n" in
  let rdg_text := serialize rdg in
  rdg_n <- not_none TypeError rdg_n ;;
  ret (rdg_n, join `" " [app_id; rdg_n; rdg_text]).

(** The body of the first loop of [parse_app]. *)
Definition first_pass (app_id : str) (st : dict str * list str) (rdg : element)
  : M (dict str * list str) :=
  let '(readings_by_number, readings) := st in
  let rdg_type := rdg_type_of rdg in
  if contains (ignored_reading_types cfg) rdg_type
     || contains (trivial_reading_types cfg) rdg_type
  then ret st
  else
    '(rdg_n, rdg_label) <- rdg_label_of app_id rdg ;;
    if negb (str_eqb rdg_type `"ambiguous")
    then ret (Dict.set readings_by_number rdg_n rdg_label, readings ++ [rdg_label])
    else ret st.

(** Lines 232-254: what the second loop does to [rdg_coefficients]; the
    flag tells that the loop goes on to the next reading at once. *)
Definition update_coefficients (app_id : str) (readings_by_number : dict str)
    (rdg_coefficients : dict Q) (rdg : element) : M (dict Q * bool) :=
  let rdg_type := rdg_type_of rdg in
  if negb (contains (trivial_reading_types cfg) rdg_type)
  then
    '(rdg_n, rdg_label) <- rdg_label_of app_id rdg ;;
    if str_eqb rdg_type `"ambiguous"
    then
      let possible_reading_numbers :=
        split_on "/" (strip_chars rdg_n (ambiguous_rdg_prefix cfg)) in
      let rdg_coefficients := resolve_ambiguous readings_by_number possible_reading_numbers in
      ret (rdg_coefficients, length rdg_coefficients =? 0)
    else ret ([(rdg_label, 1%Q)], false)
  else ret (rdg_coefficients, false).

(** The body of the second loop of [parse_app]. *)
Definition second_pass (app_id : str) (readings_by_number : dict str)
    (st : dict Q * dict (dict Q)) (rdg : element) : M (dict Q * dict (dict Q)) :=
  let '(rdg_coefficients, readings_by_witness) := st in
  let rdg_type := rdg_type_of rdg in
  if contains (ignored_reading_types cfg) rdg_type
  then ret st
  else
    '(rdg_coefficients, skip) <-
      update_coefficients app_id readings_by_number rdg_coefficients rdg ;;
    if skip then ret (rdg_coefficients, readings_by_witness)
    else
      match attr rdg `"wit" with
      | None => ret (rdg_coefficients, readings_by_witness)
      | Some wit =>
          readings_by_witness <-
            for_each (split wit)
              (fun readings_by_witness wit =>
                 base_wit <- get_base_wit wit ;;
                 add_support rdg_coefficients readings_by_witness base_wit)
              readings_by_witness ;;
          ret (rdg_coefficients, readings_by_witness)
      end.

(** [parse_app]: the reading list of the parser comes in and goes out with
    the map from base witnesses to their coefficients. *)
Definition parse_app (readings : list str) (xml : element)
  : M (list str * dict (dict Q)) :=
  let app_id := app_id_of xml in
  let rdgs := xpath_children (qname tei_ns `"rdg") xml in
  '(readings_by_number, readings) <- for_each rdgs (first_pass app_id) ([], readings) ;;
  '(_, readings_by_witness) <-
    for_each rdgs (second_pass app_id readings_by_number) ([], []) ;;
  ret (readings, readings_by_witness).

(** [read] up to the call of [postprocess]: the raw collation matrix. *)
Definition read_raw (xml : element) : M (parser Q) :=
  assemble cfg parse_app (xpath_anywhere (qname tei_ns `"app") xml).

Definition read (xml : element) : M (parser R) :=
  self <- read_raw xml ;;
  postprocess cfg self.
End Tei.
End tei_collation_parser.

(** ** The parser of the Virtual Manuscript Room *)

Module vmr_collation_parser.

Definition is_char (c : ascii) : ascii -> bool := Ascii.eqb c.

(** [^[PL]*\d+] *)
Definition manuscript_witness_pattern : Re.regex :=
  [Re.Bol; Re.Star (has_char `"PL"); Re.Chr isdigit; Re.Star isdigit].

(** [f\d*$] *)
Definition fehler_pattern : Re.regex :=
  [Re.Chr (is_char "f"); Re.Star isdigit; Re.Eol].

(** [^[a-z]+f\d*$] *)
Definition defective_rdg_pattern : Re.regex :=
  [Re.Bol; Re.Chr islower_az; Re.Star islower_az; Re.Chr (is_char "f");
   Re.Star isdigit; Re.Eol].

(** [^[a-z]+o\d*$] *)
Definition orthographic_rdg_pattern : Re.regex :=
  [Re.Bol; Re.Chr islower_az; Re.Star islower_az; Re.Chr (is_char "o");
   Re.Star isdigit; Re.Eol].

Definition overlap_rdg_label : str := `"zu".
Definition ambiguous_rdg_label : str := `"zw".
Definition lacunose_rdg_label : str := `"zz".

(** The diamond U+2666, in UTF-8. *)
Definition diamond : str := [ascii_of_nat 226; ascii_of_nat 153; ascii_of_nat 166].

(** The pattern of [expand_parenthetical_suffixes]: a group of one or more
    characters of [\S], then a parenthesis holding a group of any characters
    that are no parentheses.  The first group is the text of the first two
    atoms, the second group that of the fourth. *)
Definition witness_with_parentheses_pattern : Re.regex :=
  [Re.Chr (fun c => negb (isspace c)); Re.Star (fun c => negb (isspace c));
   Re.Chr (is_char "(");
   Re.Star (fun c => negb (has_char `"()" c));
   Re.Chr (is_char ")")].

Definition groups_of (ts : list str) : str * str :=
  (nth 0 ts [] ++ nth 1 ts [], nth 3 ts []).

Definition remove_square_brackets (wit_str : str) : str :=
  replace (replace wit_str `"[" []) `"]" [].

Definition remove_angle_brackets (wit_str : str) : str :=
  replace wit_str `">" [].

(** The loop assigns to its own variable [siglum]; the list it runs over is
    not written to.  The state of the loop is the list and that variable. *)
Definition remove_ms_mss_suffixes (wit_str : str) : str :=
  let reduced_sigla := split wit_str in
  let '(reduced_sigla, _) :=
    fold_left
      (fun '(reduced_sigla, _) siglum =>
         let siglum :=
           if negb (Re.matches manuscript_witness_pattern siglum)
           then if endswith siglum `"mss" then slice_to_minus siglum 3
                else if endswith siglum `"ms" then slice_to_minus siglum 2
                else siglum
           else siglum in
         (reduced_sigla, Some siglum))
      reduced_sigla (reduced_sigla, None) in
  join `" " reduced_sigla.

Section Vmr.
Variable cfg : settings.

(** One turn of the [for] loop over the suffixes, which has no [break]. *)
Definition strip_each_suffix (base_wit : str) : bool * str :=
  fold_left
    (fun '(suffix_found, base_wit) suffix =>
       if endswith base_wit suffix
       then (true, slice_to_minus base_wit (length suffix))
       else (suffix_found, base_wit))
    (subwitness_suffixes cfg) (false, base_wit).

(** The loop of [get_base_wit]; it runs for ever when the empty string is
    a suffix, and otherwise shortens the siglum at every turn. *)
Fixpoint strip_suffixes (fuel : nat) (base_wit : str) : M str :=
  match fuel with
  | 0 => diverge
  | S fuel' =>
      let '(suffix_found, base_wit) := strip_each_suffix base_wit in
      if suffix_found then strip_suffixes fuel' base_wit
      else
        match Re.search fehler_pattern base_wit with
        | Some m =>
            let fehler_suffix := Re.group m in
            strip_suffixes fuel' (slice_to_minus base_wit (length fehler_suffix))
        | None =>
            if endswith base_wit `"V"
            then strip_suffixes fuel' (slice_to_minus base_wit 1)
            else ret base_wit
        end
  end.

Definition get_base_wit (wit : str) : M str :=
  strip_suffixes (S (length wit)) wit.

Definition expand_parenthetical_suffixes (wit_str : str) : M str :=
  let matches :=
    map groups_of (Re.findall witness_with_parentheses_pattern wit_str) in
  for_each matches
    (fun expanded_wit_str '(g0, g1) =>
       wit <- get_base_wit g0 ;;
       let suffixes := split_on "," (replace g1 `" " []) in
       let expanded_wits := map (fun suffix => wit ++ suffix) suffixes in
       ret (replace expanded_wit_str (g0 ++ `"(" ++ g1 ++ `")") (join `" " expanded_wits)))
    wit_str.

(** The type of a reading, from its label. *)
Definition rdg_label_of (rdg : element) : M str :=
  label <- not_none AttributeError (attr rdg `"label") ;;
  ret (strip (replace label diamond [])).

Definition rdg_type_of (rdg_label : str) : str :=
  let rdg_type := [] in
  let rdg_type := if str_eqb rdg_label lacunose_rdg_label then `"lac" else rdg_type in
  let rdg_type := if str_eqb rdg_label ambiguous_rdg_label then `"ambiguous" else rdg_type in
  let rdg_type := if str_eqb rdg_label overlap_rdg_label then `"overlap" else rdg_type in
  let rdg_type :=
    if Re.matches orthographic_rdg_pattern rdg_label then `"orthographic" else rdg_type in
  let rdg_type :=
    if Re.matches defective_rdg_pattern rdg_label then `"defective" else rdg_type in
  rdg_type.

(** [" ".join([segment_id, rdg_label, rdg_text])] *)
Definition rdg_id_of (segment_id rdg_label : str) (rdg : element) : M (str * str) :=
  rdg_text <- not_none TypeError (attr rdg `"reading") ;;
  ret (rdg_text, join `" " [segment_id; rdg_label; rdg_text]).

(** The body of the first loop of [parse_segment]. *)
Definition first_pass (segment_id : str) (st : dict str * list str) (rdg : element)
  : M (dict str * list str) :=
  let '(readings_by_number, readings) := st in
  rdg_label <- rdg_label_of rdg ;;
  let rdg_type := rdg_type_of rdg_label in
  if contains (ignored_reading_types cfg) rdg_type
     || contains (trivial_reading_types cfg) rdg_type
  then ret st
  else
    '(_, rdg_id) <- rdg_id_of segment_id rdg_label rdg ;;
    if negb (str_eqb rdg_type `"ambiguous")
    then ret (Dict.set readings_by_number rdg_label rdg_id, readings ++ [rdg_id])
    else ret st.

(** Lines 475-497: what the second loop does to [rdg_coefficients]; the
    flag tells that the loop goes on to the next reading at once. *)
Definition update_coefficients (segment_id : str) (readings_by_number : dict str)
    (rdg_coefficients : dict Q) (rdg_type : str) (rdg : element) : M (dict Q * bool) :=
  if negb (contains (trivial_reading_types cfg) rdg_type)
  then
    rdg_label <- rdg_label_of rdg ;;
    '(rdg_text, rdg_id) <- rdg_id_of segment_id rdg_label rdg ;;
    if str_eqb rdg_type `"ambiguous"
    then
      let possible_reading_labels := split_on "/" (replace rdg_text `"_f" []) in
      let rdg_coefficients := resolve_ambiguous readings_by_number possible_reading_labels in
      ret (rdg_coefficients, length rdg_coefficients =? 0)
    else ret ([(rdg_id, 1%Q)], false)
  else ret (rdg_coefficients, false).

(** Lines 501-505. *)
Definition preprocess_witnesses (witnesses_str : str) : M str :=
  let processed_witnesses_str := remove_square_brackets witnesses_str in
  let processed_witnesses_str := remove_angle_brackets processed_witnesses_str in
  processed_witnesses_str <- expand_parenthetical_suffixes processed_witnesses_str ;;
  ret (remove_ms_mss_suffixes processed_witnesses_str).

(** The body of the second loop of [parse_segment]. *)
Definition second_pass (segment_id : str) (readings_by_number : dict str)
    (st : dict Q * dict (dict Q)) (rdg : element) : M (dict Q * dict (dict Q)) :=
  let '(rdg_coefficients, readings_by_witness) := st in
  rdg_label <- rdg_label_of rdg ;;
  let rdg_type := rdg_type_of rdg_label in
  if contains (ignored_reading_types cfg) rdg_type
  then ret st
  else
    '(rdg_coefficients, skip) <-
      update_coefficients segment_id readings_by_number rdg_coefficients rdg_type rdg ;;
    if skip then ret (rdg_coefficients, readings_by_witness)
    else
      match attr rdg `"witnesses" with
      | None => ret (rdg_coefficients, readings_by_witness)
      | Some witnesses_str =>
          processed_witnesses_str <- preprocess_witnesses witnesses_str ;;
          readings_by_witness <-
            for_each_break (split processed_witnesses_str)
              (fun readings_by_witness wit =>
                 if Re.matches manuscript_witness_pattern wit
                 then
                   base_wit <- get_base_wit wit ;;
                   readings_by_witness <-
                     add_support rdg_coefficients readings_by_witness base_wit ;;
                   ret (readings_by_witness, false)
                 else ret (readings_by_witness, true))
              readings_by_witness ;;
          ret (rdg_coefficients, readings_by_witness)
      end.

(** [xml.get("verse") + "/" + xml.get("wordsegs")] *)
Definition segment_id_of (xml : element) : M str :=
  verse <- not_none TypeError (attr xml `"verse") ;;
  wordsegs <- not_none TypeError (attr xml `"wordsegs") ;;
  ret (verse ++ `"/" ++ wordsegs).

Definition parse_segment (readings : list str) (xml : element)
  : M (list str * dict (dict Q)) :=
  segment_id <- segment_id_of xml ;;
  let rdgs := xpath_descendants `"segmentReading" xml in
  '(readings_by_number, readings) <- for_each rdgs (first_pass segment_id) ([], readings) ;;
  '(_, readings_by_witness) <-
    for_each rdgs (second_pass segment_id readings_by_number) ([], []) ;;
  ret (readings, readings_by_witness).

(** [read] from the parsed response on, up to the call of [postprocess]. *)
Definition read_raw (xml : element) : M (parser Q) :=
  assemble cfg parse_segment (xpath_anywhere `"segment" xml).

Definition read (xml : element) : M (parser R) :=
  self <- read_raw xml ;;
  postprocess cfg self.
End Vmr.
End vmr_collation_parser.

(** ** Notions used in the statements *)

Definition str_eq_dec : forall a b : str, {a = b} + {a <> b} := list_eq_dec ascii_dec.

(** The pointer marker of TEI. *)
Definition hash : ascii := "#"%char.

(** The tokens a [for] loop with a [break] runs through. *)
Fixpoint take_while {A} (p : A -> bool) (l : list A) : list A :=
  match l with
  | a :: l' => if p a then a :: take_while p l' else []
  | [] => []
  end.

(** One turn of the loop of [strip_each_suffix]. *)
Definition turn (st : bool * str) (suffix : str) : bool * str :=
  let '(suffix_found, base_wit) := st in
  if endswith base_wit suffix
  then (true, slice_to_minus base_wit (length suffix))
  else (suffix_found, base_wit).

(** *** The matrices of [postprocess] *)


Definition threshold (self : parser Q) : Q := inject_Z (min_extant self).

(** The columns that stay, the columns that go to the fragmentary matrix,
    and the rows that stay. *)
Definition sufficient_cols (self : parser Q) : list nat :=
  filter (fun j => Qle_bool (threshold self) (nth j (sum_axis0 (collation_matrix self)) 0%Q))
         (range (length (witnesses self))).

Definition fragmentary_cols (self : parser Q) : list nat :=
  filter (fun j => Qlt_bool (nth j (sum_axis0 (collation_matrix self)) 0%Q) (threshold self))
         (range (length (witnesses self))).

Definition primary_split (self : parser Q) : ndarray Q :=
  take_cols 0%Q (collation_matrix self) (sufficient_cols self).

Definition fragmentary_split (self : parser Q) : ndarray Q :=
  take_cols 0%Q (collation_matrix self) (fragmentary_cols self).

Definition preserved_rows (self : parser Q) : list nat :=
  filter (fun i => Qlt_bool 0%Q (nth i (sum_axis1 (primary_split self)) 0%Q))
         (range (length (readings self))).

(** What [split_and_prune] returns when it returns. *)
Definition pruned (self : parser Q) : parser Q :=
  {| min_extant := min_extant self;
     readings := map (fun i => nth i (readings self) []) (preserved_rows self);
     witnesses := map (fun j => nth j (witnesses self) []) (sufficient_cols self);
     collation_matrix := take_rows (primary_split self) (preserved_rows self);
     fragmentary_witnesses := map (fun j => nth j (witnesses self) []) (fragmentary_cols self);
     fragmentary_collation_matrix :=
       take_rows (fragmentary_split self) (preserved_rows self) |}.

(** The number of witnesses that attest a reading: the entries of its row
    that are not zero. *)
Definition attested (row : list Q) : nat :=
  length (filter (fun x => negb (Qeq_bool x 0%Q)) row).

(** *** Reading the maps *)

(** The coefficient of a label in a map, 0 when the label is absent. *)
Definition coefficient (d : dict Q) (label : str) : Q :=
  match Dict.get d label with Some x => x | None => 0%Q end.

(** The coefficients of a witness, none when the witness is absent. *)
Definition row_of (readings_by_witness : dict (dict Q)) (wit : str) : dict Q :=
  match Dict.get readings_by_witness wit with Some d => d | None => [] end.

Definition support (readings_by_witness : dict (dict Q)) (wit label : str) : Q :=
  coefficient (row_of readings_by_witness wit) label.

(** What the inner loop of [add_support] computes. *)
Definition accumulate (rdg_coefficients base_wit_coefficients : dict Q) : dict Q :=
  fold_left (fun bwc '(label, c) => Dict.set bwc label (coefficient bwc label + c)%Q)
            rdg_coefficients base_wit_coefficients.

(** What the loop over the witnesses of a reading computes. *)
Definition distribute (rdg_coefficients : dict Q) (base_wits : list str)
    (readings_by_witness : dict (dict Q)) : dict (dict Q) :=
  fold_left (fun rbw b => Dict.set rbw b (accumulate rdg_coefficients (row_of rbw b)))
            base_wits readings_by_witness.

(** How often a base witness occurs among the supporters of a reading. *)
Definition occurrences (bs : list str) (b : str) : Q :=
  inject_Z (Z.of_nat (count_occ str_eq_dec bs b)).

(** The labels an ambiguous reading resolves to, before the shares are set. *)
Definition resolved (readings_by_number : dict str) (possible : list str) : dict Q :=
  fold_left (fun rc p =>
               match Dict.get readings_by_number p with
               | Some label => Dict.set rc label 1%Q
               | None => rc
               end) possible [].

(** The base witnesses that the second loop credits for a reading. *)
Definition tei_supporters (cfg : settings) (rdg : element) : M (list str) :=
  comprehension (tei_collation_parser.get_base_wit cfg)
                (split (or_empty (attr rdg `"wit"))).

Definition vmr_supporters (cfg : settings) (rdg : element) : M (list str) :=
  match attr rdg `"witnesses" with
  | None => ret []
  | Some witnesses_str =>
      processed <- vmr_collation_parser.preprocess_witnesses cfg witnesses_str ;;
      comprehension (vmr_collation_parser.get_base_wit cfg)
        (take_while (Re.matches vmr_collation_parser.manuscript_witness_pattern)
                    (split processed))
  end.

(** A TEI reading that becomes a row of the matrix. *)
Definition substantive (cfg : settings) (rdg : element) : Prop :=
  contains (ignored_reading_types cfg) (tei_collation_parser.rdg_type_of rdg) = false
  /\ contains (trivial_reading_types cfg) (tei_collation_parser.rdg_type_of rdg) = false
  /\ str_eqb (tei_collation_parser.rdg_type_of rdg) `"ambiguous" = false.

(** A TEI reading that stands for other readings. *)
Definition ambiguous (cfg : settings) (rdg : element) : Prop :=
  contains (ignored_reading_types cfg) (tei_collation_parser.rdg_type_of rdg) = false
  /\ contains (trivial_reading_types cfg) (tei_collation_parser.rdg_type_of rdg) = false
  /\ tei_collation_parser.rdg_type_of rdg = `"ambiguous".

(** The label of a TEI reading. *)
Definition tei_label (tei_ns app_id rdg_n : str) (rdg : element) : str :=
  join `" " [app_id; rdg_n; tei_collation_parser.serialize tei_ns rdg].

(** *** The maps of the document *)

(** What the inner loop of [merge_unit] computes. *)
Definition overwrite (wc d : dict Q) : dict Q :=
  fold_left (fun d '(label, c) => Dict.set d label c) wc d.

(** One turn of the loop of [merge_unit]. *)
Definition merge_step (st : list str * dict (dict Q)) (entry : str * dict Q)
  : list str * dict (dict Q) :=
  let '(witnesses, rbw) := st in
  let '(wit, wc) := entry in
  (if Dict.mem rbw wit then witnesses else witnesses ++ [wit],
   Dict.set rbw wit (overwrite wc (row_of rbw wit))).

(** The witness list is the key list of the map, without repetition. *)
Definition witnesses_ok (st : list str * dict (dict Q)) : Prop :=
  Dict.keys (snd st) = fst st /\ NoDup (fst st).

(** [rows_by_reading] and [cols_by_witness]. *)
Definition index_map (l : list str) : dict nat :=
  fold_left (fun d '(i, x) => Dict.set d x i) (enumerate l) [].

(** One turn of the loop of [collect]. *)
Definition collect_step (parse_unit : list str -> element -> M (list str * dict (dict Q)))
    (st : list str * list str * dict (dict Q)) (unit : element)
  : M (list str * list str * dict (dict Q)) :=
  let '(readings, witnesses, rbw) := st in
  '(readings, out) <- parse_unit readings unit ;;
  let '(witnesses, rbw) := fold_left merge_step out (witnesses, rbw) in
  ret (readings, witnesses, rbw).

(** ** Examples *)

Definition TEI_NS : str := `"http://www.tei-c.org/ns/1.0".
Definition XML_NS : str := `"http://www.w3.org/XML/1998/namespace".

Definition tei_element (name : str) (attrs : dict str) (kids : list element) : element :=
  Element (qname TEI_NS name) attrs None None kids.

Definition word (t : str) : element := Element (qname TEI_NS `"w") [] (Some t) None [].

Definition tei_settings (p : Q) (tfidf : bool) : settings :=
  {| min_extant_proportion := p; use_tfidf := tfidf; ambiguous_rdg_prefix := `"W";
     subwitness_suffixes := [`"*"; `"C"]; trivial_reading_types := [`"orthographic"];
     ignored_reading_types := [`"lac"] |}.

Definition reading_a : element :=
  tei_element `"rdg" [(`"n", `"a"); (`"wit", `"#A")] [word `"logos"].

Definition reading_b : element :=
  tei_element `"rdg" [(`"n", `"b"); (`"wit", `"#B")] [word `"logon"].

Definition reading_a_spelt : element :=
  tei_element `"rdg" [(`"n", `"a-o"); (`"type", `"orthographic"); (`"wit", `"#D")]
    [word `"logoc"].

Definition reading_a_or_b : element :=
  tei_element `"rdg" [(`"n", `"Wa/b"); (`"type", `"ambiguous"); (`"wit", `"#C1")] [].

(** A substantive reading followed by a spelling of it. *)
Definition collapsed_unit : element :=
  tei_element `"app" [(`"n", `"u1")] [reading_a; reading_a_spelt].

(** A spelling first, then the substantive reading. *)
Definition leading_trivial_unit : element :=
  tei_element `"app" [(`"n", `"u1")] [reading_a_spelt; reading_a].

Definition leading_trivial_document : element :=
  tei_element `"TEI" [] [leading_trivial_unit].

Definition leading_trivial_raw : parser Q :=
  {| min_extant := 1%Z;
     readings := [`"u1 a logos"];
     witnesses := [`"D"; `"A"];
     collation_matrix := {| ncols := 2; data := [[0; 1]]%Q |};
     fragmentary_witnesses := [];
     fragmentary_collation_matrix := zeros 0 0 |}.

(** A unit whose only reading is of a trivial type. *)
Definition trivial_only_document : element :=
  tei_element `"TEI" []
    [tei_element `"app" [(`"n", `"u1")]
       [tei_element `"rdg" [(`"n", `"a-o"); (`"type", `"orthographic"); (`"wit", `"#A")]
          [word `"logos"]]].

Definition rowless : parser Q :=
  {| min_extant := 0%Z; readings := []; witnesses := [`"A"];
     collation_matrix := zeros 0 1;
     fragmentary_witnesses := []; fragmentary_collation_matrix := zeros 0 0 |}.

(** The scenario of the ambiguous reading. *)
Definition scenario_unit_example : element :=
  tei_element `"app" [(`"n", `"u1")] [reading_a; reading_b; reading_a_or_b].

Definition scenario_document : element :=
  tei_element `"TEI" [] [tei_element `"body" [] [scenario_unit_example]].

Definition scenario_raw : parser Q :=
  {| min_extant := 1%Z;
     readings := [`"u1 a logos"; `"u1 b logon"];
     witnesses := [`"A"; `"B"; `"C1"];
     collation_matrix := {| ncols := 3; data := [[1; 0; 1 # 2]; [0; 1; 1 # 2]]%Q |};
     fragmentary_witnesses := [];
     fragmentary_collation_matrix := zeros 0 0 |}.


Definition halves (la lb : str) : dict Q := [(la, 1 # 2); (lb, 1 # 2)]%Q.

(** Three units; [W1] is extant in three, [W2] in one, [W3] in two. *)
Definition three_units : element :=
  tei_element `"TEI" []
    [tei_element `"app" [(`"n", `"u1")]
       [tei_element `"rdg" [(`"n", `"a"); (`"wit", `"#W1 #W2 #W3")] [word `"en"]];
     tei_element `"app" [(`"n", `"u2")]
       [tei_element `"rdg" [(`"n", `"a"); (`"wit", `"#W1 #W3")] [word `"arche"]];
     tei_element `"app" [(`"n", `"u3")]
       [tei_element `"rdg" [(`"n", `"a"); (`"wit", `"#W1")] [word `"logos"]]].

Definition three_units_raw : parser Q :=
  {| min_extant := 2%Z;
     readings := [`"u1 a en"; `"u2 a arche"; `"u3 a logos"];
     witnesses := [`"W1"; `"W2"; `"W3"];
     collation_matrix := {| ncols := 3; data := [[1; 1; 1]; [1; 0; 1]; [1; 0; 0]]%Q |};
     fragmentary_witnesses := [];
     fragmentary_collation_matrix := zeros 0 0 |}.

(** Two units; [A] is extant in both, [B] in the first only. *)
Definition common_document : element :=
  tei_element `"TEI" []
    [tei_element `"app" [(`"n", `"u1")]
       [tei_element `"rdg" [(`"n", `"a"); (`"wit", `"#A #B")] [word `"en"]];
     tei_element `"app" [(`"n", `"u2")]
       [tei_element `"rdg" [(`"n", `"c"); (`"wit", `"#A")] [word `"arche"]]].

Definition common_readings : parser Q :=
  {| min_extant := 2%Z;
     readings := [`"u1 a en"; `"u2 c arche"];
     witnesses := [`"A"; `"B"];
     collation_matrix := {| ncols := 2; data := [[1%Q; 1%Q]; [1%Q; 0%Q]] |};
     fragmentary_witnesses := [];
     fragmentary_collation_matrix := zeros 0 0 |}.

(** The weight of a reading that the only primary witness attests. *)
Definition zero_weight : R := (ln (INR 1 / INR 1) + 1 - 1)%R.

Definition common_readings_reweighted : parser R :=
  {| min_extant := 2%Z;
     readings := [`"u1 a en"; `"u2 c arche"];
     witnesses := [`"A"];
     collation_matrix :=
       {| ncols := 1; data := [[(Q2R 1 * zero_weight)%R]; [(Q2R 1 * zero_weight)%R]] |};
     fragmentary_witnesses := [`"B"];
     fragmentary_collation_matrix :=
       {| ncols := 1; data := [[(Q2R 1 * zero_weight)%R]; [(Q2R 0 * zero_weight)%R]] |} |}.

(** Readings of the Virtual Manuscript Room. *)
Definition segment_reading (label reading witnesses : str) : element :=
  Element `"segmentReading"
          [(`"label", label); (`"reading", reading); (`"witnesses", witnesses)]
          None None [].

Definition vmr_spelt : element := segment_reading `"bo" `"logoy" `"06 07V vgms 08".

Definition vmr_numbers : dict str :=
  [(`"a", `"Acts.1.1/2-4 a logon"); (`"b", `"Acts.1.1/2-4 b logou")].

(** ** Notions used in the further properties *)

(** A coefficient map whose labels are among [S], each once, with positive
    coefficients. *)
Definition positive_in (S : list str) (d : dict Q) : Prop :=
  NoDup (Dict.keys d) /\ forall l x, In (l, x) d -> In l S /\ (0 < x)%Q.

(** A map from witnesses to such coefficient maps, each witness once. *)
Definition rows_in (S : list str) (rbw : dict (dict Q)) : Prop :=
  NoDup (Dict.keys rbw) /\ forall b d, In (b, d) rbw -> positive_in S d.

(** A TEI reading that the first loop of [parse_app] gives a row. *)
Definition is_substantive (cfg : settings) (rdg : element) : bool :=
  let rdg_type := tei_collation_parser.rdg_type_of rdg in
  negb (contains (ignored_reading_types cfg) rdg_type
        || contains (trivial_reading_types cfg) rdg_type)
  && negb (str_eqb rdg_type `"ambiguous").

(** The labels that the first loop of [parse_app] appends. *)
Definition tei_labels (tei_ns : str) (cfg : settings) (app_id : str) (rdgs : list element)
  : list str :=
  flat_map (fun rdg => if is_substantive cfg rdg
                       then [tei_label tei_ns app_id (or_empty (attr rdg `"n")) rdg]
                       else []) rdgs.


(** What [read] relies on in a unit parser: it appends to the reading list,
    and the labels of its map are in the list it returns. *)
Definition unit_spec (parse_unit : list str -> element -> M (list str * dict (dict Q)))
    (units : list element) : Prop :=
  forall u rs rs' out,
    In u units -> parse_unit rs u = inr (rs', out) ->
    (exists new, rs' = rs ++ new) /\ rows_in rs' out.

Definition nonnegative (m : ndarray Q) : Prop :=
  Forall (Forall (fun x => 0 <= x)%Q) (data m).

Definition nonnegative_real (m : ndarray R) : Prop :=
  Forall (Forall (fun x => 0 <= x)%R) (data m).

(** A reading of the room that the first loop of [parse_segment] gives a
    row, by its label. *)
Definition vmr_is_substantive (cfg : settings) (rdg_label : str) : bool :=
  let rdg_type := vmr_collation_parser.rdg_type_of rdg_label in
  negb (contains (ignored_reading_types cfg) rdg_type
        || contains (trivial_reading_types cfg) rdg_type)
  && negb (str_eqb rdg_type `"ambiguous").

Definition vmr_id (segment_id rdg_label : str) (rdg : element) : str :=
  join `" " [segment_id; rdg_label; or_empty (attr rdg `"reading")].

(** The labels that the first loop of [parse_segment] appends. *)
Definition vmr_labels (cfg : settings) (segment_id : str) (rdgs : list element) : list str :=
  flat_map (fun rdg =>
              match vmr_collation_parser.rdg_label_of rdg with
              | inr rdg_label =>
                  if vmr_is_substantive cfg rdg_label
                  then [vmr_id segment_id rdg_label rdg] else []
              | inl _ => []
              end) rdgs.

(** A reading of the room that [parse_segment] needs the text of. *)
Definition lacks_text (cfg : settings) (rdg : element) : Prop :=
  exists rdg_label,
    vmr_collation_parser.rdg_label_of rdg = inr rdg_label
    /\ contains (ignored_reading_types cfg) (vmr_collation_parser.rdg_type_of rdg_label)
       || contains (trivial_reading_types cfg) (vmr_collation_parser.rdg_type_of rdg_label)
       = false
    /\ attr rdg `"reading" = None.

(** Why [parse_segment] fails on a segment with the readings [rdgs]. *)
Definition segment_failure (cfg : settings) (xml : element) (rdgs : list element)
    (f : failure) : Prop :=
  (f = Raised AttributeError /\ exists rdg, In rdg rdgs /\ attr rdg `"label" = None)
  \/ (f = Raised TypeError
      /\ (attr xml `"verse" = None \/ attr xml `"wordsegs" = None
          \/ exists rdg, In rdg rdgs /\ lacks_text cfg rdg))
  \/ (f = Diverged /\ In [] (subwitness_suffixes cfg)).

(** [rows_by_reading[r] == i]: a label that occurs more than once in the
    reading list has the row of its last occurrence. *)
Definition is_row_of (readings : list str) (i : nat) (r : str) : bool :=
  match Dict.get (index_map readings) r with
  | Some k => k =? i
  | None => false
  end.

(** What the loops of [read] leave at row [i] of the column of a witness
    with the coefficients [d]. *)
Definition filled (readings : list str) (d : dict Q) (i : nat) : Q :=
  match nth_error readings i with
  | Some r => if is_row_of readings i r then coefficient d r else 0%Q
  | None => 0%Q
  end.

(** The rows that the coefficients [d] are written to. *)
Definition touched (readings : list str) (d : dict Q) (i : nat) : bool :=
  match nth_error readings i with
  | Some r => Dict.mem d r && is_row_of readings i r
  | None => false
  end.

(** The labels that [parse_app] appends for a unit, and the map that it
    returns for it. *)
Definition tei_unit_labels (tei_ns xml_ns : str) (cfg : settings) (app : element) : list str :=
  tei_labels tei_ns cfg (tei_collation_parser.app_id_of xml_ns app)
             (xpath_children (qname tei_ns `"rdg") app).

Definition tei_unit_map (tei_ns xml_ns : str) (cfg : settings) (app : element)
  : dict (dict Q) :=
  match tei_collation_parser.parse_app tei_ns xml_ns cfg [] app with
  | inr (_, readings_by_witness) => readings_by_witness
  | inl _ => []
  end.

(** The same for [parse_segment]. *)
Definition vmr_unit_labels (cfg : settings) (segment : element) : list str :=
  vmr_labels cfg (or_empty (attr segment `"verse") ++ `"/"
                  ++ or_empty (attr segment `"wordsegs"))
             (xpath_descendants `"segmentReading" segment).

Definition vmr_unit_map (cfg : settings) (segment : element) : dict (dict Q) :=
  match vmr_collation_parser.parse_segment cfg [] segment with
  | inr (_, readings_by_witness) => readings_by_witness
  | inl _ => []
  end.

(** The text [t] that an atom consumed in front of the rest [s']. *)
Definition atom_text (a : Re.atom) (t s' : str) : Prop :=
  match a with
  | Re.Chr p => exists c, t = [c] /\ p c = true
  | Re.Star p => forallb p t = true
  | Re.Bol => t = []
  | Re.Eol => t = [] /\ (s' = [] \/ s' = ["010"%char])
  end.

(** The texts [ts] of the atoms of [re], one after the other, in front of
    [s]. *)
Fixpoint explains (re : Re.regex) (ts : list str) (s : str) : Prop :=
  match re, ts with
  | [], [] => True
  | a :: re', t :: ts' =>
      exists s', s = t ++ s' /\ atom_text a t s' /\ explains re' ts' s'
  | _, _ => False
  end.

(** The last character of a label that is neither a digit nor a line feed. *)
Definition last_letter (s : str) : option ascii :=
  hd_error (lstrip_if (fun c => isdigit c || Ascii.eqb c "010") (rev s)).

(** ** Further examples *)

(** A segment of the room: five readings, of which one is a spelling, one
    ambiguous and one lacunose. *)
Definition vmr_segment : element :=
  Element `"segment" [(`"verse", `"Acts.1.1"); (`"wordsegs", `"2-4")] None None
    [segment_reading `"a" `"logon" `"01 02* 03(*, C) vgms 04";
     segment_reading `"b" `"logou" `"[05]";
     segment_reading `"bo" `"logoy" `"06";
     segment_reading `"zw" `"a/b_f" `"08f";
     segment_reading `"zz" `"" `"09"].

Definition vmr_document : element := Element `"segments" [] None None [vmr_segment].

Definition vmr_raw : parser Q :=
  {| min_extant := 1%Z;
     readings := [`"Acts.1.1/2-4 a logon"; `"Acts.1.1/2-4 b logou"];
     witnesses := [`"01"; `"02"; `"03"; `"05"; `"06"; `"08"];
     collation_matrix :=
       {| ncols := 6;
          data := [[1; 1; 2; 0; 0; 1 # 2]; [0; 0; 0; 1; 1; 1 # 2]]%Q |};
     fragmentary_witnesses := [];
     fragmentary_collation_matrix := zeros 0 0 |}.


Definition reading_lost : element :=
  tei_element `"rdg" [(`"n", `"z"); (`"type", `"lac"); (`"wit", `"#E")] [].

Definition unit_with_lacuna : element :=
  tei_element `"app" [(`"n", `"u1")] [reading_a; reading_lost; reading_a_spelt].

(** What [read] leaves of a document without units. *)
Definition empty_parser : parser Q :=
  {| min_extant := 0%Z; readings := []; witnesses := [];
     collation_matrix := zeros 0 0;
     fragmentary_witnesses := []; fragmentary_collation_matrix := zeros 0 0 |}.

(** Two units with one number and one reading. *)
Definition repeated_unit_document : element :=
  tei_element `"TEI" []
    [tei_element `"app" [(`"n", `"u1")] [reading_a];
     tei_element `"app" [(`"n", `"u1")] [reading_a]].

Definition repeated_unit_raw : parser Q :=
  {| min_extant := 2%Z; readings := [`"u1 a logos"; `"u1 a logos"]; witnesses := [`"A"];
     collation_matrix := {| ncols := 1; data := [[0%Q]; [1%Q]] |};
     fragmentary_witnesses := []; fragmentary_collation_matrix := zeros 0 0 |}.

(** * Properties *)

(** ** Strings *)

Lemma str_eqb_refl (a : str) : str_eqb a a = true.
Proof. induction a as [|x a IH]; simpl; [reflexivity|]. now rewrite Ascii.eqb_refl, IH. Qed.

Lemma str_eqb_eq (a b : str) : str_eqb a b = true <-> a = b.
Proof.
  split; [|intros ->; apply str_eqb_refl].
  revert b; induction a as [|x a IH]; intros [|y b]; simpl; try discriminate; auto.
  intros H. apply andb_true_iff in H as [Hx Ha].
  apply Ascii.eqb_eq in Hx. subst y. f_equal. now apply IH.
Qed.

Lemma str_eqb_neq (a b : str) : str_eqb a b = false <-> a <> b.
Proof.
  split.
  - intros H E. apply str_eqb_eq in E. congruence.
  - intros H. destruct (str_eqb a b) eqn:E; [|reflexivity].
    apply str_eqb_eq in E. contradiction.
Qed.

Lemma contains_In (l : list str) (x : str) : contains l x = true <-> In x l.
Proof.
  unfold contains. rewrite existsb_exists. split.
  - intros (y & Hy & E). apply str_eqb_eq in E. now subst.
  - intros H. exists x. split; [assumption|apply str_eqb_refl].
Qed.

Lemma endswith_length (s suffix : str) :
  endswith s suffix = true -> length suffix <= length s.
Proof.
  unfold endswith. intros H. apply andb_true_iff in H as [H _].
  now apply Nat.leb_le in H.
Qed.

Lemma endswith_app (s suffix : str) :
  endswith s suffix = true -> s = slice_to_minus s (length suffix) ++ suffix \/ suffix = [].
Proof.
  unfold endswith. intros H. apply andb_true_iff in H as [H1 H2].
  apply Nat.leb_le in H1. apply str_eqb_eq in H2.
  destruct suffix as [|c suffix]; [now right|left].
  unfold slice_to_minus. cbn [length] in *.
  rewrite <- H2. now rewrite firstn_skipn.
Qed.

Lemma slice_to_minus_prefix (s : str) (n : nat) :
  exists t, s = slice_to_minus s n ++ t.
Proof.
  destruct n as [|n]; simpl.
  - now exists s.
  - exists (skipn (length s - S n) s). now rewrite firstn_skipn.
Qed.

Lemma slice_to_minus_length (s : str) (n : nat) :
  0 < n -> length (slice_to_minus s n) = length s - n.
Proof.
  destruct n as [|n]; [lia|]. intros _. unfold slice_to_minus.
  rewrite length_firstn. lia.
Qed.

Lemma slice_to_minus_shorter (s : str) (n : nat) :
  0 < n -> s <> [] -> length (slice_to_minus s n) < length s.
Proof.
  intros Hn Hs. rewrite slice_to_minus_length by assumption.
  destruct s; [contradiction|]. cbn [length]. lia.
Qed.


(** The last character, for the statements about a trailing [#]. *)
Lemma endswith_single (s : str) (c : ascii) :
  endswith s [c] = true <-> exists t, s = t ++ [c].
Proof.
  split.
  - intros H. destruct (endswith_app _ _ H) as [E|E]; [|discriminate].
    eexists. exact E.
  - intros [t ->]. unfold endswith. rewrite length_app. simpl.
    replace (length t + 1 - 1) with (length t) by lia.
    rewrite skipn_app, skipn_all, Nat.sub_diag. simpl.
    rewrite Ascii.eqb_refl. simpl.
    replace (length t + 1) with (S (length t)) by lia. reflexivity.
Qed.

Lemma lstrip_if_suffix p (s : str) : exists t, s = t ++ lstrip_if p s.
Proof.
  induction s as [|c s [t IH]]; simpl.
  - now exists [].
  - destruct (p c).
    + exists (c :: t). simpl. now f_equal.
    + now exists [].
Qed.

Lemma lstrip_if_head p (s : str) c t : lstrip_if p s = c :: t -> p c = false.
Proof.
  induction s as [|x s IH]; simpl; [discriminate|].
  destruct (p x) eqn:E; [assumption|]. intros H. now inversion H; subst.
Qed.

Lemma lstrip_if_id p (s : str) c t : s = c :: t -> p c = false -> lstrip_if p s = s.
Proof. intros -> H. simpl. now rewrite H. Qed.

Lemma lstrip_if_length p (s : str) : length (lstrip_if p s) <= length s.
Proof.
  destruct (lstrip_if_suffix p s) as [t E]. rewrite E at 2. rewrite length_app. lia.
Qed.

Lemma rstrip_if_prefix p (s : str) : exists t, s = rstrip_if p s ++ t.
Proof.
  unfold rstrip_if. destruct (lstrip_if_suffix p (rev s)) as [t E].
  exists (rev t). rewrite <- rev_app_distr, <- E. now rewrite rev_involutive.
Qed.

Lemma rstrip_if_id p (s : str) c : p c = false -> rstrip_if p (s ++ [c]) = s ++ [c].
Proof.
  intros H. unfold rstrip_if. rewrite rev_app_distr. simpl. rewrite H.
  simpl. now rewrite rev_involutive.
Qed.

Lemma rstrip_if_last p (s : str) c : p c = true -> rstrip_if p (s ++ [c]) = rstrip_if p s.
Proof.
  intros H. unfold rstrip_if. rewrite rev_app_distr. simpl. now rewrite H.
Qed.

Lemma rstrip_if_length p (s : str) : length (rstrip_if p s) <= length s.
Proof.
  destruct (rstrip_if_prefix p s) as [t E]. rewrite E at 2. rewrite length_app. lia.
Qed.

Lemma has_char_hash c : has_char `"#" c = Ascii.eqb c hash.
Proof. unfold has_char. simpl. now rewrite orb_false_r. Qed.

(** ** Witness normalisation *)

Section TeiBase.
Import tei_collation_parser.
Variable cfg : settings.
Local Abbreviation suffixes := (subwitness_suffixes cfg).

Lemma tei_strip_suffixes_fixed fuel s r :
  strip_suffixes cfg fuel s = inr r -> find (endswith r) suffixes = None.
Proof.
  revert s; induction fuel as [|fuel IH]; intros s; simpl; [discriminate|].
  destruct (find (endswith s) suffixes) eqn:E.
  - apply IH.
  - intros H. inversion H; subst. exact E.
Qed.

Lemma tei_strip_suffixes_prefix fuel s r :
  strip_suffixes cfg fuel s = inr r -> exists t, s = r ++ t.
Proof.
  revert s; induction fuel as [|fuel IH]; intros s; simpl; [discriminate|].
  destruct (find (endswith s) suffixes) eqn:E.
  - intros H. apply IH in H as [t Ht].
    destruct (slice_to_minus_prefix s (length s0)) as [u Hu].
    exists (t ++ u). rewrite app_assoc, <- Ht. exact Hu.
  - intros H. inversion H; subst. exists []. now rewrite app_nil_r.
Qed.

Lemma tei_strip_suffixes_at_fixed fuel r :
  find (endswith r) suffixes = None -> strip_suffixes cfg (S fuel) r = inr r.
Proof. intros H. simpl. now rewrite H. Qed.

Lemma tei_strip_suffixes_returns fuel s :
  Forall (fun suffix => suffix <> []) suffixes -> length s < fuel ->
  exists r, strip_suffixes cfg fuel s = inr r.
Proof.
  intros Hne. revert s; induction fuel as [|fuel IH]; intros s Hlt; [lia|].
  simpl. destruct (find (endswith s) suffixes) as [suffix|] eqn:E.
  - apply find_some in E as [Hin He].
    rewrite Forall_forall in Hne. specialize (Hne _ Hin).
    assert (0 < length suffix) by (destruct suffix; [contradiction|simpl; lia]).
    apply endswith_length in He.
    apply IH. rewrite slice_to_minus_length by assumption. lia.
  - now exists s.
Qed.


(** A siglum without [#] at either end is not changed by the strip. *)
Lemma strip_hash_id (s : str) :
  hd_error s <> Some hash -> endswith s [hash] = false ->
  strip_chars s `"#" = s.
Proof.
  intros Hh He. unfold strip_chars.
  assert (L : lstrip_if (has_char `"#") s = s).
  { destruct s as [|c t]; [reflexivity|]. cbn [lstrip_if]. rewrite has_char_hash.
    destruct (Ascii.eqb_spec c hash); [subst; now elim Hh|reflexivity]. }
  rewrite L. destruct (rev s) as [|c t] eqn:E.
  - apply (f_equal (@rev _)) in E. rewrite rev_involutive in E. now subst.
  - apply (f_equal (@rev _)) in E. rewrite rev_involutive in E. simpl in E. subst s.
    apply rstrip_if_id. rewrite has_char_hash.
    destruct (Ascii.eqb_spec c hash); [|reflexivity]. subst.
    assert (endswith (rev t ++ [hash]) [hash] = true) by (apply endswith_single; eauto).
    congruence.
Qed.

Lemma strip_hash_head (s : str) : hd_error (strip_chars s `"#") <> Some hash.
Proof.
  unfold strip_chars.
  destruct (rstrip_if_prefix (has_char `"#") (lstrip_if (has_char `"#") s)) as [t E].
  destruct (rstrip_if _ _) as [|c u]; [discriminate|].
  simpl in E. apply lstrip_if_head in E. rewrite has_char_hash in E.
  simpl. intros H. inversion H; subst. now rewrite Ascii.eqb_refl in E.
Qed.

Lemma strip_hash_shorter (s : str) :
  endswith s [hash] = true -> length (strip_chars s `"#") < length s.
Proof.
  intros H. apply endswith_single in H as [t ->]. unfold strip_chars.
  destruct (lstrip_if_suffix (has_char `"#") (t ++ [hash])) as [u E].
  destruct (lstrip_if (has_char `"#") (t ++ [hash])) as [|c v].
  - unfold rstrip_if. cbn [rev lstrip_if length]. rewrite length_app. cbn [length]. lia.
  - destruct (exists_last (l := c :: v)) as (v' & x & Hx); [discriminate|].
    rewrite Hx in *. rewrite app_assoc in E.
    apply app_inj_tail in E as [E <-].
    rewrite rstrip_if_last by (now rewrite has_char_hash).
    pose proof (rstrip_if_length (has_char `"#") v').
    subst t. rewrite !length_app. cbn [length]. lia.
Qed.

Lemma tei_get_base_wit_head wit base :
  get_base_wit cfg wit = inr base -> hd_error base <> Some hash.
Proof.
  unfold get_base_wit. intros H. apply tei_strip_suffixes_prefix in H as [t Ht].
  pose proof (strip_hash_head wit) as Hh. rewrite Ht in Hh.
  destruct base; [discriminate|]. exact Hh.
Qed.

Lemma tei_get_base_wit_length wit base :
  get_base_wit cfg wit = inr base -> length base <= length (strip_chars wit `"#").
Proof.
  unfold get_base_wit. intros H. apply tei_strip_suffixes_prefix in H as [t Ht].
  rewrite Ht, length_app. lia.
Qed.

Lemma tei_get_base_wit_returns wit :
  Forall (fun suffix => suffix <> []) suffixes -> exists base, get_base_wit cfg wit = inr base.
Proof. intros H. apply tei_strip_suffixes_returns; [assumption|lia]. Qed.

End TeiBase.

Section VmrBase.
Import vmr_collation_parser.
Variable cfg : settings.
Local Abbreviation suffixes := (subwitness_suffixes cfg).

Lemma strip_each_suffix_fold s :
  strip_each_suffix cfg s = fold_left turn suffixes (false, s).
Proof.
  unfold strip_each_suffix. generalize (false, s). generalize suffixes.
  intros l; induction l as [|x l IH]; intros st; [reflexivity|].
  simpl. rewrite IH. now destruct st.
Qed.

Lemma turns_not_found l f0 s0 b :
  fold_left turn l (f0, s0) = (false, b) -> f0 = false /\ b = s0.
Proof.
  revert f0 s0; induction l as [|x l IH]; intros f0 s0; simpl.
  - intros H. now inversion H.
  - destruct (endswith s0 x).
    + intros H. apply IH in H as [H _]. discriminate.
    + apply IH.
Qed.

Lemma turns_shorter l f0 s0 f b :
  Forall (fun suffix => suffix <> []) l ->
  fold_left turn l (f0, s0) = (f, b) ->
  length b <= length s0 /\ (f = true -> f0 = true \/ length b < length s0).
Proof.
  intros Hne. revert f0 s0; induction Hne as [|x l Hx Hl IH]; intros f0 s0; simpl.
  - intros H. inversion H; subst. split; [lia|auto].
  - destruct (endswith s0 x) eqn:E.
    + intros H. apply IH in H as [H1 H2].
      apply endswith_length in E.
      assert (0 < length x) by (destruct x; [contradiction|simpl; lia]).
      rewrite slice_to_minus_length in * by assumption.
      split; [lia|]. intros _. right. lia.
    + apply IH.
Qed.


Lemma match_here_chr p re at_start s ts :
  Re.match_here (Re.Chr p :: re) at_start s = Some ts ->
  exists c s' ts', s = c :: s' /\ ts = [c] :: ts'.
Proof.
  cbn [Re.match_here]. destruct s as [|c s']; [discriminate|].
  destruct (p c); [|discriminate].
  destruct (Re.match_here re false s') as [ts'|]; [|discriminate].
  intros H. inversion H. eauto.
Qed.

Lemma fehler_search_nonempty at_start s m :
  Re.search_from fehler_pattern at_start s = Some m ->
  s <> [] /\ 0 < length (Re.group m).
Proof.
  revert at_start; induction s as [|c s IH]; intros at_start; cbn [Re.search_from].
  - destruct (Re.match_here _ _ _) eqn:E; [|discriminate].
    apply match_here_chr in E as (? & ? & ? & ? & ?). discriminate.
  - destruct (Re.match_here _ _ _) eqn:E.
    + intros H. inversion H; subst.
      apply match_here_chr in E as (? & ? & ? & ? & ->).
      split; [discriminate|]. cbn [Re.group concat length app]. lia.
    + intros H. apply IH in H as [_ H]. split; [discriminate|assumption].
Qed.

Lemma vmr_strip_suffixes_fixed fuel s r :
  strip_suffixes cfg fuel s = inr r ->
  strip_each_suffix cfg r = (false, r)
  /\ Re.search fehler_pattern r = None
  /\ endswith r `"V" = false.
Proof.
  revert s; induction fuel as [|fuel IH]; intros s; [discriminate|].
  cbn [strip_suffixes].
  destruct (strip_each_suffix cfg s) as [found b] eqn:E.
  destruct found; [apply IH|].
  pose proof E as E'. rewrite strip_each_suffix_fold in E'.
  apply turns_not_found in E' as [_ ->].
  destruct (Re.search fehler_pattern s) eqn:F; [apply IH|].
  destruct (endswith s `"V") eqn:V; [apply IH|].
  intros H. inversion H; subst. auto.
Qed.

Lemma vmr_strip_suffixes_at_fixed fuel r :
  strip_each_suffix cfg r = (false, r) ->
  Re.search fehler_pattern r = None ->
  endswith r `"V" = false ->
  strip_suffixes cfg (S fuel) r = inr r.
Proof. intros H1 H2 H3. cbn [strip_suffixes]. now rewrite H1, H2, H3. Qed.

Lemma vmr_strip_suffixes_returns fuel s :
  Forall (fun suffix => suffix <> []) suffixes -> length s < fuel ->
  exists r, strip_suffixes cfg fuel s = inr r.
Proof.
  intros Hne. revert s; induction fuel as [|fuel IH]; intros s Hlt; [lia|].
  cbn [strip_suffixes].
  destruct (strip_each_suffix cfg s) as [found b] eqn:E.
  pose proof E as E'. rewrite strip_each_suffix_fold in E'.
  destruct found.
  - eapply turns_shorter in E' as [_ H]; [|exact Hne].
    destruct (H eq_refl) as [?|?]; [discriminate|]. apply IH. lia.
  - apply turns_not_found in E' as [_ ->].
    destruct (Re.search fehler_pattern s) as [m|] eqn:F.
    + apply fehler_search_nonempty in F as [Hs Hm].
      apply IH. pose proof (slice_to_minus_shorter (n := length (Re.group m)) Hm Hs). lia.
    + destruct (endswith s `"V") eqn:V; [|now exists s].
      apply endswith_length in V. simpl in V.
      apply IH. rewrite slice_to_minus_length by lia. lia.
Qed.


Lemma vmr_get_base_wit_returns wit :
  Forall (fun suffix => suffix <> []) suffixes -> exists base, get_base_wit cfg wit = inr base.
Proof. intros H. apply vmr_strip_suffixes_returns; [assumption|lia]. Qed.

End VmrBase.

(** ** The monad *)

Lemma bind_inr {A B} (c : M A) (k : A -> M B) (b : B) :
  bind c k = inr b -> exists a, c = inr a /\ k a = inr b.
Proof. destruct c as [f|a]; simpl; [discriminate|]. eauto. Qed.

Tactic Notation "inv_bind" hyp(H) "as" ident(a) ident(Ha) :=
  apply bind_inr in H as (a & Ha & H).

Ltac inv_ret H := unfold ret in H; inversion H; subst; clear H.

Lemma index_inr {A} (l : list A) (i : nat) (a : A) :
  index l i = inr a <-> nth_error l i = Some a.
Proof.
  unfold index, not_none. destruct (nth_error l i); split; intros H; inversion H; reflexivity.
Qed.

Lemma comprehension_index {A} (d : A) (l : list A) (js : list nat) (r : list A) :
  comprehension (index l) js = inr r ->
  Forall (fun j => j < length l) js /\ r = map (fun j => nth j l d) js.
Proof.
  revert r; induction js as [|j js IH]; intros r; simpl.
  - intros H. inv_ret H. auto.
  - intros H. inv_bind H as a Ha. inv_bind H as bs Hbs. inv_ret H.
    apply index_inr in Ha. destruct (IH _ Hbs) as [IH1 IH2]. split.
    + constructor; [|assumption]. apply nth_error_Some. congruence.
    + subst. f_equal. symmetry. now apply nth_error_nth.
Qed.

Lemma comprehension_index_total {A} (l : list A) (js : list nat) :
  Forall (fun j => j < length l) js -> exists r, comprehension (index l) js = inr r.
Proof.
  induction 1 as [|j js Hj Hjs [r IH]]; simpl; [now eexists|].
  destruct (nth_error l j) as [a|] eqn:E.
  - apply index_inr in E. rewrite E. simpl. rewrite IH. simpl. now eexists.
  - apply nth_error_None in E. lia.
Qed.

(** A filter that looks its criterion up in a list. *)
Lemma comprehension_if_index {A} (d : A) (l : list A) (f : A -> bool) (js r : list nat) :
  comprehension_if (fun j => s <- index l j ;; ret (f s)) js = inr r ->
  Forall (fun j => j < length l) js /\ r = filter (fun j => f (nth j l d)) js.
Proof.
  revert r; induction js as [|j js IH]; intros r; simpl.
  - intros H. inv_ret H. auto.
  - intros H. inv_bind H as b Hb. inv_bind Hb as s Hs. inv_ret Hb.
    inv_bind H as r' Hr'. inv_ret H.
    apply index_inr in Hs. destruct (IH _ Hr') as [IH1 IH2]. split.
    + constructor; [|assumption]. apply nth_error_Some. congruence.
    + subst. now rewrite (nth_error_nth _ _ d Hs).
Qed.

Lemma comprehension_if_index_total {A} (l : list A) (f : A -> bool) (js : list nat) :
  Forall (fun j => j < length l) js ->
  exists r, comprehension_if (fun j => s <- index l j ;; ret (f s)) js = inr r.
Proof.
  induction 1 as [|j js Hj Hjs [r IH]]; simpl; [now eexists|].
  destruct (nth_error l j) as [a|] eqn:E.
  - apply index_inr in E. rewrite E. simpl. rewrite IH. simpl. now eexists.
  - apply nth_error_None in E. lia.
Qed.

Lemma Forall_range_lt (n m : nat) : Forall (fun j => j < m) (range n) <-> n <= m \/ n = 0.
Proof.
  unfold range. rewrite Forall_forall. split.
  - intros H. destruct n as [|n]; [now right|left].
    specialize (H n). rewrite in_seq in H. lia.
  - intros H j Hj. apply in_seq in Hj. lia.
Qed.

(** ** Sums *)

Lemma Q2R_qsum (l : list Q) : Q2R (qsum l) = rsum (map Q2R l).
Proof.
  induction l as [|x l IH]; simpl.
  - apply RMicromega.Q2R_0.
  - now rewrite Qreals.Q2R_plus, IH.
Qed.

Lemma Qlt_bool_iff (x y : Q) : Qlt_bool x y = true <-> (x < y)%Q.
Proof.
  unfold Qlt_bool. rewrite negb_true_iff. split.
  - intros H. apply Qnot_le_lt. intros L. apply Qle_bool_iff in L. congruence.
  - intros H. destruct (Qle_bool y x) eqn:E; [|reflexivity].
    apply Qle_bool_iff in E. apply Qle_not_lt in E. contradiction.
Qed.

Lemma Qlt_bool_negb (x y : Q) : Qlt_bool x y = negb (Qle_bool y x).
Proof. reflexivity. Qed.

Lemma nth_sum_axis1 (m : ndarray Q) (i : nat) :
  nth i (sum_axis1 m) 0%Q = qsum (nth i (data m) []).
Proof. unfold sum_axis1. change 0%Q with (qsum []) at 1. apply map_nth. Qed.


Lemma length_sum_axis0 (m : ndarray Q) : length (sum_axis0 m) = ncols m.
Proof. unfold sum_axis0, range. now rewrite length_map, length_seq. Qed.

Lemma length_sum_axis1 (m : ndarray Q) : length (sum_axis1 m) = nrows m.
Proof. unfold sum_axis1, nrows. now rewrite length_map. Qed.

(** ** [postprocess] *)

Section Postprocess.
Variable self : parser Q.

Lemma split_and_prune_inv mid :
  split_and_prune self = inr mid -> mid = (pruned self).
Proof.
  unfold split_and_prune. intros H.
  inv_bind H as suff Hsuff. inv_bind H as frag Hfrag.
  inv_bind H as sw Hsw. inv_bind H as fw Hfw.
  inv_bind H as kept Hkept. inv_bind H as rs Hrs. inv_ret H.
  apply (comprehension_if_index 0%Q) in Hsuff as [_ ->].
  apply (comprehension_if_index 0%Q) in Hfrag as [_ ->].
  apply (comprehension_index []) in Hsw as [_ ->].
  apply (comprehension_index []) in Hfw as [_ ->].
  apply (comprehension_if_index 0%Q) in Hkept as [_ ->].
  apply (comprehension_index []) in Hrs as [_ ->].
  reflexivity.
Qed.

Lemma sufficient_cols_lt : Forall (fun j => j < length (witnesses self)) (sufficient_cols self).
Proof.
  apply Forall_forall. intros j Hj. apply filter_In in Hj as [Hj _].
  apply in_seq in Hj. lia.
Qed.

Lemma fragmentary_cols_lt : Forall (fun j => j < length (witnesses self)) (fragmentary_cols self).
Proof.
  apply Forall_forall. intros j Hj. apply filter_In in Hj as [Hj _].
  apply in_seq in Hj. lia.
Qed.

Lemma preserved_rows_lt : Forall (fun j => j < length (readings self)) (preserved_rows self).
Proof.
  apply Forall_forall. intros j Hj. apply filter_In in Hj as [Hj _].
  apply in_seq in Hj. lia.
Qed.

(** On a matrix that has a column for every witness and a row for every
    reading, the split and the pruning return. *)
Lemma split_and_prune_total :
  length (witnesses self) <= ncols (collation_matrix self) ->
  length (readings self) <= nrows (collation_matrix self) ->
  split_and_prune self = inr (pruned self).
Proof.
  intros Hc Hr. unfold split_and_prune.
  destruct (@comprehension_if_index_total _ (sum_axis0 (collation_matrix self))
              (fun s => Qle_bool (threshold self) s) (range (length (witnesses self)))) as [suff Hsuff].
  { apply Forall_range_lt. rewrite length_sum_axis0. now left. }
  destruct (@comprehension_if_index_total _ (sum_axis0 (collation_matrix self))
              (fun s => Qlt_bool s (threshold self)) (range (length (witnesses self)))) as [frag Hfrag].
  { apply Forall_range_lt. rewrite length_sum_axis0. now left. }
  unfold threshold in *. rewrite Hsuff, Hfrag. cbn [bind].
  apply (comprehension_if_index 0%Q) in Hsuff as [_ ->].
  apply (comprehension_if_index 0%Q) in Hfrag as [_ ->].
  fold (threshold self). fold (sufficient_cols self). fold (fragmentary_cols self).
  destruct (comprehension_index_total _ sufficient_cols_lt) as [sw Hsw].
  destruct (comprehension_index_total _ fragmentary_cols_lt) as [fw Hfw].
  rewrite Hsw, Hfw. cbn [bind].
  apply (comprehension_index []) in Hsw as [_ ->].
  apply (comprehension_index []) in Hfw as [_ ->].
  fold (primary_split self). fold (fragmentary_split self).
  destruct (@comprehension_if_index_total _ (sum_axis1 (primary_split self))
              (fun s => Qlt_bool 0%Q s) (range (length (readings self)))) as [kept Hkept].
  { apply Forall_range_lt. rewrite length_sum_axis1. unfold primary_split, nrows, take_cols.
    cbn [data]. rewrite length_map. now left. }
  rewrite Hkept. cbn [bind].
  apply (comprehension_if_index 0%Q) in Hkept as [_ ->].
  fold (preserved_rows self).
  destruct (comprehension_index_total _ preserved_rows_lt) as [rs Hrs].
  rewrite Hrs. cbn [bind].
  apply (comprehension_index []) in Hrs as [_ ->].
  reflexivity.
Qed.
End Postprocess.

Lemma reweight_nrows idf (m : ndarray Q) m' :
  reweight idf m = inr m' -> nrows m' = nrows m.
Proof.
  unfold reweight. intros H. inv_bind H as t Ht. inv_ret H.
  unfold Sklearn.transform in Ht. inv_bind Ht as u Hu.
  destruct (length idf =? ncols (transpose 0%Q m)); [|discriminate].
  inv_ret Ht. unfold nrows, transpose, range. cbn [data ncols].
  now rewrite length_map, length_seq.
Qed.

Lemma apply_tfidf_inv (mid : parser Q) fin :
  apply_tfidf mid = inr fin ->
  min_extant fin = min_extant mid
  /\ readings fin = readings mid
  /\ witnesses fin = witnesses mid
  /\ fragmentary_witnesses fin = fragmentary_witnesses mid
  /\ nrows (collation_matrix fin) = nrows (collation_matrix mid)
  /\ nrows (fragmentary_collation_matrix fin) = nrows (fragmentary_collation_matrix mid).
Proof.
  unfold apply_tfidf.
  destruct (shape_not_empty (collation_matrix mid)).
  - intros H. inv_bind H as idf Hidf. inv_bind H as cm Hcm. inv_bind H as fm Hfm.
    inv_ret H. cbn. apply reweight_nrows in Hcm.
    destruct (shape_not_empty (fragmentary_collation_matrix mid)).
    + apply reweight_nrows in Hfm. auto 10.
    + inv_ret Hfm. unfold nrows, astype_real. cbn. rewrite length_map. auto 10.
  - intros H. inv_ret H. unfold as_real, nrows, astype_real. cbn.
    rewrite !length_map. auto 10.
Qed.

Lemma postprocess_inv cfg (self : parser Q) fin :
  postprocess cfg self = inr fin ->
  split_and_prune self = inr (pruned self)
  /\ min_extant fin = min_extant self
  /\ readings fin = readings (pruned self)
  /\ witnesses fin = witnesses (pruned self)
  /\ fragmentary_witnesses fin = fragmentary_witnesses (pruned self)
  /\ nrows (collation_matrix fin) = nrows (collation_matrix (pruned self))
  /\ nrows (fragmentary_collation_matrix fin)
     = nrows (fragmentary_collation_matrix (pruned self))
  /\ (use_tfidf cfg = false -> fin = as_real (pruned self)).
Proof.
  unfold postprocess. intros H. inv_bind H as mid Hmid.
  pose proof Hmid as Hmid'. apply split_and_prune_inv in Hmid' as ->. split; [assumption|].
  destruct (use_tfidf cfg).
  - apply apply_tfidf_inv in H as (? & ? & ? & ? & ? & ?).
    repeat split; try assumption. discriminate.
  - inv_ret H. unfold as_real, nrows, astype_real. cbn [min_extant readings witnesses
      fragmentary_witnesses collation_matrix fragmentary_collation_matrix data].
    rewrite !length_map. repeat split; reflexivity.
Qed.


Lemma ln_ratio_one : (ln (INR 1 / INR 1) + 1 - 1 = 0)%R.
Proof.
  replace (INR 1 / INR 1)%R with 1%R by (simpl; field).
  rewrite ln_1. ring.
Qed.

Lemma postprocess_common_readings :
  postprocess (tei_settings 1 true) common_readings = inr common_readings_reweighted.
Proof.
  unfold postprocess. rewrite split_and_prune_total by (cbn; lia).
  cbv - [Rplus Rminus Rmult Rdiv Rinv ln INR Q2R IZR]. reflexivity.
Qed.


(** ** The reweighting, entry by entry *)

Lemma map_nth_range {A} (l : list A) (d : A) :
  map (fun j => nth j l d) (range (length l)) = l.
Proof.
  unfold range. induction l as [|x l IH]; [reflexivity|].
  cbn [length seq map nth]. f_equal. rewrite <- seq_shift, map_map. exact IH.
Qed.

Lemma length_filter_map {A B} (g : A -> B) (p : B -> bool) (l : list A) :
  length (filter p (map g l)) = length (filter (fun a => p (g a)) l).
Proof.
  induction l as [|a l IH]; [reflexivity|]. cbn [map filter].
  destruct (p (g a)); cbn [length]; now rewrite IH.
Qed.

Lemma nth_column (rows : list (list Q)) (j t : nat) :
  nth t (map (fun row => nth j row 0%Q) rows) 0%Q = nth j (nth t rows []) 0%Q.
Proof.
  set (f := fun row : list Q => nth j row 0%Q).
  assert (E : f [] = 0%Q) by (unfold f; now destruct j).
  rewrite <- E at 1. apply (map_nth f).
Qed.

Lemma attested_range (row : list Q) :
  attested row
  = length (filter (fun j => negb (Qeq_bool (nth j row 0%Q) 0%Q)) (range (length row))).
Proof.
  unfold attested.
  rewrite <- (length_filter_map (fun j => nth j row 0%Q) (fun x => negb (Qeq_bool x 0%Q))).
  now rewrite map_nth_range.
Qed.

(** The document frequencies that [fit] counts on the transposed matrix are
    the numbers of witnesses attesting the readings. *)
Lemma document_frequency_transpose (m : ndarray Q) :
  well_shaped m ->
  Sklearn.document_frequency (transpose 0%Q m) = map attested (data m).
Proof.
  intros Hw. unfold Sklearn.document_frequency, transpose. cbn [ncols data]. unfold nrows.
  transitivity (map (fun t => attested (nth t (data m) [])) (range (length (data m)))).
  - apply map_ext_in. intros t Ht. apply in_seq in Ht.
    rewrite length_filter_map, attested_range.
    assert (L : length (nth t (data m) []) = ncols m).
    { unfold well_shaped in Hw. rewrite Forall_forall in Hw. apply Hw. apply nth_In. lia. }
    rewrite L. f_equal. apply filter_ext. intros j. now rewrite nth_column.
  - rewrite <- map_map, map_nth_range. reflexivity.
Qed.

Lemma rsum_scale (l : list Q) (w : R) :
  rsum (map (fun x => (Q2R x * w)%R) l) = (w * Q2R (qsum l))%R.
Proof.
  induction l as [|x l IH]; cbn [map rsum qsum fold_right].
  - rewrite RMicromega.Q2R_0. ring.
  - fold (rsum (map (fun x => (Q2R x * w)%R) l)). fold (qsum l).
    rewrite IH, Qreals.Q2R_plus. ring.
Qed.

Lemma nth_combine_scaled (doc : list Q) (idf : list R) (t : nat) :
  length doc = length idf -> t < length doc ->
  nth t (map (fun '(x, w) => (Q2R x * w)%R) (combine doc idf)) 0%R
  = (Q2R (nth t doc 0%Q) * nth t idf 0%R)%R.
Proof.
  revert idf t; induction doc as [|x doc IH]; intros [|w idf] [|t] Hl Ht;
    cbn [length] in *; try lia; cbn [combine map nth]; [reflexivity|].
  apply IH; lia.
Qed.

(** A reweighted row is the row, each entry times the weight of the
    reading. *)
Lemma reweight_rows (idf : list R) (m : ndarray Q) (m' : ndarray R) :
  well_shaped m ->
  reweight idf m = inr m' ->
  ncols m' = ncols m
  /\ length idf = nrows m
  /\ data m' = map (fun t => map (fun x => (Q2R x * nth t idf 0%R)%R) (nth t (data m) []))
                   (range (nrows m)).
Proof.
  intros Hw. unfold reweight, Sklearn.transform. intros H.
  inv_bind H as T HT. inv_ret H. inv_bind HT as u Hu.
  destruct (length idf =? ncols (transpose 0%Q m)) eqn:E; [|discriminate].
  apply Nat.eqb_eq in E. inv_ret HT.
  unfold transpose, nrows in *. cbn [ncols data] in *. unfold range.
  rewrite !length_map, length_seq.
  split; [reflexivity|]. split; [exact E|].
  apply map_ext_in. intros t Ht. apply in_seq in Ht. rewrite !map_map.
  assert (L : length (nth t (data m) []) = ncols m).
  { unfold well_shaped in Hw. rewrite Forall_forall in Hw. apply Hw. apply nth_In. lia. }
  transitivity (map (fun x => (Q2R x * nth t idf 0%R)%R)
                    (map (fun j => nth j (nth t (data m) []) 0%Q) (range (ncols m))));
    [|now rewrite <- L, map_nth_range].
  rewrite map_map. apply map_ext_in. intros j Hj.
  rewrite nth_combine_scaled.
  - now rewrite nth_column.
  - rewrite length_map. exact (eq_sym E).
  - rewrite length_map. lia.
Qed.

Lemma attested_le (row : list Q) : attested row <= length row.
Proof. unfold attested. apply filter_length_le. Qed.

Lemma attested_zero (row : list Q) : attested row = 0 -> (qsum row == 0)%Q.
Proof.
  unfold attested. induction row as [|x row IH]; cbn [filter qsum fold_right]; [reflexivity|].
  destruct (Qeq_bool x 0) eqn:E; cbn [negb length]; [|discriminate].
  intros H. apply Qeq_bool_iff in E. fold (qsum row). rewrite E, IH by assumption. ring.
Qed.

Lemma attested_positive (row : list Q) : (0 < qsum row)%Q -> 1 <= attested row.
Proof.
  intros H. destruct (attested row) eqn:E; [|lia].
  apply attested_zero in E. rewrite E in H. now apply Qlt_irrefl in H.
Qed.

(** The weight [ln (n / df)] of a reading that [df] of the [n] witnesses
    attest. *)
Lemma idf_weight_sign (n df : nat) :
  1 <= df <= n ->
  (0 <= ln (INR n / INR df))%R /\ ((0 < ln (INR n / INR df))%R <-> df < n).
Proof.
  intros [H1 H2].
  assert (Hdf : (0 < INR df)%R) by (apply lt_0_INR; lia).
  destruct (Nat.eq_dec df n) as [->|Hne].
  - replace (INR n / INR n)%R with 1%R by (field; lra).
    rewrite ln_1. split; [lra|]. split; [lra|lia].
  - assert (Hlt : (INR df < INR n)%R) by (apply lt_INR; lia).
    assert (H : (1 < INR n / INR df)%R).
    { apply (Rmult_lt_reg_r (INR df)); [assumption|].
      replace (INR n / INR df * INR df)%R with (INR n) by (field; lra). lra. }
    assert (L : (0 < ln (INR n / INR df))%R).
    { rewrite <- ln_1. apply ln_increasing; lra. }
    split; [lra|]. split; [lia|intros _; exact L].
Qed.

Lemma fit_transpose (m : ndarray Q) (idf : list R) :
  well_shaped m ->
  Sklearn.fit (transpose 0%Q m) = inr idf ->
  idf = map (fun row => (ln (INR (ncols m) / INR (attested row)) + 1)%R) (data m).
Proof.
  intros Hw. unfold Sklearn.fit. intros H. inv_bind H as u Hu. inv_ret H.
  rewrite document_frequency_transpose by assumption. rewrite map_map.
  unfold nrows, transpose, range. cbn [data]. now rewrite length_map, length_seq.
Qed.

(** ** The rows that [split_and_prune] keeps *)

Lemma split_and_prune_rows (self mid : parser Q) :
  split_and_prune self = inr mid ->
  Forall (fun i => i < nrows (collation_matrix self)) (preserved_rows self).
Proof.
  unfold split_and_prune. intros H.
  inv_bind H as suff Hsuff. inv_bind H as frag Hfrag.
  inv_bind H as sw Hsw. inv_bind H as fw Hfw.
  inv_bind H as kept Hkept. inv_bind H as rs Hrs. inv_ret H.
  apply (comprehension_if_index 0%Q) in Hsuff as [_ ->].
  apply (comprehension_if_index 0%Q) in Hkept as [Hlt _].
  fold (threshold self) in Hlt. fold (sufficient_cols self) in Hlt.
  fold (primary_split self) in Hlt.
  rewrite length_sum_axis1 in Hlt. unfold primary_split, nrows, take_cols in Hlt.
  cbn [data] in Hlt. rewrite length_map in Hlt.
  rewrite Forall_forall in *. intros i Hi. apply Hlt.
  apply filter_In in Hi. tauto.
Qed.

Lemma pruned_rows (self mid : parser Q) :
  split_and_prune self = inr mid ->
  well_shaped (collation_matrix (pruned self))
  /\ Forall (fun row => (0 < qsum row)%Q) (data (collation_matrix (pruned self))).
Proof.
  intros H. apply split_and_prune_rows in H. rewrite Forall_forall in H.
  unfold well_shaped, pruned, take_rows. cbn [collation_matrix data ncols].
  rewrite !Forall_map. split.
  - apply Forall_forall. intros i Hi. specialize (H i Hi).
    unfold primary_split, take_cols. cbn [data ncols].
    set (f := fun row : list Q => map (fun j => nth j row 0%Q) (sufficient_cols self)).
    rewrite (nth_indep _ [] (f [])) by (now rewrite length_map).
    rewrite map_nth. unfold f. now rewrite length_map.
  - apply Forall_forall. intros i Hi. apply filter_In in Hi as [_ Hi].
    apply Qlt_bool_iff in Hi. now rewrite nth_sum_axis1 in Hi.
Qed.

Lemma nth_map_lt {A B} (f : A -> B) (l : list A) (i : nat) (da : A) (db : B) :
  i < length l -> nth i (map f l) db = f (nth i l da).
Proof.
  intros H. rewrite (nth_indep _ db (f da)) by (now rewrite length_map). apply map_nth.
Qed.

Lemma nth_range (n i : nat) : i < n -> nth i (range n) 0 = i.
Proof. intros H. unfold range. now rewrite seq_nth. Qed.

(** The sum of a row after [apply_tfidf]. *)
Lemma apply_tfidf_rows (mid : parser Q) (fin : parser R) :
  well_shaped (collation_matrix mid) ->
  apply_tfidf mid = inr fin ->
  forall i, i < nrows (collation_matrix mid) ->
    let row := nth i (data (collation_matrix mid)) [] in
    rsum (nth i (data (collation_matrix fin)) [])
    = ((ln (INR (ncols (collation_matrix mid)) / INR (attested row)) + 1 - 1)
       * Q2R (qsum row))%R.
Proof.
  intros Hw H i Hi. cbn zeta. unfold apply_tfidf in H.
  destruct (shape_not_empty (collation_matrix mid)) eqn:E.
  - inv_bind H as idf Hidf. inv_bind H as cm Hcm. inv_bind H as fm Hfm. inv_ret H.
    cbn [collation_matrix].
    apply fit_transpose in Hidf; [|assumption]. subst idf.
    apply reweight_rows in Hcm as (_ & _ & ->); [|assumption].
    rewrite (nth_map_lt _ _ 0 []) by (unfold range; now rewrite length_seq).
    rewrite nth_range by assumption. rewrite rsum_scale. f_equal.
    rewrite map_map.
    rewrite (nth_map_lt _ _ [] 0%R) by assumption. reflexivity.
  - unfold shape_not_empty in E. apply negb_false_iff, andb_true_iff in E as [E _].
    apply Nat.eqb_eq in E. lia.
Qed.

(** ** Dictionaries *)

Section DictFacts.
Variable V : Type.
Implicit Types (d : dict V) (k : str) (v : V).

Lemma get_set_same d k v : Dict.get (Dict.set d k v) k = Some v.
Proof.
  induction d as [|[k' v'] d IH]; simpl.
  - now rewrite str_eqb_refl.
  - destruct (str_eqb k' k) eqn:E; simpl; rewrite E; [reflexivity|exact IH].
Qed.

Lemma get_set_other d k k' v : k <> k' -> Dict.get (Dict.set d k v) k' = Dict.get d k'.
Proof.
  intros Hne. induction d as [|[k0 v0] d IH]; simpl.
  - apply str_eqb_neq in Hne. now rewrite Hne.
  - destruct (str_eqb k0 k) eqn:E; simpl.
    + apply str_eqb_eq in E. subst k0. apply str_eqb_neq in Hne. now rewrite Hne.
    + now rewrite IH.
Qed.

Lemma mem_get d k : Dict.mem d k = true <-> exists v, Dict.get d k = Some v.
Proof.
  unfold Dict.mem. destruct (Dict.get d k); split; eauto; try discriminate.
  intros [? ?]. discriminate.
Qed.

Lemma mem_false_get d k : Dict.mem d k = false <-> Dict.get d k = None.
Proof. unfold Dict.mem. destruct (Dict.get d k); split; congruence. Qed.

Lemma mem_keys d k : Dict.mem d k = true <-> In k (Dict.keys d).
Proof.
  unfold Dict.mem, Dict.keys. induction d as [|[k' v'] d IH]; simpl.
  - split; [discriminate|tauto].
  - destruct (str_eqb k' k) eqn:E.
    + apply str_eqb_eq in E. split; auto.
    + apply str_eqb_neq in E. rewrite IH. split; [auto|intros [?|?]; [contradiction|assumption]].
Qed.

Lemma keys_set d k v :
  Dict.keys (Dict.set d k v) = if Dict.mem d k then Dict.keys d else Dict.keys d ++ [k].
Proof.
  unfold Dict.mem, Dict.keys. induction d as [|[k' v'] d IH]; simpl; [reflexivity|].
  destruct (str_eqb k' k) eqn:E; simpl; [reflexivity|].
  rewrite IH. now destruct (Dict.get d k).
Qed.

Lemma set_set d k v v' : Dict.set (Dict.set d k v) k v' = Dict.set d k v'.
Proof.
  induction d as [|[k0 v0] d IH]; simpl.
  - now rewrite str_eqb_refl.
  - destruct (str_eqb k0 k) eqn:E; simpl; rewrite E; [reflexivity|now rewrite IH].
Qed.

Lemma NoDup_keys_set d k v : NoDup (Dict.keys d) -> NoDup (Dict.keys (Dict.set d k v)).
Proof.
  intros H. rewrite keys_set. destruct (Dict.mem d k) eqn:E; [assumption|].
  apply NoDup_app; [assumption|repeat constructor; auto|].
  intros x Hx [<-|[]]. apply mem_keys in Hx. congruence.
Qed.

Lemma item_inr d k v : Dict.item d k = inr v <-> Dict.get d k = Some v.
Proof.
  unfold Dict.item, not_none. destruct (Dict.get d k); split; intros H; inversion H; reflexivity.
Qed.

Lemma get_In d k v : Dict.get d k = Some v -> In (k, v) d.
Proof.
  induction d as [|[k' v'] d IH]; simpl; [discriminate|].
  destruct (str_eqb k' k) eqn:E.
  - apply str_eqb_eq in E. intros H. inversion H; subst. now left.
  - intros H. right. now apply IH.
Qed.

Lemma In_get d k v : NoDup (Dict.keys d) -> In (k, v) d -> Dict.get d k = Some v.
Proof.
  induction d as [|[k' v'] d IH]; simpl; [tauto|].
  intros Hnd [H|H].
  - inversion H; subst. now rewrite str_eqb_refl.
  - inversion Hnd as [|? ? Hk' Hd]; subst.
    destruct (str_eqb k' k) eqn:E.
    + apply str_eqb_eq in E. subst k'. elim Hk'.
      change k with (fst (k, v)). now apply in_map.
    + now apply IH.
Qed.
End DictFacts.

Lemma accumulate_loop rc bwc :
  for_each rc
    (fun bwc '(label, c) =>
       let bwc := if Dict.mem bwc label then bwc else Dict.set bwc label 0%Q in
       x <- Dict.item bwc label ;;
       ret (Dict.set bwc label (x + c)%Q))
    bwc = inr (accumulate rc bwc).
Proof.
  unfold accumulate. revert bwc; induction rc as [|[label c] rc IH]; intros bwc; [reflexivity|].
  cbn [for_each fold_left]. unfold coefficient, Dict.mem, Dict.item.
  destruct (Dict.get bwc label) as [x|] eqn:E.
  - rewrite E. cbn [not_none bind ret]. apply IH.
  - rewrite get_set_same. cbn [not_none bind ret]. rewrite set_set. apply IH.
Qed.

Lemma add_support_eq rc rbw b :
  add_support rc rbw b = inr (Dict.set rbw b (accumulate rc (row_of rbw b))).
Proof.
  unfold add_support, row_of, Dict.mem, Dict.item.
  destruct (Dict.get rbw b) as [d|] eqn:E.
  - rewrite E. cbn [not_none bind ret]. rewrite accumulate_loop. reflexivity.
  - rewrite get_set_same. cbn [not_none bind ret]. rewrite accumulate_loop.
    cbn [bind ret]. now rewrite set_set.
Qed.

Lemma coefficient_set_same d l x : coefficient (Dict.set d l x) l = x.
Proof. unfold coefficient. now rewrite get_set_same. Qed.

Lemma coefficient_set_other d l l' x : l <> l' -> coefficient (Dict.set d l x) l' = coefficient d l'.
Proof. intros H. unfold coefficient. now rewrite get_set_other. Qed.

Lemma coefficient_cons l' c (rc : dict Q) l :
  coefficient ((l', c) :: rc) l = if str_eqb l' l then c else coefficient rc l.
Proof. unfold coefficient. cbn [Dict.get]. now destruct (str_eqb l' l). Qed.

Lemma coefficient_accumulate rc bwc l :
  NoDup (Dict.keys rc) ->
  (coefficient (accumulate rc bwc) l == coefficient bwc l + coefficient rc l)%Q.
Proof.
  unfold accumulate. revert bwc; induction rc as [|[l' c] rc IH]; intros bwc Hnd.
  - cbn. ring.
  - inversion Hnd as [|? ? Hl' Hrc]; subst. cbn [fold_left]. rewrite IH by assumption.
    rewrite coefficient_cons.
    destruct (str_eqb l' l) eqn:E.
    + apply str_eqb_eq in E. subst l'. rewrite coefficient_set_same.
      assert (coefficient rc l = 0%Q) as ->.
      { unfold coefficient. destruct (Dict.get rc l) eqn:G; [|reflexivity].
        elim Hl'. apply mem_keys, mem_get. eauto. }
      ring.
    + apply str_eqb_neq in E. rewrite coefficient_set_other by assumption.
      reflexivity.
Qed.

Lemma keys_accumulate_nil bwc : accumulate [] bwc = bwc.
Proof. reflexivity. Qed.

Lemma row_of_set_same rbw b d : row_of (Dict.set rbw b d) b = d.
Proof. unfold row_of. now rewrite get_set_same. Qed.

Lemma row_of_set_other rbw b b' d : b <> b' -> row_of (Dict.set rbw b d) b' = row_of rbw b'.
Proof. intros H. unfold row_of. now rewrite get_set_other. Qed.

Lemma NoDup_keys_accumulate rc bwc :
  NoDup (Dict.keys bwc) -> NoDup (Dict.keys (accumulate rc bwc)).
Proof.
  unfold accumulate. revert bwc; induction rc as [|[l c] rc IH]; intros bwc H; [assumption|].
  cbn [fold_left]. apply IH. now apply NoDup_keys_set.
Qed.

Lemma support_distribute rc bs rbw b l :
  NoDup (Dict.keys rc) ->
  (support (distribute rc bs rbw) b l
   == support rbw b l + inject_Z (Z.of_nat (count_occ str_eq_dec bs b)) * coefficient rc l)%Q.
Proof.
  intros Hnd. unfold distribute. revert rbw; induction bs as [|b' bs IH]; intros rbw.
  - cbn. ring.
  - cbn [fold_left]. rewrite IH. cbn [count_occ]. unfold support.
    destruct (str_eq_dec b' b) as [->|Hne].
    + rewrite row_of_set_same, coefficient_accumulate by assumption.
      rewrite Nat2Z.inj_succ, <- Z.add_1_r, inject_Z_plus. ring.
    + rewrite row_of_set_other by assumption. ring.
Qed.

Lemma mem_distribute rc bs rbw b :
  Dict.mem (distribute rc bs rbw) b = Dict.mem rbw b || existsb (str_eqb b) bs.
Proof.
  unfold distribute. revert rbw; induction bs as [|b' bs IH]; intros rbw.
  - cbn. now rewrite orb_false_r.
  - cbn [fold_left existsb]. rewrite IH. unfold Dict.mem at 1.
    destruct (str_eq_dec b' b) as [->|Hne].
    + rewrite get_set_same, str_eqb_refl. cbn. now rewrite orb_true_r.
    + rewrite get_set_other by assumption. fold (Dict.mem rbw b).
      assert (str_eqb b b' = false) as -> by (apply str_eqb_neq; congruence).
      reflexivity.
Qed.

Lemma row_of_distribute_nil bs rbw b :
  row_of (distribute [] bs rbw) b = row_of rbw b.
Proof.
  unfold distribute. revert rbw; induction bs as [|b' bs IH]; intros rbw; [reflexivity|].
  cbn [fold_left]. rewrite IH, keys_accumulate_nil.
  destruct (str_eq_dec b' b) as [->|Hne].
  - now rewrite row_of_set_same.
  - now rewrite row_of_set_other.
Qed.

Lemma NoDup_keys_distribute rc bs (rbw : dict (dict Q)) :
  NoDup (Dict.keys rbw) -> NoDup (Dict.keys (distribute rc bs rbw)).
Proof.
  unfold distribute. revert rbw; induction bs as [|b bs IH]; intros rbw H; [assumption|].
  cbn [fold_left]. apply IH. now apply NoDup_keys_set.
Qed.

(** The loop over the witnesses, when the normaliser is [normalise]. *)
Lemma distribute_loop (normalise : str -> M str) rc tokens rbw rbw' :
  for_each tokens
    (fun rbw wit => base_wit <- normalise wit ;; add_support rc rbw base_wit) rbw = inr rbw' ->
  exists bs, comprehension normalise tokens = inr bs /\ rbw' = distribute rc bs rbw.
Proof.
  revert rbw; induction tokens as [|t tokens IH]; intros rbw; cbn [for_each comprehension].
  - intros H. inv_ret H. now exists [].
  - intros H. inv_bind H as rbw1 H1. inv_bind H1 as b Hb. rewrite add_support_eq in H1.
    inv_ret H1. apply IH in H as (bs & Hbs & ->).
    exists (b :: bs). rewrite Hb, Hbs. split; reflexivity.
Qed.

Lemma distribute_loop_total (normalise : str -> M str) rc tokens bs rbw :
  comprehension normalise tokens = inr bs ->
  for_each tokens
    (fun rbw wit => base_wit <- normalise wit ;; add_support rc rbw base_wit) rbw
  = inr (distribute rc bs rbw).
Proof.
  revert bs rbw; induction tokens as [|t tokens IH]; intros bs rbw; cbn [for_each comprehension].
  - intros H. inv_ret H. reflexivity.
  - intros H. inv_bind H as b Hb. inv_bind H as bs' Hbs. inv_ret H.
    rewrite Hb. cbn [bind]. rewrite add_support_eq. cbn [bind].
    change (distribute rc (b :: bs') rbw)
      with (distribute rc bs' (Dict.set rbw b (accumulate rc (row_of rbw b)))).
    now apply IH.
Qed.

Lemma distribute_loop_break (normalise : str -> M str) (p : str -> bool) rc tokens rbw rbw' :
  for_each_break tokens
    (fun rbw wit =>
       if p wit
       then base_wit <- normalise wit ;;
            rbw <- add_support rc rbw base_wit ;;
            ret (rbw, false)
       else ret (rbw, true)) rbw = inr rbw' ->
  exists bs, comprehension normalise (take_while p tokens) = inr bs
             /\ rbw' = distribute rc bs rbw.
Proof.
  revert rbw; induction tokens as [|t tokens IH]; intros rbw;
    cbn [for_each_break comprehension take_while].
  - intros H. inv_ret H. now exists [].
  - destruct (p t).
    + intros H. inv_bind H as r Hr. destruct r as [rbw1 stop].
      inv_bind Hr as b Hb. rewrite add_support_eq in Hr. cbn [bind] in Hr. inv_ret Hr.
      apply IH in H as (bs & Hbs & ->).
      exists (b :: bs). cbn [comprehension]. rewrite Hb, Hbs. split; reflexivity.
    + cbn [bind ret]. intros H. inv_ret H. now exists [].
Qed.

Lemma resolve_ambiguous_eq rbn possible :
  resolve_ambiguous rbn possible
  = map (fun '(label, _) =>
           (label, (1 / inject_Z (Z.of_nat (length (resolved rbn possible))))%Q))
        (resolved rbn possible).
Proof. reflexivity. Qed.

Lemma resolved_fold rbn possible rc0 :
  NoDup (Dict.keys rc0) ->
  let rc := fold_left (fun rc p =>
               match Dict.get rbn p with
               | Some label => Dict.set rc label 1%Q
               | None => rc
               end) possible rc0 in
  NoDup (Dict.keys rc)
  /\ forall l, In l (Dict.keys rc)
               <-> In l (Dict.keys rc0) \/ exists p, In p possible /\ Dict.get rbn p = Some l.
Proof.
  revert rc0; induction possible as [|p possible IH]; intros rc0 Hnd; cbn [fold_left].
  - split; [assumption|]. intros l. split; [auto|]. intros [H|(p & [] & _)]. exact H.
  - destruct (Dict.get rbn p) as [label|] eqn:E.
    + destruct (IH (Dict.set rc0 label 1%Q)) as [H1 H2]; [now apply NoDup_keys_set|].
      split; [exact H1|]. intros l. rewrite H2, keys_set.
      split.
      * intros [H|(q & Hq & Hl)].
        -- destruct (Dict.mem rc0 label); [now left|].
           apply in_app_or in H as [H|[<-|[]]]; [now left|].
           right. exists p. split; [now left|assumption].
        -- right. exists q. split; [now right|assumption].
      * intros [H|(q & [<-|Hq] & Hl)].
        -- left. destruct (Dict.mem rc0 label); [assumption|]. apply in_or_app. now left.
        -- left. rewrite E in Hl. inversion Hl; subst.
           destruct (Dict.mem rc0 l) eqn:M; [now apply mem_keys|].
           apply in_or_app. right. now left.
        -- right. eauto.
    + destruct (IH rc0 Hnd) as [H1 H2]. split; [exact H1|].
      intros l. rewrite H2. split.
      * intros [H|(q & Hq & Hl)]; [now left|]. right. exists q. split; [now right|assumption].
      * intros [H|(q & [<-|Hq] & Hl)]; [now left|congruence|]. right. eauto.
Qed.

Lemma resolved_keys rbn possible :
  NoDup (Dict.keys (resolved rbn possible))
  /\ forall l, In l (Dict.keys (resolved rbn possible))
               <-> exists p, In p possible /\ Dict.get rbn p = Some l.
Proof.
  destruct (@resolved_fold rbn possible [] (NoDup_nil _)) as [H1 H2].
  split; [exact H1|]. intros l. fold (resolved rbn possible) in H2. rewrite H2.
  cbn. tauto.
Qed.

Lemma keys_resolve_ambiguous rbn possible :
  Dict.keys (resolve_ambiguous rbn possible) = Dict.keys (resolved rbn possible).
Proof.
  rewrite resolve_ambiguous_eq. unfold Dict.keys. rewrite map_map.
  apply map_ext. now intros [l v].
Qed.

Lemma length_resolve_ambiguous rbn possible :
  length (resolve_ambiguous rbn possible) = length (resolved rbn possible).
Proof. rewrite resolve_ambiguous_eq. apply length_map. Qed.

Lemma qsum_const (l : list Q) (q : Q) :
  Forall (fun v => v == q)%Q l -> (qsum l == inject_Z (Z.of_nat (length l)) * q)%Q.
Proof.
  induction 1 as [|v l Hv Hl IH]; cbn [qsum fold_right length].
  - ring.
  - fold (qsum l). rewrite IH, Hv, Nat2Z.inj_succ, <- Z.add_1_r, inject_Z_plus. ring.
Qed.

(** The shares of a resolved ambiguous reading. *)
Lemma resolve_ambiguous_shares rbn possible :
  let rc := resolve_ambiguous rbn possible in
  let k := length rc in
  NoDup (Dict.keys rc)
  /\ (forall l, In l (Dict.keys rc) <-> exists p, In p possible /\ Dict.get rbn p = Some l)
  /\ (forall l v, In (l, v) rc -> v = (1 / inject_Z (Z.of_nat k))%Q)
  /\ (0 < k -> (qsum (Dict.values rc) == 1)%Q).
Proof.
  cbn zeta. rewrite keys_resolve_ambiguous.
  destruct (resolved_keys rbn possible) as [H1 H2].
  split; [exact H1|]. split; [exact H2|].
  assert (V : forall l v, In (l, v) (resolve_ambiguous rbn possible) ->
              v = (1 / inject_Z (Z.of_nat (length (resolve_ambiguous rbn possible))))%Q).
  { intros l v H. rewrite length_resolve_ambiguous. rewrite resolve_ambiguous_eq in H.
    apply in_map_iff in H as ([l' v'] & E & _). now inversion E. }
  split; [exact V|]. intros Hk.
  rewrite (@qsum_const _ (1 / inject_Z (Z.of_nat (length (resolve_ambiguous rbn possible))))%Q).
  - unfold Dict.values. rewrite length_map. field.
    intros E. unfold Qeq in E. cbn in E. lia.
  - apply Forall_forall. intros v Hv. unfold Dict.values in Hv.
    apply in_map_iff in Hv as ([l v'] & <- & Hin). cbn. now rewrite (V _ _ Hin).
Qed.


Section TeiPasses.
Import tei_collation_parser.
Variables (tei_ns : str) (cfg : settings) (app_id : str) (readings_by_number : dict str).

Lemma tei_second_pass_inv rc rbw rdg rc' rbw' :
  contains (ignored_reading_types cfg) (rdg_type_of rdg) = false ->
  second_pass tei_ns cfg app_id readings_by_number (rc, rbw) rdg = inr (rc', rbw') ->
  exists skip,
    update_coefficients tei_ns cfg app_id readings_by_number rc rdg = inr (rc', skip)
    /\ if (skip : bool) then rbw' = rbw
       else exists bs, tei_supporters cfg rdg = inr bs /\ rbw' = distribute rc' bs rbw.
Proof.
  intros Hi. unfold second_pass. rewrite Hi. intros H.
  inv_bind H as r Hr. destruct r as [rc1 skip]. exists skip.
  destruct skip.
  - inv_ret H. auto.
  - unfold tei_supporters. destruct (attr rdg `"wit") as [wit|].
    + inv_bind H as rbw1 H1. inv_ret H. split; [assumption|].
      now apply distribute_loop in H1.
    + inv_ret H. split; [assumption|]. now exists [].
Qed.

Lemma tei_update_trivial rc rdg :
  contains (trivial_reading_types cfg) (rdg_type_of rdg) = true ->
  update_coefficients tei_ns cfg app_id readings_by_number rc rdg = inr (rc, false).
Proof. intros H. unfold update_coefficients. now rewrite H. Qed.

Lemma tei_first_pass_skips st rdg :
  contains (ignored_reading_types cfg) (rdg_type_of rdg)
  || contains (trivial_reading_types cfg) (rdg_type_of rdg) = true ->
  first_pass tei_ns cfg app_id st rdg = inr st.
Proof. intros H. unfold first_pass. destruct st. now rewrite H. Qed.

Lemma tei_update_ambiguous rc rdg rc' skip :
  contains (trivial_reading_types cfg) (rdg_type_of rdg) = false ->
  rdg_type_of rdg = `"ambiguous" ->
  update_coefficients tei_ns cfg app_id readings_by_number rc rdg = inr (rc', skip) ->
  exists rdg_n,
    attr rdg `"n" = Some rdg_n
    /\ rc' = resolve_ambiguous readings_by_number
               (split_on "/" (strip_chars rdg_n (ambiguous_rdg_prefix cfg)))
    /\ skip = (length rc' =? 0).
Proof.
  intros Ht Ha. unfold update_coefficients. rewrite Ht, Ha. cbn [negb].
  intros H. inv_bind H as r Hr. destruct r as [rdg_n rdg_label].
  unfold rdg_label_of in Hr. inv_bind Hr as n Hn. inv_ret Hr.
  rewrite str_eqb_refl in H. inv_ret H.
  exists rdg_n. destruct (attr rdg `"n"); [|discriminate]. inv_ret Hn. auto.
Qed.
End TeiPasses.

Section VmrPasses.
Import vmr_collation_parser.
Variables (cfg : settings) (segment_id : str) (readings_by_number : dict str).

Lemma vmr_second_pass_inv rc rbw rdg rc' rbw' :
  second_pass cfg segment_id readings_by_number (rc, rbw) rdg = inr (rc', rbw') ->
  exists rdg_label,
    rdg_label_of rdg = inr rdg_label
    /\ (contains (ignored_reading_types cfg) (rdg_type_of rdg_label) = true
        -> rc' = rc /\ rbw' = rbw)
    /\ (contains (ignored_reading_types cfg) (rdg_type_of rdg_label) = false ->
        exists skip,
          update_coefficients cfg segment_id readings_by_number rc
                              (rdg_type_of rdg_label) rdg = inr (rc', skip)
          /\ if (skip : bool) then rbw' = rbw
             else exists bs, vmr_supporters cfg rdg = inr bs
                             /\ rbw' = distribute rc' bs rbw).
Proof.
  unfold second_pass. intros H. inv_bind H as rdg_label Hl. exists rdg_label.
  split; [assumption|].
  destruct (contains (ignored_reading_types cfg) (rdg_type_of rdg_label)).
  - inv_ret H. split; [auto|discriminate].
  - split; [discriminate|]. intros _.
    inv_bind H as r Hr. destruct r as [rc1 skip]. exists skip.
    destruct skip.
    + inv_ret H. auto.
    + unfold vmr_supporters. destruct (attr rdg `"witnesses") as [ws|].
      * inv_bind H as processed Hp. inv_bind H as rbw1 H1. inv_ret H.
        split; [assumption|]. rewrite Hp. cbn [bind].
        now apply distribute_loop_break in H1.
      * inv_ret H. split; [assumption|]. now exists [].
Qed.

Lemma vmr_update_trivial rc rdg_type rdg :
  contains (trivial_reading_types cfg) rdg_type = true ->
  update_coefficients cfg segment_id readings_by_number rc rdg_type rdg = inr (rc, false).
Proof. intros H. unfold update_coefficients. now rewrite H. Qed.

Lemma vmr_first_pass_skips st rdg rdg_label :
  rdg_label_of rdg = inr rdg_label ->
  contains (ignored_reading_types cfg) (rdg_type_of rdg_label)
  || contains (trivial_reading_types cfg) (rdg_type_of rdg_label) = true ->
  first_pass cfg segment_id st rdg = inr st.
Proof. intros Hl H. unfold first_pass. destruct st. rewrite Hl. cbn [bind]. now rewrite H. Qed.

Lemma vmr_update_ambiguous rc rdg_type rdg rc' skip :
  contains (trivial_reading_types cfg) rdg_type = false ->
  rdg_type = `"ambiguous" ->
  update_coefficients cfg segment_id readings_by_number rc rdg_type rdg = inr (rc', skip) ->
  exists rdg_text,
    attr rdg `"reading" = Some rdg_text
    /\ rc' = resolve_ambiguous readings_by_number
               (split_on "/" (replace rdg_text `"_f" []))
    /\ skip = (length rc' =? 0).
Proof.
  intros Ht Ha. unfold update_coefficients. rewrite Ht. subst rdg_type. cbn [negb].
  intros H. inv_bind H as rdg_label Hl. inv_bind H as r Hr. destruct r as [rdg_text rdg_id].
  unfold rdg_id_of in Hr. inv_bind Hr as t Ht'. inv_ret Hr.
  rewrite str_eqb_refl in H. inv_ret H.
  exists rdg_text. destruct (attr rdg `"reading"); [|discriminate]. inv_ret Ht'. auto.
Qed.
End VmrPasses.


(** ** Loops *)

Lemma for_each_app {A S} (l1 l2 : list A) (body : S -> A -> M S) (s : S) :
  for_each (l1 ++ l2) body s = (s' <- for_each l1 body s ;; for_each l2 body s').
Proof.
  revert s; induction l1 as [|a l1 IH]; intros s; cbn [for_each app bind]; [reflexivity|].
  destruct (body s a) as [f|s1]; cbn [bind]; [reflexivity|apply IH].
Qed.

Lemma for_each_invariant {A S} (P : S -> Prop) (l : list A) (body : S -> A -> M S) (s0 s : S) :
  (forall s a s', In a l -> P s -> body s a = inr s' -> P s') ->
  P s0 -> for_each l body s0 = inr s -> P s.
Proof.
  revert s0; induction l as [|a l IH]; intros s0 Hstep H0; cbn [for_each].
  - intros H. inv_ret H. exact H0.
  - intros H. inv_bind H as s1 H1. apply (IH s1); [| |exact H].
    + intros s2 a' s' Hin. apply Hstep. now right.
    + apply (Hstep s0 a); [now left|assumption..].
Qed.

Lemma merge_unit_eq st out : merge_unit st out = inr (fold_left merge_step out st).
Proof.
  unfold merge_unit. revert st; induction out as [|[wit wc] out IH]; intros [ws rbw];
    [reflexivity|].
  cbn [for_each fold_left].
  match goal with |- context [if ?c then _ else _] => destruct c eqn:E end.
  - pose proof E as E'. apply mem_get in E' as [d Hd].
    unfold Dict.item. rewrite Hd. cbn [not_none bind ret]. rewrite IH.
    unfold merge_step at 3. unfold row_of.
    unfold dict in *. rewrite E, Hd. reflexivity.
  - pose proof E as E'. apply mem_false_get in E'.
    unfold Dict.item. rewrite get_set_same. cbn [not_none bind ret]. rewrite IH, set_set.
    unfold merge_step at 3. unfold row_of.
    unfold dict in *. rewrite E, E'. reflexivity.
Qed.

Lemma merge_step_ok st entry : witnesses_ok st -> witnesses_ok (merge_step st entry).
Proof.
  destruct st as [ws rbw], entry as [wit wc]. unfold witnesses_ok. cbn [fst snd merge_step].
  intros [<- Hnd]. rewrite keys_set. destruct (Dict.mem rbw wit) eqn:E; [auto|].
  split; [reflexivity|]. apply NoDup_app; [assumption|repeat constructor; auto|].
  intros x Hx [<-|[]]. apply mem_keys in Hx. congruence.
Qed.

Lemma merge_steps_ok out st : witnesses_ok st -> witnesses_ok (fold_left merge_step out st).
Proof.
  revert st; induction out as [|e out IH]; intros st H; [exact H|].
  cbn [fold_left]. apply IH. now apply merge_step_ok.
Qed.

Lemma merge_step_keeps st entry w : In w (fst st) -> In w (fst (merge_step st entry)).
Proof.
  destruct st as [ws rbw], entry as [wit wc]. cbn [fst merge_step].
  destruct (Dict.mem rbw wit); [auto|]. intros H. apply in_or_app. now left.
Qed.

Lemma merge_steps_keep out st w : In w (fst st) -> In w (fst (fold_left merge_step out st)).
Proof.
  revert st; induction out as [|e out IH]; intros st H; [exact H|].
  cbn [fold_left]. apply IH. now apply merge_step_keeps.
Qed.

Lemma merge_steps_add out st w :
  witnesses_ok st -> In w (Dict.keys out) -> In w (fst (fold_left merge_step out st)).
Proof.
  revert st; induction out as [|[wit wc] out IH]; intros st Hok; [intros []|].
  cbn [Dict.keys map fst fold_left]. intros [<-|H].
  - apply merge_steps_keep. destruct st as [ws rbw]. cbn [fst merge_step].
    destruct Hok as [Hk _]. cbn [fst snd] in Hk.
    destruct (Dict.mem rbw wit) eqn:E.
    + apply mem_keys in E. now rewrite Hk in E.
    + apply in_or_app. right. now left.
  - apply IH; [now apply merge_step_ok|exact H].
Qed.

Lemma overwrite_nil d : overwrite [] d = d.
Proof. reflexivity. Qed.

Lemma merge_steps_empty_row out st b :
  (forall d, In (b, d) out -> d = []) ->
  row_of (snd st) b = [] -> row_of (snd (fold_left merge_step out st)) b = [].
Proof.
  revert st; induction out as [|[wit wc] out IH]; intros [ws rbw] Hout Hrow; [exact Hrow|].
  cbn [fold_left]. apply IH.
  - intros d Hd. apply Hout. now right.
  - cbn [snd merge_step] in *. destruct (str_eq_dec wit b) as [->|Hne].
    + rewrite row_of_set_same, Hrow, (Hout wc) by now left. reflexivity.
    + now rewrite row_of_set_other.
Qed.

(** ** The matrix *)

Lemma enumerate_In {A} (l : list A) (i : nat) (a : A) :
  In (i, a) (enumerate l) <-> nth_error l i = Some a.
Proof.
  unfold enumerate.
  assert (G : forall start, In (i, a) (combine (seq start (length l)) l)
                            <-> start <= i /\ nth_error l (i - start) = Some a).
  { induction l as [|x l IH]; intros start; cbn [length seq combine].
    - split; [intros []|]. intros [_ H]. now destruct (i - start).
    - cbn [In]. rewrite IH. split.
      + intros [H|[H1 H2]].
        * inversion H; subst. rewrite Nat.sub_diag. auto.
        * split; [lia|]. replace (i - start) with (S (i - S start)) by lia. exact H2.
      + intros [H1 H2]. destruct (Nat.eq_dec start i) as [->|Hne].
        * rewrite Nat.sub_diag in H2. cbn in H2. left. congruence.
        * right. split; [lia|]. replace (i - start) with (S (i - S start)) in H2 by lia.
          exact H2. }
  rewrite G. rewrite Nat.sub_0_r. split; [tauto|]. intros H. split; [lia|exact H].
Qed.

Lemma index_map_get (l : list str) (x : str) (i : nat) :
  Dict.get (index_map l) x = Some i -> nth_error l i = Some x.
Proof.
  unfold index_map.
  assert (G : forall (es : list (nat * str)) d,
             (forall j y, In (j, y) es -> nth_error l j = Some y) ->
             (forall j y, Dict.get d y = Some j -> nth_error l j = Some y) ->
             Dict.get (fold_left (fun d '(i, x) => Dict.set d x i) es d) x = Some i ->
             nth_error l i = Some x).
  { induction es as [|[j y] es IH]; intros d Hes Hd; cbn [fold_left].
    - apply Hd.
    - apply IH.
      + intros j' y' H. apply Hes. now right.
      + intros j' y' H. destruct (str_eq_dec y y') as [->|Hne].
        * rewrite get_set_same in H. inversion H; subst. apply Hes. now left.
        * rewrite get_set_other in H by assumption. now apply Hd. }
  apply G.
  - intros j y H. now apply enumerate_In.
  - intros j y H. discriminate.
Qed.

Lemma list_set_length {A} (l : list A) i v : length (list_set l i v) = length l.
Proof.
  revert i; induction l as [|x l IH]; intros [|i]; cbn; auto.
Qed.

Lemma list_set_nth_other {A} (l : list A) i j v d :
  i <> j -> nth j (list_set l i v) d = nth j l d.
Proof.
  revert i j; induction l as [|x l IH]; intros [|i] [|j] H; cbn; auto; try lia.
Qed.

Lemma rows_set_length {A} (rows : list (list A)) i j v :
  length (rows_set rows i j v) = length rows.
Proof.
  revert i; induction rows as [|r rows IH]; intros [|i]; cbn; auto.
Qed.

Lemma rows_set_entry_other {A} (rows : list (list A)) i j v i0 j0 d :
  j <> j0 -> nth j0 (nth i0 (rows_set rows i j v) []) d = nth j0 (nth i0 rows []) d.
Proof.
  intros Hj. revert i i0; induction rows as [|r rows IH]; intros [|i] [|i0]; cbn; auto.
  now apply list_set_nth_other.
Qed.

Lemma setitem_inv {A} (m : ndarray A) i j v m' :
  setitem m i j v = inr m' ->
  ncols m' = ncols m /\ nrows m' = nrows m
  /\ forall d i0 j0, j <> j0 -> entry d m' i0 j0 = entry d m i0 j0.
Proof.
  unfold setitem. destruct ((i <? nrows m) && (j <? ncols m)); [|discriminate].
  intros H. inv_ret H. unfold nrows, entry. cbn [ncols data].
  split; [reflexivity|]. split; [apply rows_set_length|].
  intros d i0 j0 Hj. now apply rows_set_entry_other.
Qed.

Lemma zeros_entry r c i j : entry 0%Q (zeros r c) i j = 0%Q.
Proof.
  unfold entry, zeros. cbn [data].
  destruct (Nat.lt_ge_cases i r) as [H|H].
  - rewrite (nth_indep _ [] (repeat 0%Q c)) by now rewrite repeat_length.
    rewrite nth_repeat. apply nth_repeat.
  - rewrite (nth_overflow (repeat (repeat 0%Q c) r)) by now rewrite repeat_length.
    now destruct j.
Qed.

Lemma fill_matrix_shape readings witnesses rbw m :
  fill_matrix readings witnesses rbw = inr m ->
  ncols m = length witnesses /\ nrows m = length readings.
Proof.
  unfold fill_matrix.
  apply (for_each_invariant
           (fun m => ncols m = length witnesses /\ nrows m = length readings)).
  - intros m0 [wit wc] m1 _ Hm0 H. inv_bind H as j Hj. revert H.
    apply (for_each_invariant
             (fun m => ncols m = length witnesses /\ nrows m = length readings));
      [|exact Hm0].
    intros m2 [rdg c] m3 _ Hm2 H. inv_bind H as i Hi.
    apply setitem_inv in H as (H1 & H2 & _). destruct Hm2. split; congruence.
  - unfold zeros, nrows. cbn [ncols data]. now rewrite repeat_length.
Qed.

(** A witness whose map is empty has a column of zeros. *)
Lemma fill_matrix_zero_column readings witnesses rbw m b j :
  fill_matrix readings witnesses rbw = inr m ->
  (forall d, In (b, d) rbw -> d = []) ->
  nth_error witnesses j = Some b ->
  forall i, entry 0%Q m i j = 0%Q.
Proof.
  unfold fill_matrix. fold (index_map readings). fold (index_map witnesses).
  intros H Hb Hj. revert H.
  apply (for_each_invariant (fun m => forall i, entry 0%Q m i j = 0%Q)).
  - intros m0 [wit wc] m1 Hin Hm0 H. inv_bind H as j' Hj'.
    apply item_inr, index_map_get in Hj'.
    destruct (str_eq_dec wit b) as [->|Hne].
    + rewrite (Hb _ Hin) in H. inv_ret H. exact Hm0.
    + assert (j' <> j) by congruence. revert H.
      apply (for_each_invariant (fun m => forall i, entry 0%Q m i j = 0%Q)); [|exact Hm0].
      intros m2 [rdg c] m3 _ Hm2 H'. inv_bind H' as i Hi.
      apply setitem_inv in H' as (_ & _ & H'). intros i0. rewrite H' by assumption. apply Hm2.
  - intros i. apply zeros_entry.
Qed.

(** ** [collect] and [assemble] *)

Section Collect.
Variable parse_unit : list str -> element -> M (list str * dict (dict Q)).

Lemma collect_eq units : collect parse_unit units = for_each units (collect_step parse_unit) ([], [], []).
Proof.
  unfold collect. generalize (@nil str, @nil str, @nil (str * dict Q)).
  induction units as [|u units IH]; intros st; [reflexivity|].
  cbn [for_each]. destruct st as [[rs ws] rbw]. cbn [collect_step].
  destruct (parse_unit rs u) as [f|[rs' out]]; cbn [bind]; [reflexivity|].
  rewrite merge_unit_eq. cbn [bind].
  match goal with |- context [fold_left merge_step out ?x] =>
    destruct (fold_left merge_step out x) as [ws' rbw'] end.
  cbn [bind ret]. apply IH.
Qed.

Lemma collect_step_inv rs ws rbw u st' :
  (collect_step parse_unit) (rs, ws, rbw) u = inr st' ->
  exists rs' out, parse_unit rs u = inr (rs', out)
                  /\ st' = (rs', fst (fold_left merge_step out (ws, rbw)),
                            snd (fold_left merge_step out (ws, rbw))).
Proof.
  cbn [collect_step]. intros H. inv_bind H as r Hr. destruct r as [rs' out].
  exists rs', out. split; [assumption|].
  destruct (fold_left merge_step out (ws, rbw)). now inv_ret H.
Qed.

Lemma collect_ok units readings witnesses rbw :
  collect parse_unit units = inr (readings, witnesses, rbw) ->
  Dict.keys rbw = witnesses /\ NoDup witnesses.
Proof.
  rewrite collect_eq. intros H.
  apply (for_each_invariant (fun st => witnesses_ok (snd (fst st), snd st))) in H.
  - exact H.
  - intros [[rs ws] r] u st' _ Hok Hs. apply collect_step_inv in Hs as (rs' & out & _ & ->).
    cbn [fst snd] in *. rewrite <- surjective_pairing. now apply merge_steps_ok.
  - split; [reflexivity|constructor].
Qed.

(** A witness of one unit's map is a witness of the document. *)
Lemma collect_witness units readings witnesses rbw u b :
  collect parse_unit units = inr (readings, witnesses, rbw) ->
  In u units ->
  (forall rs rs' out, parse_unit rs u = inr (rs', out) -> In b (Dict.keys out)) ->
  In b witnesses.
Proof.
  rewrite collect_eq. intros H Hu Hb.
  apply in_split in Hu as (pre & post & ->).
  rewrite for_each_app in H. inv_bind H as st1 H1.
  cbn [for_each] in H. inv_bind H as st2 H2.
  assert (Ok1 : witnesses_ok (snd (fst st1), snd st1)).
  { revert H1.
    apply (for_each_invariant (fun st => witnesses_ok (snd (fst st), snd st))).
    - intros [[rs ws] r] u' st' _ Hok Hs.
      apply collect_step_inv in Hs as (rs' & out & _ & ->).
      cbn [fst snd] in *. rewrite <- surjective_pairing. now apply merge_steps_ok.
    - split; [reflexivity|constructor]. }
  destruct st1 as [[rs1 ws1] rbw1]. cbn [fst snd] in Ok1.
  apply collect_step_inv in H2 as (rs' & out & Hp & ->).
  apply Hb in Hp.
  change (In b (snd (fst (readings, witnesses, rbw)))). revert H.
  apply (for_each_invariant (fun st => In b (snd (fst st)))).
  - intros [[rs ws] r] u' st' _ Hin Hs.
    apply collect_step_inv in Hs as (rs'' & out' & _ & ->).
    cbn [fst snd] in *. now apply merge_steps_keep.
  - cbn [fst snd]. now apply merge_steps_add.
Qed.

(** A witness that no unit gives a coefficient has an empty map. *)
Lemma collect_empty_row units readings witnesses rbw b :
  collect parse_unit units = inr (readings, witnesses, rbw) ->
  (forall u rs rs' out d, In u units -> parse_unit rs u = inr (rs', out) ->
                          In (b, d) out -> d = []) ->
  row_of rbw b = [].
Proof.
  rewrite collect_eq. intros H Hb.
  change (row_of (snd (readings, witnesses, rbw)) b = []). revert H.
  apply (for_each_invariant (fun st => row_of (snd st) b = [])); [|reflexivity].
  intros [[rs ws] r] u st' Hu Hrow Hs.
  apply collect_step_inv in Hs as (rs' & out & Hp & ->).
  cbn [fst snd] in *.
  apply (merge_steps_empty_row out (ws, r)); [|exact Hrow].
  intros d. now apply (Hb u rs rs' out).
Qed.
End Collect.

Lemma assemble_inv cfg parse_unit units raw :
  assemble cfg parse_unit units = inr raw ->
  exists rbw,
    collect parse_unit units = inr (readings raw, witnesses raw, rbw)
    /\ fill_matrix (readings raw) (witnesses raw) rbw = inr (collation_matrix raw)
    /\ min_extant raw
       = int_of_float (min_extant_proportion cfg * inject_Z (Z.of_nat (length units)))%Q.
Proof.
  unfold assemble. intros H. inv_bind H as st Hst. destruct st as [[rs ws] rbw].
  inv_bind H as m Hm. inv_ret H. cbn. eauto.
Qed.


(** ** The threshold *)

Lemma int_of_float_floor (x : Q) : (0 <= x)%Q -> int_of_float x = Qfloor x.
Proof.
  destruct x as [n d]. unfold Qle, int_of_float, Qfloor. cbn. intros H.
  apply Z.quot_div_nonneg; lia.
Qed.




(** C9 *)
Lemma remove_ms_mss_suffixes_joins (wit_str : str) :
  vmr_collation_parser.remove_ms_mss_suffixes wit_str = join `" " (split wit_str).
Proof.
  unfold vmr_collation_parser.remove_ms_mss_suffixes.
  match goal with |- context [fold_left ?f _ _] => set (body := f) end.
  assert (G : forall sigla whole o,
             fst (fold_left body sigla (whole, o)) = whole).
  { induction sigla as [|x sigla IH]; intros whole o; [reflexivity|].
    cbn [fold_left]. unfold body at 2. cbv beta iota. apply IH. }
  specialize (G (split wit_str) (split wit_str) None).
  destruct (fold_left body (split wit_str) (split wit_str, None)) as [rs o].
  cbn [fst] in G. now subst.
Qed.


Lemma tei_settings_suffixes p t :
  Forall (fun suffix => suffix <> []) (subwitness_suffixes (tei_settings p t)).
Proof. repeat constructor; discriminate. Qed.


Lemma comprehension_length {A B} (f : A -> M B) (l : list A) (r : list B) :
  comprehension f l = inr r -> length r = length l.
Proof.
  revert r; induction l as [|a l IH]; intros r; cbn [comprehension].
  - intros H. now inv_ret H.
  - intros H. inv_bind H as b Hb. inv_bind H as bs Hbs. inv_ret H.
    cbn [length]. f_equal. now apply IH.
Qed.

Section TeiUnits.
Import tei_collation_parser.
Variables (tei_ns xml_ns : str) (cfg : settings).

Lemma tei_second_pass_ignored app_id rbn st rdg :
  contains (ignored_reading_types cfg) (rdg_type_of rdg) = true ->
  second_pass tei_ns cfg app_id rbn st rdg = inr st.
Proof. intros H. unfold second_pass. destruct st. now rewrite H. Qed.

Lemma tei_second_pass_all_ignored app_id rbn st rdgs :
  Forall (fun r => contains (ignored_reading_types cfg) (rdg_type_of r) = true) rdgs ->
  for_each rdgs (second_pass tei_ns cfg app_id rbn) st = inr st.
Proof.
  induction 1 as [|r rdgs Hr Hrs IH]; cbn [for_each]; [reflexivity|].
  rewrite tei_second_pass_ignored by assumption. exact IH.
Qed.

Lemma tei_second_pass_trivial_eq app_id rbn rc rbw rdg bs :
  contains (ignored_reading_types cfg) (rdg_type_of rdg) = false ->
  contains (trivial_reading_types cfg) (rdg_type_of rdg) = true ->
  tei_supporters cfg rdg = inr bs ->
  second_pass tei_ns cfg app_id rbn (rc, rbw) rdg = inr (rc, distribute rc bs rbw).
Proof.
  intros Hi Ht Hbs. unfold second_pass. rewrite Hi.
  rewrite tei_update_trivial by assumption. cbn [bind].
  unfold tei_supporters in Hbs. destruct (attr rdg `"wit") as [wit|].
  - cbn [or_empty] in Hbs. now rewrite distribute_loop_total with (bs := bs).
  - cbn in Hbs. inv_ret Hbs. reflexivity.
Qed.

Lemma tei_second_pass_keeps_keys app_id rbn rc rbw rdg rc' rbw' b :
  second_pass tei_ns cfg app_id rbn (rc, rbw) rdg = inr (rc', rbw') ->
  Dict.mem rbw b = true -> Dict.mem rbw' b = true.
Proof.
  intros H Hb. destruct (contains (ignored_reading_types cfg) (rdg_type_of rdg)) eqn:Hi.
  - rewrite tei_second_pass_ignored in H by assumption. now inv_ret H.
  - apply tei_second_pass_inv in H as (skip & _ & H); [|assumption].
    destruct skip; [now subst|]. destruct H as (bs & _ & ->).
    rewrite mem_distribute, Hb. reflexivity.
Qed.

Lemma tei_second_passes_keep_keys app_id rbn rdgs st st' b :
  for_each rdgs (second_pass tei_ns cfg app_id rbn) st = inr st' ->
  Dict.mem (snd st) b = true -> Dict.mem (snd st') b = true.
Proof.
  intros H Hb. revert H.
  apply (for_each_invariant (fun st => Dict.mem (snd st) b = true)); [|exact Hb].
  intros [rc rbw] r [rc' rbw'] _ Hm Hs. cbn [snd] in *.
  eapply tei_second_pass_keeps_keys; eassumption.
Qed.

Lemma parse_app_inv readings xml readings' rbw :
  parse_app tei_ns xml_ns cfg readings xml = inr (readings', rbw) ->
  exists rbn rc,
    for_each (xpath_children (qname tei_ns `"rdg") xml)
             (first_pass tei_ns cfg (app_id_of xml_ns xml)) ([], readings)
    = inr (rbn, readings')
    /\ for_each (xpath_children (qname tei_ns `"rdg") xml)
                (second_pass tei_ns cfg (app_id_of xml_ns xml) rbn) ([], [])
       = inr (rc, rbw).
Proof.
  unfold parse_app. intros H. inv_bind H as st1 H1. destruct st1 as [rbn rs].
  inv_bind H as st2 H2. destruct st2 as [rc out]. inv_ret H. eauto.
Qed.
End TeiUnits.

Lemma collect_parses parse_unit units st u :
  collect parse_unit units = inr st -> In u units ->
  exists rs rs' out, parse_unit rs u = inr (rs', out).
Proof.
  rewrite collect_eq. intros H Hu. apply in_split in Hu as (pre & post & ->).
  rewrite for_each_app in H. inv_bind H as st1 H1. cbn [for_each] in H.
  inv_bind H as st2 H2. destruct st1 as [[rs ws] rbw].
  apply collect_step_inv in H2 as (rs' & out & Hp & _). eauto.
Qed.


Lemma str_eqb_sym (a b : str) : str_eqb a b = str_eqb b a.
Proof.
  destruct (str_eqb a b) eqn:E.
  - apply str_eqb_eq in E. subst. now rewrite str_eqb_refl.
  - apply str_eqb_neq in E. symmetry. apply str_eqb_neq. congruence.
Qed.

Section TeiReadings.
Import tei_collation_parser.
Variables (tei_ns : str) (cfg : settings) (app_id : str).

Lemma rdg_label_of_eq rdg rdg_n :
  attr rdg `"n" = Some rdg_n ->
  rdg_label_of tei_ns app_id rdg = inr (rdg_n, tei_label tei_ns app_id rdg_n rdg).
Proof. intros H. unfold rdg_label_of. now rewrite H. Qed.

Lemma tei_first_pass_substantive rbn rs rdg rdg_n :
  substantive cfg rdg -> attr rdg `"n" = Some rdg_n ->
  first_pass tei_ns cfg app_id (rbn, rs) rdg
  = inr (Dict.set rbn rdg_n (tei_label tei_ns app_id rdg_n rdg),
         rs ++ [tei_label tei_ns app_id rdg_n rdg]).
Proof.
  intros (Hi & Ht & Ha) Hn. unfold first_pass. rewrite Hi, Ht. cbn [orb].
  rewrite (rdg_label_of_eq _ Hn). cbn [bind]. now rewrite Ha.
Qed.

Lemma tei_first_pass_ambiguous st rdg rdg_n :
  ambiguous cfg rdg -> attr rdg `"n" = Some rdg_n ->
  first_pass tei_ns cfg app_id st rdg = inr st.
Proof.
  intros (Hi & Ht & Ha) Hn. unfold first_pass. destruct st. rewrite Hi, Ht. cbn [orb].
  rewrite (rdg_label_of_eq _ Hn). cbn [bind]. now rewrite Ha.
Qed.

Lemma tei_second_pass_substantive rbn rc rbw rdg rdg_n bs :
  substantive cfg rdg -> attr rdg `"n" = Some rdg_n ->
  tei_supporters cfg rdg = inr bs ->
  second_pass tei_ns cfg app_id rbn (rc, rbw) rdg
  = inr ([(tei_label tei_ns app_id rdg_n rdg, 1%Q)],
         distribute [(tei_label tei_ns app_id rdg_n rdg, 1%Q)] bs rbw).
Proof.
  intros (Hi & Ht & Ha) Hn Hbs. unfold second_pass, update_coefficients.
  rewrite Hi, Ht. cbn [negb]. rewrite (rdg_label_of_eq _ Hn). cbn [bind]. rewrite Ha.
  cbn [bind ret]. unfold tei_supporters in Hbs. destruct (attr rdg `"wit") as [wit|].
  - cbn [or_empty] in Hbs. now rewrite distribute_loop_total with (bs := bs).
  - cbn in Hbs. inv_ret Hbs. reflexivity.
Qed.

Lemma tei_second_pass_ambiguous rbn rc rbw rdg rdg_n bs :
  ambiguous cfg rdg -> attr rdg `"n" = Some rdg_n ->
  tei_supporters cfg rdg = inr bs ->
  let rc' := resolve_ambiguous rbn
               (split_on "/" (strip_chars rdg_n (ambiguous_rdg_prefix cfg))) in
  second_pass tei_ns cfg app_id rbn (rc, rbw) rdg
  = inr (rc', if length rc' =? 0 then rbw else distribute rc' bs rbw).
Proof.
  intros (Hi & Ht & Ha) Hn Hbs. cbn zeta. unfold second_pass, update_coefficients.
  rewrite Hi, Ht. cbn [negb]. rewrite (rdg_label_of_eq _ Hn). cbn [bind].
  rewrite Ha, str_eqb_refl. cbn [bind ret].
  destruct (length _ =? 0); [reflexivity|].
  unfold tei_supporters in Hbs. destruct (attr rdg `"wit") as [wit|].
  - cbn [or_empty] in Hbs. now rewrite distribute_loop_total with (bs := bs).
  - cbn in Hbs. inv_ret Hbs. reflexivity.
Qed.
End TeiReadings.

Lemma tei_label_neq tei_ns app_id ra rb :
  tei_label tei_ns app_id `"a" ra <> tei_label tei_ns app_id `"b" rb.
Proof.
  unfold tei_label. cbn [join]. intros H. apply app_inv_head in H. discriminate.
Qed.

(** The matrix of the scenario, from the map of its unit. *)
Lemma scenario_matrix cfg parse_unit (u : element) (la lb wa wb ww : str) :
  la <> lb -> wa <> wb -> wa <> ww -> wb <> ww ->
  parse_unit [] u
  = inr ([la; lb],
         distribute [(la, 1 # 2); (lb, 1 # 2)]%Q [ww]
           (distribute [(lb, 1%Q)] [wb] (distribute [(la, 1%Q)] [wa] []))) ->
  assemble cfg parse_unit [u]
  = inr {| min_extant := int_of_float (min_extant_proportion cfg * inject_Z 1)%Q;
           readings := [la; lb];
           witnesses := [wa; wb; ww];
           collation_matrix :=
             {| ncols := 3; data := [[1; 0; 1 # 2]; [0; 1; 1 # 2]]%Q |};
           fragmentary_witnesses := [];
           fragmentary_collation_matrix := zeros 0 0 |}.
Proof.
  intros Hl Hab Haw Hbw Hp.
  apply str_eqb_neq in Hl, Hab, Haw, Hbw.
  pose proof Hl as Hl'. pose proof Hab as Hab'. pose proof Haw as Haw'. pose proof Hbw as Hbw'.
  rewrite str_eqb_sym in Hl', Hab', Haw', Hbw'.
  unfold assemble. rewrite collect_eq. cbn [for_each collect_step]. rewrite Hp. cbn [bind].
  unfold distribute, accumulate, row_of, coefficient, fill_matrix, enumerate, merge_step,
    overwrite, Dict.mem, Dict.item.
  repeat (cbn; unfold row_of, coefficient;
          rewrite ?str_eqb_refl, ?Hl, ?Hab, ?Haw, ?Hbw, ?Hl', ?Hab', ?Haw', ?Hbw').
  reflexivity.
Qed.

Lemma scenario_unit tei_ns xml_ns cfg app rdg_a rdg_b rdg_w n_w wit_a wit_b wit_w :
  xpath_children (qname tei_ns `"rdg") app = [rdg_a; rdg_b; rdg_w] ->
  substantive cfg rdg_a -> attr rdg_a `"n" = Some `"a" ->
  tei_supporters cfg rdg_a = inr [wit_a] ->
  substantive cfg rdg_b -> attr rdg_b `"n" = Some `"b" ->
  tei_supporters cfg rdg_b = inr [wit_b] ->
  ambiguous cfg rdg_w -> attr rdg_w `"n" = Some n_w ->
  split_on "/" (strip_chars n_w (ambiguous_rdg_prefix cfg)) = [`"a"; `"b"] ->
  tei_supporters cfg rdg_w = inr [wit_w] ->
  let app_id := tei_collation_parser.app_id_of xml_ns app in
  let la := tei_label tei_ns app_id `"a" rdg_a in
  let lb := tei_label tei_ns app_id `"b" rdg_b in
  tei_collation_parser.parse_app tei_ns xml_ns cfg [] app
  = inr ([la; lb],
         distribute [(la, 1 # 2); (lb, 1 # 2)]%Q [wit_w]
           (distribute [(lb, 1%Q)] [wit_b] (distribute [(la, 1%Q)] [wit_a] []))).
Proof.
  intros Hrdgs Sa Na Wa Sb Nb Wb Aw Nw Pw Ww app_id la lb.
  assert (Hl : str_eqb la lb = false) by (apply str_eqb_neq, tei_label_neq).
  unfold tei_collation_parser.parse_app. fold app_id. rewrite Hrdgs. cbn [for_each].
  rewrite (tei_first_pass_substantive _ _ _ _ Sa Na). cbn [bind].
  rewrite (tei_first_pass_substantive _ _ _ _ Sb Nb). cbn [bind].
  rewrite (tei_first_pass_ambiguous _ _ _ Aw Nw). cbn [bind ret].
  rewrite (tei_second_pass_substantive _ _ _ _ _ Sa Na Wa). cbn [bind].
  rewrite (tei_second_pass_substantive _ _ _ _ _ Sb Nb Wb). cbn [bind].
  rewrite (tei_second_pass_ambiguous _ _ _ _ _ Aw Nw Ww). cbn [bind ret]. rewrite Pw.
  fold la lb. clearbody la lb.
  assert (R : resolve_ambiguous (Dict.set (Dict.set [] `"a" la) `"b" lb) [`"a"; `"b"]
              = [(la, 1 # 2); (lb, 1 # 2)]%Q).
  { unfold resolve_ambiguous. cbn. rewrite Hl. reflexivity. }
  rewrite R. reflexivity.
Qed.


Lemma three_units_postprocess :
  postprocess (tei_settings (95 # 100) false) three_units_raw
  = inr (as_real (pruned three_units_raw)).
Proof. unfold postprocess. rewrite split_and_prune_total by (cbn; lia). reflexivity. Qed.

(** * The specification, claim by claim *)

(** ** C1: Trivial readings *)

(** C1, as amended.  In both parsers a candidate reading whose type is trivial
    and not ignored gets no row and no reading number: the first loop leaves
    its state as it is.  The second loop leaves [rdg_coefficients] as the
    reading before it left them, and credits every base witness of the trivial
    reading with exactly those carried coefficients: the support of a base
    witness for a label grows by the carried coefficient of the label, once
    for every time the witness occurs in the support list.  The support is
    thus collapsed into the previous substantive reading; what a trivial
    reading adds is nothing only where the carried coefficients are empty. *)
Theorem trivial_support_follows_carried_coefficients :
  (forall tei_ns cfg app_id readings_by_number rc rbw rdg rc' rbw',
      contains (ignored_reading_types cfg) (tei_collation_parser.rdg_type_of rdg) = false ->
      contains (trivial_reading_types cfg) (tei_collation_parser.rdg_type_of rdg) = true ->
      NoDup (Dict.keys rc) ->
      tei_collation_parser.second_pass tei_ns cfg app_id readings_by_number (rc, rbw) rdg
      = inr (rc', rbw') ->
      (forall st, tei_collation_parser.first_pass tei_ns cfg app_id st rdg = inr st)
      /\ rc' = rc
      /\ exists bs,
          tei_supporters cfg rdg = inr bs
          /\ forall b l,
              (support rbw' b l == support rbw b l + occurrences bs b * coefficient rc l)%Q)
  /\
  (forall cfg segment_id readings_by_number rc rbw rdg rdg_label rc' rbw',
      vmr_collation_parser.rdg_label_of rdg = inr rdg_label ->
      contains (ignored_reading_types cfg) (vmr_collation_parser.rdg_type_of rdg_label) = false ->
      contains (trivial_reading_types cfg) (vmr_collation_parser.rdg_type_of rdg_label) = true ->
      NoDup (Dict.keys rc) ->
      vmr_collation_parser.second_pass cfg segment_id readings_by_number (rc, rbw) rdg
      = inr (rc', rbw') ->
      (forall st, vmr_collation_parser.first_pass cfg segment_id st rdg = inr st)
      /\ rc' = rc
      /\ exists bs,
          vmr_supporters cfg rdg = inr bs
          /\ forall b l,
              (support rbw' b l == support rbw b l + occurrences bs b * coefficient rc l)%Q).
Proof.
  split.
  - intros tei_ns cfg app_id rbn rc rbw rdg rc' rbw' Hi Ht Hnd H.
    split; [intros st; apply tei_first_pass_skips; now rewrite Ht, orb_true_r|].
    apply tei_second_pass_inv in H as (skip & Hu & H); [|assumption].
    rewrite tei_update_trivial in Hu by assumption. inv_ret Hu.
    split; [reflexivity|]. destruct H as (bs & Hbs & ->).
    exists bs. split; [assumption|]. intros b l. now apply support_distribute.
  - intros cfg segment_id rbn rc rbw rdg rdg_label rc' rbw' Hl Hi Ht Hnd H.
    split; [intros st; eapply vmr_first_pass_skips; [eassumption|now rewrite Ht, orb_true_r]|].
    apply vmr_second_pass_inv in H as (l' & Hl' & _ & H).
    rewrite Hl in Hl'. inv_ret Hl'.
    destruct (H Hi) as (skip & Hu & H').
    rewrite vmr_update_trivial in Hu by assumption. inv_ret Hu.
    split; [reflexivity|]. destruct H' as (bs & Hbs & ->).
    exists bs. split; [assumption|]. intros b l. now apply support_distribute.
Qed.

(** The spelling [reading_a_spelt] after [reading_a], and a reading of the
    room's grammar whose label ends in [o]. *)
Lemma trivial_support_follows_carried_coefficients_witness :
  (contains (ignored_reading_types (tei_settings 1 false))
            (tei_collation_parser.rdg_type_of reading_a_spelt) = false
   /\ contains (trivial_reading_types (tei_settings 1 false))
               (tei_collation_parser.rdg_type_of reading_a_spelt) = true
   /\ NoDup (Dict.keys [(`"u1 a logos", 1%Q)])
   /\ tei_collation_parser.second_pass TEI_NS (tei_settings 1 false) `"u1"
        [(`"a", `"u1 a logos")]
        ([(`"u1 a logos", 1%Q)], [(`"A", [(`"u1 a logos", 1%Q)])]) reading_a_spelt
      = inr ([(`"u1 a logos", 1%Q)],
             [(`"A", [(`"u1 a logos", 1%Q)]); (`"D", [(`"u1 a logos", 1%Q)])])
   /\ (support [(`"A", [(`"u1 a logos", 1%Q)]); (`"D", [(`"u1 a logos", 1%Q)])]
               `"D" `"u1 a logos" == 0 + 1 * 1)%Q)
  /\
  (vmr_collation_parser.rdg_label_of vmr_spelt = inr `"bo"
   /\ contains (ignored_reading_types (tei_settings 1 false))
               (vmr_collation_parser.rdg_type_of `"bo") = false
   /\ contains (trivial_reading_types (tei_settings 1 false))
               (vmr_collation_parser.rdg_type_of `"bo") = true
   /\ NoDup (Dict.keys [(`"Acts.1.1/2-4 b logou", 1%Q)])
   /\ vmr_collation_parser.second_pass (tei_settings 1 false) `"Acts.1.1/2-4" vmr_numbers
        ([(`"Acts.1.1/2-4 b logou", 1%Q)], []) vmr_spelt
      = inr ([(`"Acts.1.1/2-4 b logou", 1%Q)],
             [(`"06", [(`"Acts.1.1/2-4 b logou", 1%Q)]);
              (`"07", [(`"Acts.1.1/2-4 b logou", 1%Q)])])
   /\ (support [(`"06", [(`"Acts.1.1/2-4 b logou", 1%Q)]);
                (`"07", [(`"Acts.1.1/2-4 b logou", 1%Q)])]
               `"07" `"Acts.1.1/2-4 b logou" == 0 + 1 * 1)%Q).
Proof.
  destruct trivial_support_follows_carried_coefficients as [T V].
  assert (Nd : forall l : str, NoDup (Dict.keys [(l, 1%Q)])).
  { intros l. cbn. constructor; [intros []|constructor]. }
  split.
  - assert (H1 : contains (ignored_reading_types (tei_settings 1 false))
                   (tei_collation_parser.rdg_type_of reading_a_spelt) = false)
      by reflexivity.
    assert (H2 : contains (trivial_reading_types (tei_settings 1 false))
                   (tei_collation_parser.rdg_type_of reading_a_spelt) = true)
      by reflexivity.
    assert (H4 : tei_collation_parser.second_pass TEI_NS (tei_settings 1 false) `"u1"
                   [(`"a", `"u1 a logos")]
                   ([(`"u1 a logos", 1%Q)], [(`"A", [(`"u1 a logos", 1%Q)])]) reading_a_spelt
                 = inr ([(`"u1 a logos", 1%Q)],
                        [(`"A", [(`"u1 a logos", 1%Q)]); (`"D", [(`"u1 a logos", 1%Q)])]))
      by (vm_compute; reflexivity).
    destruct (T _ _ _ _ _ _ _ _ _ H1 H2 (Nd _) H4) as (_ & _ & bs & Hbs & Hs).
    assert (E : bs = [`"D"]).
    { assert (inr bs = @inr failure (list str) [`"D"]) by (rewrite <- Hbs; reflexivity).
      congruence. }
    subst bs. split; [exact H1|]. split; [exact H2|]. split; [apply Nd|]. split; [exact H4|].
    exact (Hs `"D" `"u1 a logos").
  - assert (H0 : vmr_collation_parser.rdg_label_of vmr_spelt = inr `"bo") by reflexivity.
    assert (H1 : contains (ignored_reading_types (tei_settings 1 false))
                   (vmr_collation_parser.rdg_type_of `"bo") = false) by reflexivity.
    assert (H2 : contains (trivial_reading_types (tei_settings 1 false))
                   (vmr_collation_parser.rdg_type_of `"bo") = true) by reflexivity.
    assert (H4 : vmr_collation_parser.second_pass (tei_settings 1 false) `"Acts.1.1/2-4"
                   vmr_numbers ([(`"Acts.1.1/2-4 b logou", 1%Q)], []) vmr_spelt
                 = inr ([(`"Acts.1.1/2-4 b logou", 1%Q)],
                        [(`"06", [(`"Acts.1.1/2-4 b logou", 1%Q)]);
                         (`"07", [(`"Acts.1.1/2-4 b logou", 1%Q)])]))
      by (vm_compute; reflexivity).
    destruct (V _ _ _ _ _ _ _ _ _ H0 H1 H2 (Nd _) H4) as (_ & _ & bs & Hbs & Hs).
    assert (E : bs = [`"06"; `"07"]).
    { assert (inr bs = @inr failure (list str) [`"06"; `"07"])
        by (rewrite <- Hbs; vm_compute; reflexivity).
      congruence. }
    subst bs. split; [exact H0|]. split; [exact H1|]. split; [exact H2|]. split; [apply Nd|].
    split; [exact H4|]. exact (Hs `"07" `"Acts.1.1/2-4 b logou").
Defined.

(** Against C1 as it is written: in a unit whose substantive reading is
    attested by [A] and whose orthographic reading is attested by [D] alone,
    [parse_app] gives [D] coefficient 1 for the substantive reading. *)
Lemma trivial_support_is_credited :
  tei_collation_parser.parse_app TEI_NS XML_NS (tei_settings 1 false) [] collapsed_unit
  = inr ([`"u1 a logos"],
         [(`"A", [(`"u1 a logos", 1%Q)]); (`"D", [(`"u1 a logos", 1%Q)])])
  /\ contains (trivial_reading_types (tei_settings 1 false))
              (tei_collation_parser.rdg_type_of reading_a_spelt) = true
  /\ contains (ignored_reading_types (tei_settings 1 false))
              (tei_collation_parser.rdg_type_of reading_a_spelt) = false
  /\ attr reading_a_spelt `"wit" = Some `"#D"
  /\ attr reading_a `"wit" = Some `"#A".
Proof. repeat split; vm_compute; reflexivity. Qed.

(** ** C2: Ambiguous readings *)



(** ** C3: Witness normalisation *)




(** ** C4: The scenario of the ambiguous reading *)

(** C4.  A document of one unit with substantive readings [a] and [b], each
    attested by one witness, and an ambiguous reading that stands for [a] and
    [b], attested by a third witness, the three witnesses distinct: the raw
    collation matrix has 2 rows and 3 columns, and the column of the third
    witness holds 1/2 in both rows. *)
Theorem ambiguous_reading_scenario
    tei_ns xml_ns cfg xml app rdg_a rdg_b rdg_w n_w wit_a wit_b wit_w :
  xpath_anywhere (qname tei_ns `"app") xml = [app] ->
  xpath_children (qname tei_ns `"rdg") app = [rdg_a; rdg_b; rdg_w] ->
  substantive cfg rdg_a -> attr rdg_a `"n" = Some `"a" ->
  tei_supporters cfg rdg_a = inr [wit_a] ->
  substantive cfg rdg_b -> attr rdg_b `"n" = Some `"b" ->
  tei_supporters cfg rdg_b = inr [wit_b] ->
  ambiguous cfg rdg_w -> attr rdg_w `"n" = Some n_w ->
  split_on "/" (strip_chars n_w (ambiguous_rdg_prefix cfg)) = [`"a"; `"b"] ->
  tei_supporters cfg rdg_w = inr [wit_w] ->
  wit_a <> wit_b -> wit_a <> wit_w -> wit_b <> wit_w ->
  exists raw,
    tei_collation_parser.read_raw tei_ns xml_ns cfg xml = inr raw
    /\ shape (collation_matrix raw) = (2, 3)
    /\ witnesses raw = [wit_a; wit_b; wit_w]
    /\ data (collation_matrix raw) = [[1; 0; 1 # 2]; [0; 1; 1 # 2]]%Q
    /\ entry 0%Q (collation_matrix raw) 0 2 = (1 # 2)%Q
    /\ entry 0%Q (collation_matrix raw) 1 2 = (1 # 2)%Q.
Proof.
  intros Happs Hrdgs Sa Na Wa Sb Nb Wb Aw Nw Pw Ww Hab Haw Hbw.
  pose proof (@scenario_unit tei_ns xml_ns cfg app _ _ _ _ _ _ _
                Hrdgs Sa Na Wa Sb Nb Wb Aw Nw Pw Ww) as Hp.
  cbn zeta in Hp.
  eexists. split.
  - unfold tei_collation_parser.read_raw. rewrite Happs.
    eapply scenario_matrix; [apply tei_label_neq|exact Hab|exact Haw|exact Hbw|exact Hp].
  - cbn. repeat split; reflexivity.
Qed.

(** The scenario with the witnesses [A], [B] and [C1]. *)
Lemma ambiguous_reading_scenario_witness :
  tei_collation_parser.read_raw TEI_NS XML_NS (tei_settings 1 false) scenario_document
  = inr scenario_raw
  /\ shape (collation_matrix scenario_raw) = (2, 3)
  /\ entry 0%Q (collation_matrix scenario_raw) 0 2 = (1 # 2)%Q
  /\ entry 0%Q (collation_matrix scenario_raw) 1 2 = (1 # 2)%Q.
Proof.
  assert (Sa : substantive (tei_settings 1 false) reading_a) by (repeat split; reflexivity).
  assert (Sb : substantive (tei_settings 1 false) reading_b) by (repeat split; reflexivity).
  assert (Aw : ambiguous (tei_settings 1 false) reading_a_or_b)
    by (repeat split; reflexivity).
  assert (Hab : `"A" <> `"B") by discriminate.
  assert (Haw : `"A" <> `"C1") by discriminate.
  assert (Hbw : `"B" <> `"C1") by discriminate.
  destruct (@ambiguous_reading_scenario TEI_NS XML_NS (tei_settings 1 false)
              scenario_document scenario_unit_example reading_a reading_b reading_a_or_b
              `"Wa/b" `"A" `"B" `"C1"
              eq_refl eq_refl Sa eq_refl eq_refl Sb eq_refl eq_refl Aw eq_refl eq_refl
              eq_refl Hab Haw Hbw)
    as (raw & Hraw & Hshape & _ & _ & H0 & H1).
  assert (E : raw = scenario_raw).
  { assert (inr raw = @inr failure (parser Q) scenario_raw)
      by (rewrite <- Hraw; vm_compute; reflexivity).
    congruence. }
  subst raw. split; [exact Hraw|]. split; [exact Hshape|]. split; [exact H0|exact H1].
Defined.

(** ** C5: Row sums after [postprocess] *)

(** C5, as amended.  When [postprocess] returns, the primary matrix has the
    rows that the pruning kept, each of them with a positive sum before the
    reweighting and attested by at least one primary witness.  Without TF-IDF
    that sum is the row sum of the result.  With TF-IDF the row sum of the
    result is the sum before the reweighting times [ln (n / df)], for [n]
    primary witnesses of which [df] attest the reading: it is never negative,
    and it is positive exactly when some primary witness does not attest the
    reading.  A reading that every primary witness attests has row sum 0. *)
Theorem postprocess_row_sums cfg (self : parser Q) fin :
  postprocess cfg self = inr fin ->
  let primary := collation_matrix (pruned self) in
  nrows (collation_matrix fin) = nrows primary
  /\ forall i, i < nrows primary ->
       let row := nth i (data primary) [] in
       let row' := nth i (data (collation_matrix fin)) [] in
       (0 < qsum row)%Q
       /\ 1 <= attested row <= ncols primary
       /\ rsum row'
          = ((if use_tfidf cfg
              then ln (INR (ncols primary) / INR (attested row))
              else 1) * Q2R (qsum row))%R
       /\ (0 <= rsum row')%R
       /\ ((0 < rsum row')%R <-> use_tfidf cfg = false \/ attested row < ncols primary).
Proof.
  intros H. pose proof H as H'. cbn zeta.
  apply postprocess_inv in H' as (Hs & _ & _ & _ & _ & Hn & _ & Hplain).
  split; [exact Hn|]. intros i Hi.
  destruct (@pruned_rows self _ Hs) as [Hw Hpos].
  set (row := nth i (data (collation_matrix (pruned self))) []).
  assert (Hin : In row (data (collation_matrix (pruned self)))) by (now apply nth_In).
  assert (Hrow : (0 < qsum row)%Q) by (rewrite Forall_forall in Hpos; now apply Hpos).
  assert (Hlen : length row = ncols (collation_matrix (pruned self))).
  { unfold well_shaped in Hw. rewrite Forall_forall in Hw. now apply Hw. }
  assert (Hatt : 1 <= attested row <= ncols (collation_matrix (pruned self))).
  { split; [now apply attested_positive|]. rewrite <- Hlen. apply attested_le. }
  assert (HR : (0 < Q2R (qsum row))%R).
  { rewrite <- RMicromega.Q2R_0. now apply Qreals.Qlt_Rlt. }
  split; [exact Hrow|]. split; [exact Hatt|].
  destruct (use_tfidf cfg) eqn:Ht.
  - unfold postprocess in H. rewrite Hs, Ht in H. cbn [bind] in H.
    pose proof (@apply_tfidf_rows _ _ Hw H i Hi) as Hsum. cbn zeta in Hsum. fold row in Hsum.
    destruct (@idf_weight_sign _ _ Hatt) as [W0 W1].
    replace (ln (INR (ncols (collation_matrix (pruned self))) / INR (attested row)) + 1 - 1)%R
      with (ln (INR (ncols (collation_matrix (pruned self))) / INR (attested row)))
      in Hsum by ring.
    rewrite Hsum. split; [reflexivity|]. split.
    + apply Rmult_le_pos; lra.
    + rewrite <- W1. split.
      * intros Hp. right.
        destruct (Rle_lt_or_eq_dec _ _ W0) as [L|L]; [exact L|].
        rewrite <- L in Hp. lra.
      * intros [Hf|Hl]; [discriminate|]. now apply Rmult_lt_0_compat.
  - rewrite (Hplain eq_refl). unfold as_real, astype_real. cbn [collation_matrix data].
    rewrite (nth_map_lt (map Q2R) _ [] []) by assumption. fold row.
    rewrite <- Q2R_qsum. split; [ring|]. split; [lra|]. split; [now left|intros _; exact HR].
Qed.

(** Two readings and one primary witness that attests both, with TF-IDF. *)
Lemma postprocess_row_sums_witness :
  postprocess (tei_settings 1 true) common_readings = inr common_readings_reweighted
  /\ rsum (nth 0 (data (collation_matrix common_readings_reweighted)) [])
     = (ln (INR 1 / INR 1) * Q2R 1)%R.
Proof.
  destruct (@postprocess_row_sums (tei_settings 1 true) common_readings _
              postprocess_common_readings) as [_ H].
  destruct (H 0) as (_ & _ & Hsum & _); [cbn; lia|].
  split; [exact postprocess_common_readings|]. exact Hsum.
Defined.

(** Against C5 as it is written: with TF-IDF, a document whose only
    primary witness attests every reading comes out of [postprocess] with two
    rows in the primary matrix, both of sum 0. *)
Lemma postprocess_tfidf_zero_row :
  tei_collation_parser.read_raw TEI_NS XML_NS (tei_settings 1 true) common_document
  = inr common_readings
  /\ postprocess (tei_settings 1 true) common_readings = inr common_readings_reweighted
  /\ nrows (collation_matrix common_readings_reweighted) = 2
  /\ rsum (nth 0 (data (collation_matrix common_readings_reweighted)) []) = 0%R
  /\ ~ Forall (fun row => (0 < rsum row)%R)
              (data (collation_matrix common_readings_reweighted)).
Proof.
  assert (Z : rsum (nth 0 (data (collation_matrix common_readings_reweighted)) []) = 0%R).
  { cbn [common_readings_reweighted collation_matrix data nth rsum fold_right].
    unfold zero_weight. rewrite ln_ratio_one. ring. }
  split; [vm_compute; reflexivity|].
  split; [exact postprocess_common_readings|].
  split; [reflexivity|]. split; [exact Z|].
  intros F.
  pose proof (proj1 (Forall_forall _ _) F
                (nth 0 (data (collation_matrix common_readings_reweighted)) [])
                (or_introl eq_refl)) as Hrow.
  cbv beta in Hrow. rewrite Z in Hrow. exact (Rlt_irrefl 0 Hrow).
Qed.

(** ** C6: The rows of the two matrices *)

(** C6.  When [postprocess] returns, the primary and the fragmentary matrix
    have as many rows as there are reading labels left, and these labels are
    the labels of the raw matrix, in their order, whose row in the primary
    columns has a positive sum: the rows of zero sum are gone from the
    labels and from both matrices. *)
Theorem postprocess_same_rows cfg (self : parser Q) fin :
  postprocess cfg self = inr fin ->
  nrows (collation_matrix fin) = length (readings fin)
  /\ nrows (fragmentary_collation_matrix fin) = length (readings fin)
  /\ readings fin = map (fun i => nth i (readings self) []) (preserved_rows self)
  /\ split_and_prune self = inr (pruned self)
  /\ forall i, In i (preserved_rows self)
               <-> i < length (readings self)
                   /\ (0 < qsum (nth i (data (primary_split self)) []))%Q.
Proof.
  intros H. apply postprocess_inv in H as (Hs & _ & Hr & _ & _ & Hc & Hf & _).
  rewrite Hc, Hf, Hr. unfold pruned, nrows, take_rows.
  cbn [readings collation_matrix fragmentary_collation_matrix data].
  rewrite !length_map. repeat split; try reflexivity; try assumption.
  - apply filter_In in H as [H _]. apply in_seq in H. lia.
  - apply filter_In in H as [_ H]. apply Qlt_bool_iff in H. now rewrite nth_sum_axis1 in H.
  - intros [H1 H2]. apply filter_In. split; [apply in_seq; lia|].
    apply Qlt_bool_iff. now rewrite nth_sum_axis1.
Qed.

(** Two rows in both matrices of [common_readings]. *)
Lemma postprocess_same_rows_witness :
  postprocess (tei_settings 1 true) common_readings = inr common_readings_reweighted
  /\ nrows (collation_matrix common_readings_reweighted) = 2
  /\ nrows (fragmentary_collation_matrix common_readings_reweighted) = 2.
Proof.
  pose proof (postprocess_same_rows (tei_settings 1 true) common_readings
                postprocess_common_readings) as (H1 & H2 & _).
  split; [exact postprocess_common_readings|]. split; [exact H1|exact H2].
Defined.

(** ** C7: The partition of the witnesses *)



(** ** C8: A matrix without rows *)

(** C8.  With TF-IDF, on a document whose only reading is of a trivial type
    and has one witness: the raw matrix has no row and one column, the split
    keeps that column as the threshold is 0, the test [shape != (0,0)] lets
    the matrix through, and the transformer is fitted on an array without
    features, which raises ValueError; so do [postprocess] and [read]. *)
Theorem postprocess_fits_matrix_without_rows :
  tei_collation_parser.read_raw TEI_NS XML_NS (tei_settings (95 # 100) true)
                                trivial_only_document = inr rowless
  /\ split_and_prune rowless
     = inr {| min_extant := 0%Z; readings := []; witnesses := [`"A"];
              collation_matrix := zeros 0 1;
              fragmentary_witnesses := []; fragmentary_collation_matrix := zeros 0 0 |}
  /\ shape_not_empty (zeros 0 1) = true
  /\ postprocess (tei_settings (95 # 100) true) rowless = raise ValueError
  /\ tei_collation_parser.read TEI_NS XML_NS (tei_settings (95 # 100) true)
                               trivial_only_document = raise ValueError.
Proof.
  assert (R : tei_collation_parser.read_raw TEI_NS XML_NS (tei_settings (95 # 100) true)
                trivial_only_document = inr rowless) by (vm_compute; reflexivity).
  assert (S : split_and_prune rowless
     = inr {| min_extant := 0%Z; readings := []; witnesses := [`"A"];
              collation_matrix := zeros 0 1;
              fragmentary_witnesses := []; fragmentary_collation_matrix := zeros 0 0 |})
    by (vm_compute; reflexivity).
  assert (P : postprocess (tei_settings (95 # 100) true) rowless = raise ValueError).
  { unfold postprocess. rewrite S. reflexivity. }
  split; [exact R|]. split; [exact S|]. split; [reflexivity|]. split; [exact P|].
  unfold tei_collation_parser.read. rewrite R. exact P.
Qed.

(** ** C9: The suffixes [ms] and [mss] *)

(** C9.  [remove_ms_mss_suffixes] returns the tokens of its argument as they
    are, joined by single spaces, whatever they end in.  The token [vgms] does
    not match the manuscript pattern and ends in [ms], and it comes back as
    [vgms], not as [vg]. *)
Theorem remove_ms_mss_suffixes_keeps_vgms :
  (forall wit_str,
      vmr_collation_parser.remove_ms_mss_suffixes wit_str = join `" " (split wit_str))
  /\ Re.matches vmr_collation_parser.manuscript_witness_pattern `"vgms" = false
  /\ endswith `"vgms" `"ms" = true
  /\ vmr_collation_parser.remove_ms_mss_suffixes `"vgms" = `"vgms"
  /\ vmr_collation_parser.remove_ms_mss_suffixes `"vgms" <> `"vg".
Proof.
  split; [exact remove_ms_mss_suffixes_joins|].
  split; [vm_compute; reflexivity|]. split; [vm_compute; reflexivity|].
  split; [vm_compute; reflexivity|]. vm_compute. discriminate.
Qed.

(** ** C10: A trivial reading at the head of a unit *)

(** C10.  Let the first reading of a unit that is not ignored be of a trivial
    type, with a support list that is not empty.  Then the second loop has,
    after that reading, an entry with an empty coefficient map for each of
    its base witnesses; [parse_app] returns a map with an entry for each of
    them; each of them is a witness and a column of the raw collation matrix;
    and where no unit gives such a witness a coefficient, its column is zero
    in every row. *)
Theorem leading_trivial_reading_creates_columns
    tei_ns xml_ns cfg xml app ignored rdg rest wit raw :
  let apps := xpath_anywhere (qname tei_ns `"app") xml in
  In app apps ->
  xpath_children (qname tei_ns `"rdg") app = ignored ++ rdg :: rest ->
  Forall (fun r => contains (ignored_reading_types cfg)
                            (tei_collation_parser.rdg_type_of r) = true) ignored ->
  contains (ignored_reading_types cfg) (tei_collation_parser.rdg_type_of rdg) = false ->
  contains (trivial_reading_types cfg) (tei_collation_parser.rdg_type_of rdg) = true ->
  attr rdg `"wit" = Some wit ->
  split wit <> [] ->
  tei_collation_parser.read_raw tei_ns xml_ns cfg xml = inr raw ->
  exists bs,
    tei_supporters cfg rdg = inr bs
    /\ bs <> []
    /\ (forall rbn,
           for_each (ignored ++ [rdg])
             (tei_collation_parser.second_pass tei_ns cfg
                (tei_collation_parser.app_id_of xml_ns app) rbn) ([], [])
           = inr ([], distribute [] bs []))
    /\ (forall b, In b bs -> Dict.get (distribute [] bs []) b = Some [])
    /\ (forall readings readings' rbw,
           tei_collation_parser.parse_app tei_ns xml_ns cfg readings app
           = inr (readings', rbw) ->
           forall b, In b bs -> Dict.mem rbw b = true)
    /\ forall b, In b bs ->
         exists j,
           nth_error (witnesses raw) j = Some b
           /\ j < ncols (collation_matrix raw)
           /\ ((forall u rs rs' out d,
                   In u apps ->
                   tei_collation_parser.parse_app tei_ns xml_ns cfg rs u = inr (rs', out) ->
                   In (b, d) out -> d = []) ->
               forall i, entry 0%Q (collation_matrix raw) i j = 0%Q).
Proof.
  intros apps Happ Hrdgs Hign Hi Ht Hwit Htok Hraw.
  apply assemble_inv in Hraw as (rbw & Hc & Hm & _).
  fold apps in Hc.
  destruct (@collect_parses _ _ _ _ Hc Happ) as (rs0 & rs0' & out0 & Hp0).
  (* the supporters of the trivial reading *)
  assert (exists bs, tei_supporters cfg rdg = inr bs) as [bs Hbs].
  { apply parse_app_inv in Hp0 as (rbn & rc & _ & H2).
    rewrite Hrdgs, for_each_app in H2. inv_bind H2 as st1 H1.
    rewrite tei_second_pass_all_ignored in H1 by assumption. inv_ret H1.
    cbn [for_each] in H2. inv_bind H2 as st2 H3. destruct st2 as [rc2 rbw2].
    apply tei_second_pass_inv in H3 as (skip & Hu & H3); [|assumption].
    rewrite tei_update_trivial in Hu by assumption. inv_ret Hu.
    destruct H3 as (bs & Hbs & _). eauto. }
  exists bs. split; [exact Hbs|].
  assert (Hne : bs <> []).
  { unfold tei_supporters in Hbs. rewrite Hwit in Hbs. cbn [or_empty] in Hbs.
    apply comprehension_length in Hbs. destruct bs; [|discriminate].
    destruct (split wit); [contradiction|discriminate]. }
  split; [exact Hne|].
  assert (After : forall rbn,
             for_each (ignored ++ [rdg])
               (tei_collation_parser.second_pass tei_ns cfg
                  (tei_collation_parser.app_id_of xml_ns app) rbn) ([], [])
             = inr ([], distribute [] bs [])).
  { intros rbn. rewrite for_each_app, tei_second_pass_all_ignored by assumption.
    cbn [bind for_each]. rewrite tei_second_pass_trivial_eq with (bs := bs) by assumption.
    reflexivity. }
  split; [exact After|].
  assert (Mem : forall b, In b bs -> Dict.mem (distribute [] bs []) b = true).
  { intros b Hb. rewrite mem_distribute. apply orb_true_iff. right.
    apply existsb_exists. exists b. split; [assumption|apply str_eqb_refl]. }
  split.
  { intros b Hb. pose proof (Mem b Hb) as H. apply mem_get in H as [d Hd].
    pose proof (row_of_distribute_nil bs [] b) as R. unfold row_of at 1 in R.
    rewrite Hd in R. cbn in R. now subst. }
  assert (Parse : forall readings readings' rbw',
             tei_collation_parser.parse_app tei_ns xml_ns cfg readings app
             = inr (readings', rbw') ->
             forall b, In b bs -> Dict.mem rbw' b = true).
  { intros readings readings' rbw' Hp b Hb.
    apply parse_app_inv in Hp as (rbn & rc & _ & H2).
    replace (ignored ++ rdg :: rest) with ((ignored ++ [rdg]) ++ rest) in Hrdgs
      by (now rewrite <- app_assoc).
    rewrite Hrdgs, for_each_app, After in H2. cbn [bind] in H2.
    apply tei_second_passes_keep_keys with (b := b) in H2; [exact H2|].
    now apply Mem. }
  split; [exact Parse|].
  intros b Hb.
  assert (Hin : In b (witnesses raw)).
  { apply (@collect_witness _ _ _ _ _ _ _ Hc Happ). intros rs rs' out Hp.
    apply mem_keys. eapply Parse; eassumption. }
  apply In_nth_error in Hin as [j Hj]. exists j. split; [exact Hj|].
  pose proof Hm as Hshape. apply fill_matrix_shape in Hshape as [Hcols _].
  split; [rewrite Hcols; apply nth_error_Some; congruence|].
  intros Hempty. apply fill_matrix_zero_column with (b := b) (1 := Hm); [|exact Hj].
  pose proof Hc as Hok. apply collect_ok in Hok as [Hk Hnd].
  assert (Hrow : row_of rbw b = []) by (eapply collect_empty_row; eassumption).
  intros d Hd. apply In_get in Hd; [|now rewrite Hk].
  unfold row_of in Hrow. now rewrite Hd in Hrow.
Qed.

(** A unit whose spelling comes first: the witness [D] of the spelling has a
    column of zeros. *)
Lemma leading_trivial_reading_creates_columns_witness :
  In leading_trivial_unit (xpath_anywhere (qname TEI_NS `"app") leading_trivial_document)
  /\ xpath_children (qname TEI_NS `"rdg") leading_trivial_unit
     = [] ++ reading_a_spelt :: [reading_a]
  /\ contains (ignored_reading_types (tei_settings 1 false))
              (tei_collation_parser.rdg_type_of reading_a_spelt) = false
  /\ contains (trivial_reading_types (tei_settings 1 false))
              (tei_collation_parser.rdg_type_of reading_a_spelt) = true
  /\ attr reading_a_spelt `"wit" = Some `"#D"
  /\ split `"#D" <> []
  /\ tei_collation_parser.read_raw TEI_NS XML_NS (tei_settings 1 false)
       leading_trivial_document = inr leading_trivial_raw
  /\ exists j, nth_error (witnesses leading_trivial_raw) j = Some `"D"
               /\ forall i, entry 0%Q (collation_matrix leading_trivial_raw) i j = 0%Q.
Proof.
  assert (H1 : In leading_trivial_unit
                  (xpath_anywhere (qname TEI_NS `"app") leading_trivial_document))
    by (left; reflexivity).
  assert (H2 : xpath_children (qname TEI_NS `"rdg") leading_trivial_unit
               = [] ++ reading_a_spelt :: [reading_a]) by reflexivity.
  assert (H6 : split `"#D" <> []) by discriminate.
  assert (H7 : tei_collation_parser.read_raw TEI_NS XML_NS (tei_settings 1 false)
                 leading_trivial_document = inr leading_trivial_raw)
    by (vm_compute; reflexivity).
  destruct (@leading_trivial_reading_creates_columns TEI_NS XML_NS (tei_settings 1 false)
              leading_trivial_document leading_trivial_unit [] reading_a_spelt [reading_a]
              `"#D" leading_trivial_raw H1 H2 (Forall_nil _) eq_refl eq_refl eq_refl H6 H7)
    as (bs & Hbs & _ & _ & _ & _ & Hcol).
  assert (E : bs = [`"D"]).
  { assert (inr bs = @inr failure (list str) [`"D"]) by (rewrite <- Hbs; reflexivity).
    congruence. }
  subst bs. destruct (Hcol `"D" (or_introl eq_refl)) as (j & Hj & _ & Hzero).
  repeat (split; [first [assumption|reflexivity]|]).
  exists j. split; [exact Hj|]. apply Hzero.
  intros u rs rs' out d [<-|[]] Hp Hd.
  assert (E : out = [(`"D", []); (`"A", [(`"u1 a logos", 1%Q)])]).
  { assert (@inr failure _ (rs', out)
            = inr (rs ++ [`"u1 a logos"], [(`"D", []); (`"A", [(`"u1 a logos", 1%Q)])]))
      by (rewrite <- Hp; reflexivity).
    congruence. }
  subst out. destruct Hd as [Hd|[Hd|[]]]; inversion Hd. reflexivity.
Defined.

(** * Further properties of the code *)

(** ** Base sigla *)

Lemma find_none_Forall {A} (f : A -> bool) (l : list A) :
  find f l = None <-> Forall (fun x => f x = false) l.
Proof.
  induction l as [|x l IH]; cbn.
  - split; [constructor|reflexivity].
  - destruct (f x) eqn:E.
    + split; [discriminate|]. intros H. inversion H. congruence.
    + rewrite IH. split; [now constructor|]. intros H. now inversion H.
Qed.

Lemma turns_fixed l f0 s0 :
  Forall (fun suffix => endswith s0 suffix = false) l ->
  fold_left turn l (f0, s0) = (f0, s0).
Proof.
  induction 1 as [|x l Hx _ IH]; [reflexivity|].
  cbn [fold_left turn]. now rewrite Hx.
Qed.

Lemma turns_none_found l f0 s0 b :
  fold_left turn l (f0, s0) = (false, b) ->
  Forall (fun suffix => endswith s0 suffix = false) l.
Proof.
  revert f0 s0. induction l as [|x l IH]; intros f0 s0 H; [constructor|].
  cbn [fold_left turn] in H. destruct (endswith s0 x) eqn:E.
  - apply turns_not_found in H. destruct H. discriminate.
  - constructor; [exact E|]. eapply IH, H.
Qed.

Lemma turns_prefix l f0 s0 f b :
  fold_left turn l (f0, s0) = (f, b) -> exists t, s0 = b ++ t.
Proof.
  revert f0 s0. induction l as [|x l IH]; intros f0 s0 H.
  - inversion H. exists []. now rewrite app_nil_r.
  - cbn [fold_left turn] in H. destruct (endswith s0 x).
    + apply IH in H as [t Ht].
      destruct (slice_to_minus_prefix s0 (length x)) as [u Hu].
      exists (t ++ u). rewrite app_assoc, <- Ht. exact Hu.
    + eapply IH, H.
Qed.

Section VmrPrefix.
Import vmr_collation_parser.
Variable cfg : settings.

Lemma vmr_strip_suffixes_prefix fuel s r :
  strip_suffixes cfg fuel s = inr r -> exists t, s = r ++ t.
Proof.
  revert s. induction fuel as [|fuel IH]; intros s H; [discriminate|].
  cbn [strip_suffixes] in H. rewrite strip_each_suffix_fold in H.
  destruct (fold_left turn (subwitness_suffixes cfg) (false, s)) as [f b] eqn:E.
  destruct f.
  - apply IH in H as [t Ht]. apply turns_prefix in E as [u Hu].
    exists (t ++ u). now rewrite app_assoc, <- Ht.
  - apply turns_not_found in E as [_ ->].
    destruct (Re.search fehler_pattern s).
    + apply IH in H as [t Ht].
      destruct (slice_to_minus_prefix s (length (Re.group l))) as [u Hu].
      exists (t ++ u). now rewrite app_assoc, <- Ht.
    + destruct (endswith s `"V").
      * apply IH in H as [t Ht].
        destruct (slice_to_minus_prefix s 1) as [u Hu].
        exists (t ++ u). now rewrite app_assoc, <- Ht.
      * inversion H. exists []. now rewrite app_nil_r.
Qed.

End VmrPrefix.

(** ** The two matrices of [postprocess] *)

Lemma pruned_lengths (self : parser Q) :
  nrows (collation_matrix (pruned self)) = length (readings (pruned self))
  /\ nrows (fragmentary_collation_matrix (pruned self)) = length (readings (pruned self))
  /\ ncols (collation_matrix (pruned self)) = length (witnesses (pruned self))
  /\ ncols (fragmentary_collation_matrix (pruned self))
     = length (fragmentary_witnesses (pruned self)).
Proof.
  unfold pruned, nrows, take_rows, primary_split, fragmentary_split, take_cols.
  cbn [collation_matrix fragmentary_collation_matrix readings witnesses
       fragmentary_witnesses data ncols].
  now rewrite !length_map.
Qed.

Lemma take_rows_cols_well_shaped (m : ndarray Q) (cols rows : list nat) :
  Forall (fun i => i < nrows m) rows ->
  well_shaped (take_rows (take_cols 0%Q m cols) rows).
Proof.
  intros H. unfold well_shaped, take_rows, take_cols. cbn [data ncols].
  rewrite Forall_map. rewrite Forall_forall in *. intros i Hi. specialize (H i Hi).
  set (f := fun row : list Q => map (fun j => nth j row 0%Q) cols).
  rewrite (nth_indep _ [] (f [])) by (now rewrite length_map).
  rewrite map_nth. unfold f. now rewrite length_map.
Qed.

Lemma pruned_well_shaped (self mid : parser Q) :
  split_and_prune self = inr mid ->
  well_shaped (collation_matrix (pruned self))
  /\ well_shaped (fragmentary_collation_matrix (pruned self)).
Proof.
  intros H. apply split_and_prune_rows in H.
  split; apply take_rows_cols_well_shaped; exact H.
Qed.

Lemma astype_real_well_shaped (m : ndarray Q) :
  well_shaped m -> well_shaped (astype_real m).
Proof.
  unfold well_shaped, astype_real. cbn [data ncols]. rewrite Forall_map.
  apply Forall_impl. intros row. now rewrite length_map.
Qed.

Lemma reweight_well_shaped idf (m : ndarray Q) (m' : ndarray R) :
  well_shaped m -> reweight idf m = inr m' -> well_shaped m' /\ ncols m' = ncols m.
Proof.
  intros Hw H. destruct (reweight_rows _ Hw H) as (Hc & _ & Hd). split; [|exact Hc].
  unfold well_shaped. rewrite Hd, Hc, Forall_map. apply Forall_forall. intros t Ht.
  rewrite length_map. unfold well_shaped in Hw. rewrite Forall_forall in Hw.
  apply Hw, nth_In. apply in_seq in Ht. unfold nrows in Ht. lia.
Qed.

Lemma apply_tfidf_shapes (mid : parser Q) (fin : parser R) :
  well_shaped (collation_matrix mid) ->
  well_shaped (fragmentary_collation_matrix mid) ->
  apply_tfidf mid = inr fin ->
  well_shaped (collation_matrix fin)
  /\ well_shaped (fragmentary_collation_matrix fin)
  /\ ncols (collation_matrix fin) = ncols (collation_matrix mid)
  /\ ncols (fragmentary_collation_matrix fin) = ncols (fragmentary_collation_matrix mid).
Proof.
  intros Hp Hf. unfold apply_tfidf.
  destruct (shape_not_empty (collation_matrix mid)).
  - intros H. inv_bind H as idf Hidf. inv_bind H as cm Hcm. inv_bind H as fm Hfm.
    inv_ret H. cbn [collation_matrix fragmentary_collation_matrix].
    destruct (reweight_well_shaped _ Hp Hcm) as [W1 C1].
    destruct (shape_not_empty (fragmentary_collation_matrix mid)).
    + destruct (reweight_well_shaped _ Hf Hfm) as [W2 C2]. auto.
    + inv_ret Hfm. split; [exact W1|]. split; [now apply astype_real_well_shaped|].
      split; [exact C1|reflexivity].
  - intros H. inv_ret H. cbn [as_real collation_matrix fragmentary_collation_matrix].
    split; [now apply astype_real_well_shaped|].
    split; [now apply astype_real_well_shaped|]. split; reflexivity.
Qed.

Lemma filter_complement_Permutation {A} (f : A -> bool) (l : list A) :
  Permutation (filter f l ++ filter (fun x => negb (f x)) l) l.
Proof.
  induction l as [|x l IH]; [constructor|]. cbn. destruct (f x); cbn.
  - now constructor.
  - apply Permutation_sym, Permutation_cons_app, Permutation_sym, IH.
Qed.

(** ** When the reweighting returns *)

Lemma shape_not_empty_rows {A} (m : ndarray A) :
  0 < nrows m -> shape_not_empty m = true.
Proof.
  intros H. unfold shape_not_empty. destruct (nrows m =? 0) eqn:E; [|reflexivity].
  apply Nat.eqb_eq in E. lia.
Qed.

Lemma fit_returns (X : ndarray Q) :
  0 < nrows X -> 0 < ncols X -> exists idf, Sklearn.fit X = inr idf /\ length idf = ncols X.
Proof.
  intros Hr Hc. unfold Sklearn.fit, Sklearn.check_array.
  destruct (nrows X =? 0) eqn:E1; [apply Nat.eqb_eq in E1; lia|].
  destruct (ncols X =? 0) eqn:E2; [apply Nat.eqb_eq in E2; lia|].
  cbn [orb bind ret]. eexists. split; [reflexivity|].
  unfold Sklearn.document_frequency, range. now rewrite !length_map, length_seq.
Qed.

Lemma fit_raises (X : ndarray Q) :
  nrows X = 0 \/ ncols X = 0 -> Sklearn.fit X = raise ValueError.
Proof.
  intros H. unfold Sklearn.fit, Sklearn.check_array.
  destruct H as [-> | ->]; cbn [Nat.eqb orb bind]; [reflexivity|].
  now rewrite orb_true_r.
Qed.

Lemma transpose_shape (m : ndarray Q) :
  nrows (transpose 0%Q m) = ncols m /\ ncols (transpose 0%Q m) = nrows m.
Proof.
  unfold transpose, nrows, range. cbn [data ncols]. now rewrite length_map, length_seq.
Qed.

Lemma reweight_returns idf (m : ndarray Q) :
  0 < nrows m -> 0 < ncols m -> length idf = nrows m ->
  exists m', reweight idf m = inr m'.
Proof.
  intros Hr Hc Hl. unfold reweight, Sklearn.transform, Sklearn.check_array.
  destruct (transpose_shape m) as [-> ->].
  destruct (ncols m =? 0) eqn:E1; [apply Nat.eqb_eq in E1; lia|].
  destruct (nrows m =? 0) eqn:E2; [apply Nat.eqb_eq in E2; lia|].
  cbn [orb bind ret]. rewrite Hl, Nat.eqb_refl. cbn [bind]. eexists. reflexivity.
Qed.

Lemma reweight_raises idf (m : ndarray Q) :
  ncols m = 0 -> reweight idf m = raise ValueError.
Proof.
  intros Hc. unfold reweight, Sklearn.transform, Sklearn.check_array.
  destruct (transpose_shape m) as [-> _]. rewrite Hc. reflexivity.
Qed.

Lemma filter_none {A} (f : A -> bool) (l : list A) :
  (forall x, f x = false) -> filter f l = [].
Proof. intros H. induction l as [|x l IH]; [reflexivity|]. cbn. now rewrite H. Qed.

Lemma preserved_rows_need_columns (self : parser Q) :
  sufficient_cols self = [] -> preserved_rows self = [].
Proof.
  intros H. unfold preserved_rows. apply filter_none. intros i.
  rewrite nth_sum_axis1. unfold primary_split, take_cols. rewrite H. cbn [data map].
  destruct (Nat.lt_ge_cases i (length (data (collation_matrix self)))) as [L|L].
  - rewrite (nth_map_lt _ _ [] []) by exact L. reflexivity.
  - rewrite nth_overflow by (now rewrite length_map). reflexivity.
Qed.

(** ** The reweighted entries *)

Lemma entry_reweighted (idf : list R) (m : ndarray Q) (m' : ndarray R) (i j : nat) :
  well_shaped m -> reweight idf m = inr m' ->
  i < nrows m -> j < ncols m ->
  entry 0%R m' i j = (Q2R (entry 0%Q m i j) * nth i idf 0%R)%R.
Proof.
  intros Hw H Hi Hj. destruct (reweight_rows _ Hw H) as (_ & _ & Hd).
  unfold entry. rewrite Hd.
  rewrite (nth_map_lt _ _ 0 []) by (unfold range; now rewrite length_seq).
  rewrite nth_range by exact Hi.
  rewrite (nth_map_lt _ _ 0%Q 0%R); [reflexivity|].
  unfold well_shaped in Hw. rewrite Forall_forall in Hw.
  rewrite (Hw (nth i (data m) [])); [exact Hj|]. now apply nth_In.
Qed.

Lemma entry_astype_real (m : ndarray Q) (i j : nat) :
  entry 0%R (astype_real m) i j = Q2R (entry 0%Q m i j).
Proof.
  unfold entry, astype_real. cbn [data].
  change (@nil R) with (map Q2R []). rewrite map_nth.
  replace 0%R with (Q2R 0) by (unfold Q2R; cbn; lra). now rewrite map_nth.
Qed.

(** ** Coefficient maps *)

Lemma In_set {V} (d : dict V) k v l x :
  In (l, x) (Dict.set d k v) -> (l = k /\ x = v) \/ In (l, x) d.
Proof.
  induction d as [|[k' v'] d IH]; cbn [Dict.set].
  - intros [H|[]]. inversion H. auto.
  - destruct (str_eqb k' k) eqn:E.
    + apply str_eqb_eq in E. subst k'. intros [H|H].
      * inversion H. auto.
      * right. now right.
    + intros [H|H].
      * right. now left.
      * destruct (IH H) as [G|G]; [now left|right; now right].
Qed.

Lemma positive_in_nil S : positive_in S [].
Proof. split; [constructor|]. intros l x []. Qed.

Lemma positive_in_mono S S' d : incl S S' -> positive_in S d -> positive_in S' d.
Proof.
  intros Hi [Hn H]. split; [exact Hn|]. intros l x Hx. destruct (H l x Hx). auto.
Qed.

Lemma coefficient_nonneg S d l : positive_in S d -> (0 <= coefficient d l)%Q.
Proof.
  intros [_ H]. unfold coefficient. destruct (Dict.get d l) as [x|] eqn:E.
  - apply get_In in E. apply Qlt_le_weak. now apply (H l x).
  - apply Qle_refl.
Qed.

Lemma positive_in_set S d k v :
  positive_in S d -> In k S -> (0 < v)%Q -> positive_in S (Dict.set d k v).
Proof.
  intros [Hn H] Hk Hv. split; [now apply NoDup_keys_set|].
  intros l x Hx. apply In_set in Hx as [[-> ->]|Hx]; [auto|now apply H].
Qed.

Lemma positive_in_accumulate S rc bwc :
  positive_in S rc -> positive_in S bwc -> positive_in S (accumulate rc bwc).
Proof.
  intros [_ Hrc]. unfold accumulate. revert bwc.
  induction rc as [|[l c] rc IH]; intros bwc Hb; [exact Hb|].
  cbn [fold_left]. apply IH.
  - intros l' x' Hx. apply Hrc. now right.
  - destruct (Hrc l c (or_introl eq_refl)) as [Hl Hc].
    apply positive_in_set; [exact Hb|exact Hl|].
    pose proof (coefficient_nonneg l Hb) as G.
    apply Qlt_le_trans with (0 + c)%Q; [now rewrite Qplus_0_l|].
    apply Qplus_le_compat; [exact G|apply Qle_refl].
Qed.

Lemma positive_in_overwrite S wc d :
  positive_in S wc -> positive_in S d -> positive_in S (overwrite wc d).
Proof.
  intros [_ Hwc]. unfold overwrite. revert d.
  induction wc as [|[l c] wc IH]; intros d Hd; [exact Hd|].
  cbn [fold_left]. apply IH.
  - intros l' x' Hx. apply Hwc. now right.
  - destruct (Hwc l c (or_introl eq_refl)). now apply positive_in_set.
Qed.

Lemma rows_in_nil S : rows_in S [].
Proof. split; [constructor|]. intros b d []. Qed.

Lemma rows_in_mono S S' rbw : incl S S' -> rows_in S rbw -> rows_in S' rbw.
Proof.
  intros Hi [Hn H]. split; [exact Hn|]. intros b d Hd.
  eapply positive_in_mono; [exact Hi|]. eapply H, Hd.
Qed.

Lemma row_of_positive S rbw b : rows_in S rbw -> positive_in S (row_of rbw b).
Proof.
  intros [_ H]. unfold row_of. destruct (Dict.get rbw b) as [d|] eqn:E.
  - apply get_In in E. eapply H, E.
  - apply positive_in_nil.
Qed.

Lemma rows_in_set S rbw b d :
  rows_in S rbw -> positive_in S d -> rows_in S (Dict.set rbw b d).
Proof.
  intros [Hn H] Hd. split; [now apply NoDup_keys_set|].
  intros b' d' Hx. apply In_set in Hx as [[-> ->]|Hx]; [exact Hd|eapply H, Hx].
Qed.

Lemma rows_in_distribute S rc bs rbw :
  positive_in S rc -> rows_in S rbw -> rows_in S (distribute rc bs rbw).
Proof.
  intros Hrc. unfold distribute. revert rbw.
  induction bs as [|b bs IH]; intros rbw Hr; [exact Hr|].
  cbn [fold_left]. apply IH. apply rows_in_set; [exact Hr|].
  apply positive_in_accumulate; [exact Hrc|now apply row_of_positive].
Qed.

Lemma positive_in_resolve_ambiguous S rbn possible :
  (forall p l, Dict.get rbn p = Some l -> In l S) ->
  positive_in S (resolve_ambiguous rbn possible).
Proof.
  intros Hv. destruct (resolve_ambiguous_shares rbn possible) as (Hn & Hk & Hs & _).
  split; [exact Hn|]. intros l x Hx. split.
  - assert (Hl : In l (Dict.keys (resolve_ambiguous rbn possible)))
      by (apply (in_map fst) in Hx; exact Hx).
    apply Hk in Hl as (p & _ & Hp). eapply Hv, Hp.
  - rewrite (Hs l x Hx).
    assert (L : 0 < length (resolve_ambiguous rbn possible))
      by (destruct (resolve_ambiguous rbn possible); [destruct Hx|cbn; lia]).
    unfold Qdiv. rewrite Qmult_1_l. apply Qinv_lt_0_compat.
    unfold Qlt. cbn. lia.
Qed.

Lemma rows_in_merge_step S st entry :
  rows_in S (snd st) -> positive_in S (snd entry) -> rows_in S (snd (merge_step st entry)).
Proof.
  destruct st as [ws rbw], entry as [wit wc]. cbn [snd merge_step]. intros Hr Hw.
  apply rows_in_set; [exact Hr|].
  apply positive_in_overwrite; [exact Hw|now apply row_of_positive].
Qed.

Lemma rows_in_merge_steps S out st :
  rows_in S (snd st) -> (forall b d, In (b, d) out -> positive_in S d) ->
  rows_in S (snd (fold_left merge_step out st)).
Proof.
  revert st. induction out as [|[b d] out IH]; intros st Hr Ho; [exact Hr|].
  cbn [fold_left]. apply IH.
  - apply rows_in_merge_step; [exact Hr|]. apply (Ho b d). now left.
  - intros b' d' H. apply (Ho b' d'). now right.
Qed.

(** ** Failures of loops *)

Lemma for_each_failure {A S} (P : failure -> Prop) (l : list A) (body : S -> A -> M S) s f :
  (forall s a f, In a l -> body s a = inl f -> P f) ->
  for_each l body s = inl f -> P f.
Proof.
  revert s. induction l as [|a l IH]; intros s Hb H; [discriminate|].
  cbn [for_each] in H. destruct (body s a) as [g|s'] eqn:E.
  - cbn [bind] in H. inversion H. subst. eapply Hb; [now left|exact E].
  - cbn [bind] in H. eapply IH; [|exact H]. intros s0 a0 f0 Hin. apply Hb. now right.
Qed.

Lemma for_each_break_failure {A S} (P : failure -> Prop) (l : list A)
    (body : S -> A -> M (S * bool)) s f :
  (forall s a f, In a l -> body s a = inl f -> P f) ->
  for_each_break l body s = inl f -> P f.
Proof.
  revert s. induction l as [|a l IH]; intros s Hb H; [discriminate|].
  cbn [for_each_break] in H. destruct (body s a) as [g|[s' stop]] eqn:E.
  - cbn [bind] in H. inversion H. subst. eapply Hb; [now left|exact E].
  - cbn [bind] in H. destruct stop; [discriminate|].
    eapply IH; [|exact H]. intros s0 a0 f0 Hin. apply Hb. now right.
Qed.


Lemma for_each_total {A S} (l : list A) (body : S -> A -> M S) s :
  (forall s a, In a l -> exists s', body s a = inr s') ->
  exists s', for_each l body s = inr s'.
Proof.
  revert s. induction l as [|a l IH]; intros s Hb; [now exists s|].
  cbn [for_each]. destruct (Hb s a (or_introl eq_refl)) as [s1 ->]. cbn [bind].
  apply IH. intros s0 a0 H0. apply Hb. now right.
Qed.

(** ** The two loops of [parse_app] *)

Section TeiUnit.
Import tei_collation_parser.
Variables (tei_ns : str) (cfg : settings) (app_id : str).

Lemma tei_first_pass_cases rbn rs rdg :
  if contains (ignored_reading_types cfg) (rdg_type_of rdg)
     || contains (trivial_reading_types cfg) (rdg_type_of rdg)
  then first_pass tei_ns cfg app_id (rbn, rs) rdg = inr (rbn, rs)
  else match attr rdg `"n" with
       | None => first_pass tei_ns cfg app_id (rbn, rs) rdg = raise TypeError
       | Some rdg_n =>
           first_pass tei_ns cfg app_id (rbn, rs) rdg
           = inr (if is_substantive cfg rdg
                  then (Dict.set rbn rdg_n (tei_label tei_ns app_id rdg_n rdg),
                        rs ++ [tei_label tei_ns app_id rdg_n rdg])
                  else (rbn, rs))
       end.
Proof.
  unfold first_pass, is_substantive, rdg_label_of.
  destruct (contains (ignored_reading_types cfg) (rdg_type_of rdg)
            || contains (trivial_reading_types cfg) (rdg_type_of rdg)); [reflexivity|].
  destruct (attr rdg `"n") as [rdg_n|]; [|reflexivity].
  cbn [not_none bind ret negb andb].
  now destruct (str_eqb (rdg_type_of rdg) `"ambiguous").
Qed.

Lemma tei_labels_cons rdg rdgs :
  tei_labels tei_ns cfg app_id (rdg :: rdgs)
  = (if is_substantive cfg rdg
     then [tei_label tei_ns app_id (or_empty (attr rdg `"n")) rdg] else [])
    ++ tei_labels tei_ns cfg app_id rdgs.
Proof. reflexivity. Qed.

Lemma is_substantive_not_skipped rdg :
  is_substantive cfg rdg = true ->
  contains (ignored_reading_types cfg) (rdg_type_of rdg)
  || contains (trivial_reading_types cfg) (rdg_type_of rdg) = false.
Proof.
  unfold is_substantive. intros H. apply andb_true_iff in H as [H _].
  now apply negb_true_iff in H.
Qed.

Lemma tei_first_passes rdgs rbn rs rbn' rs' :
  for_each rdgs (first_pass tei_ns cfg app_id) (rbn, rs) = inr (rbn', rs') ->
  rs' = rs ++ tei_labels tei_ns cfg app_id rdgs
  /\ (forall p l, Dict.get rbn' p = Some l ->
                  Dict.get rbn p = Some l \/ In l (tei_labels tei_ns cfg app_id rdgs))
  /\ (forall rdg, In rdg rdgs ->
        contains (ignored_reading_types cfg) (rdg_type_of rdg)
        || contains (trivial_reading_types cfg) (rdg_type_of rdg) = false ->
        attr rdg `"n" <> None).
Proof.
  revert rbn rs. induction rdgs as [|rdg rdgs IH]; intros rbn rs H.
  - inversion H. subst. cbn. rewrite app_nil_r. split; [reflexivity|]. split; [auto|].
    intros rdg [].
  - cbn [for_each] in H. pose proof (tei_first_pass_cases rbn rs rdg) as C.
    rewrite tei_labels_cons.
    destruct (contains (ignored_reading_types cfg) (rdg_type_of rdg)
              || contains (trivial_reading_types cfg) (rdg_type_of rdg)) eqn:Sk.
    + rewrite C in H. cbn [bind] in H. apply IH in H as (H1 & H2 & H3).
      assert (Ns : is_substantive cfg rdg = false).
      { unfold is_substantive. now rewrite Sk. }
      rewrite Ns. cbn [app]. split; [exact H1|]. split; [exact H2|].
      intros r [<-|Hr] Hs; [congruence|now apply H3].
    + destruct (attr rdg `"n") as [rdg_n|] eqn:En; [|rewrite C in H; discriminate].
      rewrite C in H. cbn [bind] in H. cbn [or_empty].
      destruct (is_substantive cfg rdg).
      * apply IH in H as (H1 & H2 & H3). split; [now rewrite H1, <- app_assoc|].
        split.
        -- intros p l Hp. destruct (H2 p l Hp) as [G|G].
           ++ destruct (str_eq_dec rdg_n p) as [->|Np].
              ** rewrite get_set_same in G. inversion G. right. apply in_or_app.
                 left. now left.
              ** rewrite get_set_other in G by exact Np. now left.
           ++ right. apply in_or_app. now right.
        -- intros r [<-|Hr] Hs; [congruence|now apply H3].
      * apply IH in H as (H1 & H2 & H3). cbn [app]. split; [exact H1|].
        split; [exact H2|]. intros r [<-|Hr] Hs; [congruence|now apply H3].
Qed.

Lemma tei_label_In rdgs rdg rdg_n :
  In rdg rdgs -> is_substantive cfg rdg = true -> attr rdg `"n" = Some rdg_n ->
  In (tei_label tei_ns app_id rdg_n rdg) (tei_labels tei_ns cfg app_id rdgs).
Proof.
  intros Hin Hs Hn. unfold tei_labels. apply in_flat_map. exists rdg.
  split; [exact Hin|]. rewrite Hs, Hn. now left.
Qed.

Variable readings_by_number : dict str.

Lemma tei_update_positive S rc rdg rc' skip :
  positive_in S rc ->
  (forall p l, Dict.get readings_by_number p = Some l -> In l S) ->
  (forall rdg_n, is_substantive cfg rdg = true -> attr rdg `"n" = Some rdg_n ->
                 In (tei_label tei_ns app_id rdg_n rdg) S) ->
  contains (ignored_reading_types cfg) (rdg_type_of rdg) = false ->
  update_coefficients tei_ns cfg app_id readings_by_number rc rdg = inr (rc', skip) ->
  positive_in S rc'.
Proof.
  intros Hrc Hv Hl Hi H.
  destruct (contains (trivial_reading_types cfg) (rdg_type_of rdg)) eqn:Ht.
  - rewrite tei_update_trivial in H by exact Ht. inversion H. subst. exact Hrc.
  - destruct (str_eqb (rdg_type_of rdg) `"ambiguous") eqn:Ha.
    + apply str_eqb_eq in Ha.
      destruct (@tei_update_ambiguous tei_ns cfg app_id readings_by_number rc rdg rc' skip
                  Ht Ha H) as (rdg_n & _ & -> & _).
      now apply positive_in_resolve_ambiguous.
    + unfold update_coefficients in H. rewrite Ht, Ha in H. cbn [negb] in H.
      inv_bind H as r Hr. destruct r as [rdg_n rdg_label].
      unfold rdg_label_of in Hr. inv_bind Hr as n Hn. inv_ret Hr. inv_ret H.
      destruct (attr rdg `"n") as [m|] eqn:En; [|discriminate]. inv_ret Hn.
      split; [repeat constructor; intros []|].
      intros l x [E|[]]. inversion E. subst. split; [|reflexivity].
      apply Hl; [|reflexivity]. unfold is_substantive. now rewrite Hi, Ht, Ha.
Qed.

Lemma tei_second_pass_positive S rc rbw rdg rc' rbw' :
  positive_in S rc -> rows_in S rbw ->
  (forall p l, Dict.get readings_by_number p = Some l -> In l S) ->
  (forall rdg_n, is_substantive cfg rdg = true -> attr rdg `"n" = Some rdg_n ->
                 In (tei_label tei_ns app_id rdg_n rdg) S) ->
  second_pass tei_ns cfg app_id readings_by_number (rc, rbw) rdg = inr (rc', rbw') ->
  positive_in S rc' /\ rows_in S rbw'.
Proof.
  intros Hrc Hr Hv Hl H.
  destruct (contains (ignored_reading_types cfg) (rdg_type_of rdg)) eqn:Hi.
  - rewrite tei_second_pass_ignored in H by exact Hi. inversion H. now subst.
  - destruct (@tei_second_pass_inv tei_ns cfg app_id readings_by_number rc rbw rdg rc' rbw'
                Hi H) as (skip & Hu & Hs).
    assert (Hrc' : positive_in S rc')
      by (eapply tei_update_positive; [exact Hrc|exact Hv|exact Hl|exact Hi|exact Hu]).
    split; [exact Hrc'|].
    destruct skip; [now subst|]. destruct Hs as (bs & _ & ->).
    now apply rows_in_distribute.
Qed.

End TeiUnit.

Lemma empty_suffix_or_none (l : list str) :
  In [] l \/ Forall (fun suffix => suffix <> []) l.
Proof.
  induction l as [|x l [IH|IH]].
  - right. constructor.
  - left. now right.
  - destruct x as [|c x]; [left; now left|]. right. constructor; [discriminate|exact IH].
Qed.



Section TeiUnitFailures.
Import tei_collation_parser.
Variables (tei_ns xml_ns : str) (cfg : settings).





End TeiUnitFailures.

Section TeiApp.
Import tei_collation_parser.
Variables (tei_ns xml_ns : str) (cfg : settings).

Lemma parse_app_rows readings xml readings' rbw :
  parse_app tei_ns xml_ns cfg readings xml = inr (readings', rbw) ->
  let labels := tei_labels tei_ns cfg (app_id_of xml_ns xml)
                           (xpath_children (qname tei_ns `"rdg") xml) in
  readings' = readings ++ labels /\ rows_in labels rbw.
Proof.
  intros H labels. apply parse_app_inv in H as (rbn & rc & H1 & H2).
  apply tei_first_passes in H1 as (Hr & Hv & _). split; [exact Hr|].
  fold labels in Hv.
  apply (for_each_invariant
           (fun st => positive_in labels (fst st) /\ rows_in labels (snd st))) in H2.
  - exact (proj2 H2).
  - intros [rc0 rbw0] rdg [rc1 rbw1] Hin [P1 P2] Hs. cbn [fst snd] in *.
    eapply tei_second_pass_positive; [exact P1|exact P2| | |exact Hs].
    + intros p l Hp. destruct (Hv p l Hp) as [G|G]; [discriminate|exact G].
    + intros rdg_n Hsub Hn. now apply tei_label_In.
  - split; [apply positive_in_nil|apply rows_in_nil].
Qed.



End TeiApp.

(** ** Filling the matrix *)

Lemma for_each_total_invariant {A S} (P : S -> Prop) (l : list A) (body : S -> A -> M S) s :
  P s ->
  (forall s a, In a l -> P s -> exists s', body s a = inr s' /\ P s') ->
  exists s', for_each l body s = inr s' /\ P s'.
Proof.
  revert s. induction l as [|a l IH]; intros s Hs Hb; [now exists s|].
  cbn [for_each]. destruct (Hb s a (or_introl eq_refl) Hs) as (s1 & -> & H1). cbn [bind].
  apply IH; [exact H1|]. intros s0 a0 H0. apply Hb. now right.
Qed.

Lemma index_map_mem (l : list str) (x : str) :
  In x l -> exists i, Dict.get (index_map l) x = Some i /\ i < length l.
Proof.
  intros Hin.
  assert (G : forall (es : list (nat * str)) (d : dict nat),
             (exists j, In (j, x) es) \/ Dict.mem d x = true ->
             Dict.mem (fold_left (fun d '(i, y) => Dict.set d y i) es d) x = true).
  { induction es as [|[j y] es IH]; intros d H; cbn [fold_left].
    - destruct H as [[j []]|H]; exact H.
    - apply IH. destruct H as [[j' [H|H]]|H].
      + inversion H. subst. right. apply mem_get. exists j'. apply get_set_same.
      + left. now exists j'.
      + right. apply mem_get. apply mem_get in H as [v Hv].
        destruct (str_eq_dec y x) as [->|Hne].
        * eexists. apply get_set_same.
        * exists v. now rewrite get_set_other. }
  apply In_nth_error in Hin as [j Hj].
  assert (M : Dict.mem (index_map l) x = true).
  { apply G. left. exists j. now apply enumerate_In. }
  apply mem_get in M as [i Hi]. exists i. split; [exact Hi|].
  apply index_map_get in Hi. apply nth_error_Some. congruence.
Qed.

Lemma list_set_Forall {A} (P : A -> Prop) (l : list A) i v :
  Forall P l -> P v -> Forall P (list_set l i v).
Proof.
  intros Hl Hv. revert i. induction Hl as [|x l Hx Hl IH]; intros [|i]; cbn;
    constructor; auto.
Qed.

Lemma rows_set_Forall {A} (P : A -> Prop) (rows : list (list A)) i j v :
  Forall (Forall P) rows -> P v -> Forall (Forall P) (rows_set rows i j v).
Proof.
  intros Hr Hv. revert i. induction Hr as [|r rows Hx Hr IH]; intros [|i]; cbn;
    constructor; auto. now apply list_set_Forall.
Qed.

Lemma rows_set_lengths {A} (rows : list (list A)) i j v n :
  Forall (fun row => length row = n) rows ->
  Forall (fun row => length row = n) (rows_set rows i j v).
Proof.
  intros Hr. revert i. induction Hr as [|r rows Hx Hr IH]; intros [|i]; cbn;
    constructor; auto. now rewrite list_set_length.
Qed.

Lemma setitem_total {A} (m : ndarray A) i j v :
  i < nrows m -> j < ncols m -> exists m', setitem m i j v = inr m'.
Proof.
  intros Hi Hj. unfold setitem.
  apply Nat.ltb_lt in Hi, Hj. rewrite Hi, Hj. cbn [andb]. eexists. reflexivity.
Qed.

Lemma setitem_keeps (m : ndarray Q) i j v m' :
  setitem m i j v = inr m' ->
  (well_shaped m -> well_shaped m')
  /\ ((0 <= v)%Q -> nonnegative m -> nonnegative m').
Proof.
  unfold setitem. destruct ((i <? nrows m) && (j <? ncols m)); [|discriminate].
  intros H. inv_ret H. unfold well_shaped, nonnegative. cbn [ncols data]. split.
  - apply rows_set_lengths.
  - intros Hv Hm. now apply rows_set_Forall.
Qed.

Lemma zeros_fine r c : well_shaped (zeros r c) /\ nonnegative (zeros r c).
Proof.
  unfold well_shaped, nonnegative, zeros. cbn [ncols data]. split.
  - apply Forall_forall. intros row H. apply repeat_spec in H. subst.
    apply repeat_length.
  - apply Forall_forall. intros row H. apply repeat_spec in H. subst.
    apply Forall_forall. intros x H. apply repeat_spec in H. subst. apply Qle_refl.
Qed.

Lemma fill_matrix_keeps readings witnesses rbw m :
  rows_in readings rbw ->
  fill_matrix readings witnesses rbw = inr m ->
  well_shaped m /\ nonnegative m.
Proof.
  intros [_ Hr]. unfold fill_matrix. intros H.
  apply (for_each_invariant (fun m => well_shaped m /\ nonnegative m)) in H.
  - exact H.
  - intros m0 [wit wc] m1 Hin Hm0 Hb. inv_bind Hb as j Hj.
    destruct (Hr wit wc Hin) as [_ Hwc].
    apply (for_each_invariant (fun m => well_shaped m /\ nonnegative m)) in Hb.
    + exact Hb.
    + intros m2 [rdg c] m3 Hin' [W N] Hs. inv_bind Hs as i Hi.
      apply setitem_keeps in Hs as [K1 K2]. split; [auto|]. apply K2; [|exact N].
      apply Qlt_le_weak. now apply (Hwc rdg c).
    + exact Hm0.
  - apply zeros_fine.
Qed.

Lemma fill_matrix_total readings witnesses rbw :
  Dict.keys rbw = witnesses -> rows_in readings rbw ->
  exists m, fill_matrix readings witnesses rbw = inr m.
Proof.
  intros Hk [_ Hr]. unfold fill_matrix.
  fold (index_map readings). fold (index_map witnesses).
  destruct (@for_each_total_invariant _ _
              (fun m : ndarray Q => ncols m = length witnesses /\ nrows m = length readings)
              rbw
              (fun m '(wit, wit_coefficients) =>
                 j <- Dict.item (index_map witnesses) wit ;;
                 for_each wit_coefficients
                   (fun m '(rdg, coefficient) =>
                      i <- Dict.item (index_map readings) rdg ;;
                      setitem m i j coefficient) m)
              (zeros (length readings) (length witnesses))) as (m & Hm & _).
  - unfold zeros, nrows. cbn [ncols data]. now rewrite repeat_length.
  - intros m0 [wit wc] Hin Hm0.
    assert (Hw : In wit witnesses).
    { rewrite <- Hk. apply (in_map fst) in Hin. exact Hin. }
    apply index_map_mem in Hw as (j & Hj & Lj).
    apply item_inr in Hj. rewrite Hj. cbn [bind].
    destruct (Hr wit wc Hin) as [_ Hwc].
    apply for_each_total_invariant; [exact Hm0|].
    intros m2 [rdg c] Hin' [C R].
    destruct (Hwc rdg c Hin') as [Hl _].
    apply index_map_mem in Hl as (i & Hi & Li).
    apply item_inr in Hi. rewrite Hi. cbn [bind].
    destruct (@setitem_total _ m2 i j c) as [m3 Hs]; [lia|lia|].
    exists m3. split; [exact Hs|].
    apply setitem_inv in Hs as (H1 & H2 & _). split; congruence.
  - exists m. exact Hm.
Qed.

(** ** The units of a document *)

Section Units.
Variable parse_unit : list str -> element -> M (list str * dict (dict Q)).
Variable units : list element.
Hypothesis Hspec : unit_spec parse_unit units.

Lemma collect_step_rows st u st' :
  In u units ->
  rows_in (fst (fst st)) (snd st) ->
  collect_step parse_unit st u = inr st' ->
  rows_in (fst (fst st')) (snd st').
Proof.
  destruct st as [[rs ws] rbw]. intros Hu Hr Hs.
  apply collect_step_inv in Hs as (rs' & out & Hp & ->). cbn [fst snd] in *.
  destruct (Hspec Hu Hp) as [[new ->] Ho].
  apply rows_in_merge_steps.
  - cbn [snd]. eapply rows_in_mono; [|exact Hr]. apply incl_appl, incl_refl.
  - exact (proj2 Ho).
Qed.

Lemma collect_rows_prefix pre st :
  incl pre units ->
  for_each pre (collect_step parse_unit) ([], [], []) = inr st ->
  rows_in (fst (fst st)) (snd st).
Proof.
  intros Hi H.
  apply (for_each_invariant (fun st => rows_in (fst (fst st)) (snd st))) in H.
  - exact H.
  - intros s u s' Hu Hs Hb. eapply collect_step_rows; [apply Hi, Hu|exact Hs|exact Hb].
  - apply rows_in_nil.
Qed.

Lemma collect_rows readings witnesses rbw :
  collect parse_unit units = inr (readings, witnesses, rbw) -> rows_in readings rbw.
Proof.
  rewrite collect_eq. intros H.
  exact (collect_rows_prefix (incl_refl _) H).
Qed.

Lemma collect_failure (P : failure -> Prop) f :
  (forall u rs f, In u units -> parse_unit rs u = inl f -> P f) ->
  collect parse_unit units = inl f -> P f.
Proof.
  intros Hf. rewrite collect_eq. apply for_each_failure.
  intros [[rs ws] rbw] u f0 Hu. cbn [collect_step].
  destruct (parse_unit rs u) as [g|[rs' out]] eqn:E; cbn [bind].
  - intros H. inversion H. subst. eapply Hf; [exact Hu|exact E].
  - destruct (fold_left merge_step out (ws, rbw)). discriminate.
Qed.

Lemma collect_total :
  (forall u rs, In u units -> exists rs' out, parse_unit rs u = inr (rs', out)) ->
  exists st, collect parse_unit units = inr st.
Proof.
  intros Ht. rewrite collect_eq. apply for_each_total.
  intros [[rs ws] rbw] u Hu. cbn [collect_step].
  destruct (Ht u rs Hu) as (rs' & out & ->). cbn [bind].
  destruct (fold_left merge_step out (ws, rbw)). eexists. reflexivity.
Qed.

Lemma assemble_failure cfg (P : failure -> Prop) f :
  (forall u rs f, In u units -> parse_unit rs u = inl f -> P f) ->
  assemble cfg parse_unit units = inl f -> P f.
Proof.
  intros Hf. unfold assemble.
  destruct (collect parse_unit units) as [g|[[rs ws] rbw]] eqn:E; cbn [bind].
  - intros H. inversion H. subst. eapply collect_failure; [exact Hf|exact E].
  - destruct (collect_ok _ _ E) as [Hk _].
    destruct (fill_matrix_total Hk (collect_rows E)) as [m ->]. discriminate.
Qed.

Lemma assemble_total cfg :
  (forall u rs, In u units -> exists rs' out, parse_unit rs u = inr (rs', out)) ->
  exists raw, assemble cfg parse_unit units = inr raw.
Proof.
  intros Ht. unfold assemble. destruct (collect_total Ht) as [[[rs ws] rbw] E].
  rewrite E. cbn [bind].
  destruct (collect_ok _ _ E) as [Hk _].
  destruct (fill_matrix_total Hk (collect_rows E)) as [m ->]. cbn [bind].
  eexists. reflexivity.
Qed.

Lemma assemble_matrix cfg raw :
  assemble cfg parse_unit units = inr raw ->
  shape (collation_matrix raw) = (length (readings raw), length (witnesses raw))
  /\ well_shaped (collation_matrix raw)
  /\ nonnegative (collation_matrix raw)
  /\ NoDup (witnesses raw).
Proof.
  intros H. apply assemble_inv in H as (rbw & Hc & Hm & _).
  destruct (fill_matrix_shape _ _ _ Hm) as [C R].
  destruct (@fill_matrix_keeps _ (witnesses raw) _ _ (collect_rows Hc) Hm) as [W N].
  destruct (collect_ok _ _ Hc) as [_ Hn].
  unfold shape. rewrite C, R. auto.
Qed.

End Units.

(** ** Signs *)

Lemma take_cols_nonnegative (m : ndarray Q) inds :
  nonnegative m -> nonnegative (take_cols 0%Q m inds).
Proof.
  unfold nonnegative, take_cols. cbn [data]. intros H. rewrite Forall_map.
  eapply Forall_impl; [|exact H]. intros row Hrow. rewrite Forall_map.
  apply Forall_forall. intros j _.
  destruct (Nat.lt_ge_cases j (length row)) as [L|L].
  - rewrite Forall_forall in Hrow. apply Hrow, nth_In, L.
  - rewrite nth_overflow by exact L. apply Qle_refl.
Qed.

Lemma take_rows_nonnegative (m : ndarray Q) inds :
  nonnegative m -> nonnegative (take_rows m inds).
Proof.
  unfold nonnegative, take_rows. cbn [data]. intros H. rewrite Forall_map.
  apply Forall_forall. intros i _.
  destruct (Nat.lt_ge_cases i (length (data m))) as [L|L].
  - rewrite Forall_forall in H. apply H, nth_In, L.
  - rewrite nth_overflow by exact L. constructor.
Qed.

Lemma pruned_nonnegative (self : parser Q) :
  nonnegative (collation_matrix self) ->
  nonnegative (collation_matrix (pruned self))
  /\ nonnegative (fragmentary_collation_matrix (pruned self)).
Proof.
  intros H. unfold pruned, primary_split, fragmentary_split.
  cbn [collation_matrix fragmentary_collation_matrix].
  split; apply take_rows_nonnegative, take_cols_nonnegative, H.
Qed.

Lemma Q2R_nonneg (x : Q) : (0 <= x)%Q -> (0 <= Q2R x)%R.
Proof. intros H. apply Qreals.Qle_Rle in H. now rewrite RMicromega.Q2R_0 in H. Qed.

Lemma astype_real_nonnegative (m : ndarray Q) :
  nonnegative m -> nonnegative_real (astype_real m).
Proof.
  unfold nonnegative, nonnegative_real, astype_real. cbn [data]. intros H.
  rewrite Forall_map. eapply Forall_impl; [|exact H]. intros row Hrow.
  rewrite Forall_map. eapply Forall_impl; [|exact Hrow]. intros x. apply Q2R_nonneg.
Qed.

Lemma reweight_nonnegative (idf : list R) (m : ndarray Q) (m' : ndarray R) :
  well_shaped m -> nonnegative m ->
  (forall t, t < nrows m -> (0 <= nth t idf 0)%R) ->
  reweight idf m = inr m' -> nonnegative_real m'.
Proof.
  intros Hw Hn Hidf H. destruct (reweight_rows _ Hw H) as (_ & _ & Hd).
  unfold nonnegative_real. rewrite Hd, Forall_map. apply Forall_forall. intros t Ht.
  apply in_seq in Ht. rewrite Forall_map. apply Forall_forall. intros x Hx.
  apply Rmult_le_pos; [|apply Hidf; lia]. apply Q2R_nonneg.
  unfold nonnegative in Hn. rewrite Forall_forall in Hn.
  assert (Hrow : In (nth t (data m) []) (data m)) by (apply nth_In; unfold nrows in Ht; lia).
  specialize (Hn _ Hrow). rewrite Forall_forall in Hn. now apply Hn.
Qed.

Lemma postprocess_nonnegative cfg (self : parser Q) fin :
  nonnegative (collation_matrix self) ->
  postprocess cfg self = inr fin ->
  nonnegative_real (collation_matrix fin)
  /\ nonnegative_real (fragmentary_collation_matrix fin).
Proof.
  intros Hn H. pose proof (postprocess_inv _ _ H) as (Hs & _).
  destruct (pruned_well_shaped _ Hs) as [Wp Wf].
  destruct (pruned_rows _ Hs) as [_ Hpos].
  destruct (@pruned_nonnegative self Hn) as [Np Nf].
  destruct (pruned_lengths self) as (L1 & L2 & L3 & L4).
  unfold postprocess in H. rewrite Hs in H. cbn [bind] in H.
  destruct (use_tfidf cfg).
  - unfold apply_tfidf in H.
    destruct (shape_not_empty (collation_matrix (pruned self))).
    + inv_bind H as idf Hidf. inv_bind H as cm Hcm. inv_bind H as fm Hfm. inv_ret H.
      cbn [collation_matrix fragmentary_collation_matrix].
      apply fit_transpose in Hidf; [|exact Wp]. subst idf.
      assert (Hw : forall t, t < nrows (collation_matrix (pruned self)) ->
                 (0 <= nth t (map (fun w => (w - 1)%R)
                                (map (fun row =>
                                        (ln (INR (ncols (collation_matrix (pruned self)))
                                             / INR (attested row)) + 1)%R)
                                     (data (collation_matrix (pruned self))))) 0)%R).
      { intros t Ht. rewrite map_map. rewrite (nth_map_lt _ _ [] 0%R) by exact Ht.
        assert (Hrow : In (nth t (data (collation_matrix (pruned self))) [])
                          (data (collation_matrix (pruned self)))) by (now apply nth_In).
        assert (Hdf : 1 <= attested (nth t (data (collation_matrix (pruned self))) [])
                      <= ncols (collation_matrix (pruned self))).
        { split.
          - apply attested_positive. rewrite Forall_forall in Hpos. now apply Hpos.
          - unfold well_shaped in Wp. rewrite Forall_forall in Wp.
            rewrite <- (Wp _ Hrow). apply attested_le. }
        destruct (idf_weight_sign Hdf) as [G _].
        match goal with |- (0 <= ?a + 1 - 1)%R => replace (a + 1 - 1)%R with a by ring end.
        exact G. }
      split; [eapply reweight_nonnegative; [exact Wp|exact Np|exact Hw|exact Hcm]|].
      destruct (shape_not_empty (fragmentary_collation_matrix (pruned self))).
      * eapply reweight_nonnegative; [exact Wf|exact Nf| |exact Hfm].
        intros t Ht. apply Hw. unfold nrows in *. lia.
      * inv_ret Hfm. now apply astype_real_nonnegative.
    + inv_ret H. cbn [as_real collation_matrix fragmentary_collation_matrix].
      split; now apply astype_real_nonnegative.
  - inv_ret H. cbn [as_real collation_matrix fragmentary_collation_matrix].
    split; now apply astype_real_nonnegative.
Qed.

(** ** TEI documents *)

Section TeiDocument.
Import tei_collation_parser.
Variables (tei_ns xml_ns : str) (cfg : settings).

Lemma tei_unit_spec units : unit_spec (parse_app tei_ns xml_ns cfg) units.
Proof.
  intros u rs rs' out _ H. destruct (parse_app_rows _ _ _ _ _ H) as [Hr Ho].
  split; [eexists; exact Hr|]. eapply rows_in_mono; [|exact Ho].
  rewrite Hr. apply incl_appr, incl_refl.
Qed.


Lemma tei_read_after_raw xml raw :
  read_raw tei_ns xml_ns cfg xml = inr raw ->
  split_and_prune raw = inr (pruned raw)
  /\ read tei_ns xml_ns cfg xml = postprocess cfg raw.
Proof.
  intros H. split.
  - destruct (assemble_matrix (tei_unit_spec _) cfg H) as (Hs & _).
    unfold shape in Hs. inversion Hs as [[Hr Hc]].
    apply split_and_prune_total; lia.
  - unfold read. now rewrite H.
Qed.

End TeiDocument.

(** ** The two loops of [parse_segment] *)

Section VmrUnit.
Import vmr_collation_parser.
Variables (cfg : settings) (segment_id : str).

Lemma vmr_first_pass_cases rbn rs rdg :
  match rdg_label_of rdg with
  | inl f => first_pass cfg segment_id (rbn, rs) rdg = inl f
  | inr rdg_label =>
      if contains (ignored_reading_types cfg) (rdg_type_of rdg_label)
         || contains (trivial_reading_types cfg) (rdg_type_of rdg_label)
      then first_pass cfg segment_id (rbn, rs) rdg = inr (rbn, rs)
      else match attr rdg `"reading" with
           | None => first_pass cfg segment_id (rbn, rs) rdg = raise TypeError
           | Some _ =>
               first_pass cfg segment_id (rbn, rs) rdg
               = inr (if vmr_is_substantive cfg rdg_label
                      then (Dict.set rbn rdg_label (vmr_id segment_id rdg_label rdg),
                            rs ++ [vmr_id segment_id rdg_label rdg])
                      else (rbn, rs))
           end
  end.
Proof.
  unfold first_pass, vmr_is_substantive, vmr_id, rdg_id_of.
  destruct (rdg_label_of rdg) as [f|rdg_label]; [reflexivity|]. cbn [bind].
  destruct (contains (ignored_reading_types cfg) (rdg_type_of rdg_label)
            || contains (trivial_reading_types cfg) (rdg_type_of rdg_label)); [reflexivity|].
  destruct (attr rdg `"reading") as [t|]; [|reflexivity].
  cbn [not_none bind ret negb andb or_empty].
  now destruct (str_eqb (rdg_type_of rdg_label) `"ambiguous").
Qed.

Lemma vmr_first_passes rdgs rbn rs rbn' rs' :
  for_each rdgs (first_pass cfg segment_id) (rbn, rs) = inr (rbn', rs') ->
  rs' = rs ++ vmr_labels cfg segment_id rdgs
  /\ (forall p l, Dict.get rbn' p = Some l ->
                  Dict.get rbn p = Some l \/ In l (vmr_labels cfg segment_id rdgs)).
Proof.
  revert rbn rs. induction rdgs as [|rdg rdgs IH]; intros rbn rs H.
  - inversion H. subst. cbn. rewrite app_nil_r. auto.
  - cbn [for_each] in H. pose proof (vmr_first_pass_cases rbn rs rdg) as C.
    unfold vmr_labels. cbn [flat_map]. fold (vmr_labels cfg segment_id rdgs).
    destruct (rdg_label_of rdg) as [f|rdg_label]; [rewrite C in H; discriminate|].
    destruct (contains (ignored_reading_types cfg) (rdg_type_of rdg_label)
              || contains (trivial_reading_types cfg) (rdg_type_of rdg_label)) eqn:Sk.
    + rewrite C in H. cbn [bind] in H. apply IH in H as (H1 & H2).
      assert (Ns : vmr_is_substantive cfg rdg_label = false).
      { unfold vmr_is_substantive. now rewrite Sk. }
      rewrite Ns. cbn [app]. auto.
    + destruct (attr rdg `"reading") as [t|] eqn:En; [|rewrite C in H; discriminate].
      rewrite C in H. cbn [bind] in H.
      destruct (vmr_is_substantive cfg rdg_label).
      * apply IH in H as (H1 & H2). split; [now rewrite H1, <- app_assoc|].
        intros p l Hp. destruct (H2 p l Hp) as [G|G].
        -- destruct (str_eq_dec rdg_label p) as [->|Np].
           ++ rewrite get_set_same in G. inversion G. right. apply in_or_app.
              left. now left.
           ++ rewrite get_set_other in G by exact Np. now left.
        -- right. apply in_or_app. now right.
      * apply IH in H as (H1 & H2). cbn [app]. auto.
Qed.

Lemma vmr_id_In rdgs rdg rdg_label :
  In rdg rdgs -> rdg_label_of rdg = inr rdg_label ->
  vmr_is_substantive cfg rdg_label = true ->
  In (vmr_id segment_id rdg_label rdg) (vmr_labels cfg segment_id rdgs).
Proof.
  intros Hin Hl Hs. unfold vmr_labels. apply in_flat_map. exists rdg.
  split; [exact Hin|]. rewrite Hl, Hs. now left.
Qed.

Variable readings_by_number : dict str.

Lemma vmr_update_positive S rc rdg rdg_label rc' skip :
  positive_in S rc ->
  (forall p l, Dict.get readings_by_number p = Some l -> In l S) ->
  rdg_label_of rdg = inr rdg_label ->
  (vmr_is_substantive cfg rdg_label = true -> In (vmr_id segment_id rdg_label rdg) S) ->
  contains (ignored_reading_types cfg) (rdg_type_of rdg_label) = false ->
  update_coefficients cfg segment_id readings_by_number rc (rdg_type_of rdg_label) rdg
  = inr (rc', skip) ->
  positive_in S rc'.
Proof.
  intros Hrc Hv Hlab Hl Hi H.
  destruct (contains (trivial_reading_types cfg) (rdg_type_of rdg_label)) eqn:Ht.
  - rewrite vmr_update_trivial in H by exact Ht. inversion H. subst. exact Hrc.
  - destruct (str_eqb (rdg_type_of rdg_label) `"ambiguous") eqn:Ha.
    + apply str_eqb_eq in Ha.
      destruct (@vmr_update_ambiguous cfg segment_id readings_by_number rc
                  (rdg_type_of rdg_label) rdg rc' skip Ht Ha H) as (t & _ & -> & _).
      now apply positive_in_resolve_ambiguous.
    + unfold update_coefficients in H. rewrite Ht, Ha, Hlab in H. cbn [negb bind] in H.
      unfold rdg_id_of in H. destruct (attr rdg `"reading") as [t|] eqn:En; [|discriminate].
      cbn [not_none bind ret] in H. inv_ret H.
      split; [repeat constructor; intros []|].
      intros l x [E|[]]. inversion E. subst. split; [|reflexivity].
      unfold vmr_id in Hl. rewrite En in Hl. cbn [or_empty] in Hl. apply Hl.
      unfold vmr_is_substantive. now rewrite Hi, Ht, Ha.
Qed.

Lemma vmr_second_pass_positive S rc rbw rdg rc' rbw' :
  positive_in S rc -> rows_in S rbw ->
  (forall p l, Dict.get readings_by_number p = Some l -> In l S) ->
  (forall rdg_label, rdg_label_of rdg = inr rdg_label ->
     vmr_is_substantive cfg rdg_label = true -> In (vmr_id segment_id rdg_label rdg) S) ->
  second_pass cfg segment_id readings_by_number (rc, rbw) rdg = inr (rc', rbw') ->
  positive_in S rc' /\ rows_in S rbw'.
Proof.
  intros Hrc Hr Hv Hl H.
  apply vmr_second_pass_inv in H as (rdg_label & Hlab & Hig & Hno).
  destruct (contains (ignored_reading_types cfg) (rdg_type_of rdg_label)) eqn:Hi.
  - destruct (Hig eq_refl) as [-> ->]. auto.
  - destruct (Hno eq_refl) as (skip & Hu & Hs).
    assert (Hrc' : positive_in S rc').
    { eapply vmr_update_positive; [exact Hrc|exact Hv|exact Hlab| |exact Hi|exact Hu].
      now apply Hl. }
    split; [exact Hrc'|]. destruct skip; [now subst|]. destruct Hs as (bs & _ & ->).
    now apply rows_in_distribute.
Qed.

End VmrUnit.

Section VmrSegment.
Import vmr_collation_parser.
Variable cfg : settings.

Lemma parse_segment_rows readings xml readings' rbw :
  parse_segment cfg readings xml = inr (readings', rbw) ->
  exists segment_id,
    segment_id_of xml = inr segment_id
    /\ let labels := vmr_labels cfg segment_id (xpath_descendants `"segmentReading" xml) in
       readings' = readings ++ labels /\ rows_in labels rbw.
Proof.
  unfold parse_segment. intros H. inv_bind H as segment_id Hid. exists segment_id.
  split; [exact Hid|]. cbv zeta.
  set (labels := vmr_labels cfg segment_id (xpath_descendants `"segmentReading" xml)).
  inv_bind H as r1 H1. destruct r1 as [rbn rs].
  inv_bind H as r2 H2. destruct r2 as [rc out]. inv_ret H.
  apply vmr_first_passes in H1 as (Hr & Hv). split; [exact Hr|]. fold labels in Hv.
  apply (for_each_invariant
           (fun st => positive_in labels (fst st) /\ rows_in labels (snd st))) in H2.
  - exact (proj2 H2).
  - intros [rc0 rbw0] rdg [rc1 rbw1] Hin [P1 P2] Hs. cbn [fst snd] in *.
    eapply vmr_second_pass_positive; [exact P1|exact P2| | |exact Hs].
    + intros p l Hp. destruct (Hv p l Hp) as [G|G]; [discriminate|exact G].
    + intros rdg_label Hlab Hsub. now apply vmr_id_In.
  - split; [apply positive_in_nil|apply rows_in_nil].
Qed.

Lemma vmr_unit_spec units : unit_spec (parse_segment cfg) units.
Proof.
  intros u rs rs' out _ H. destruct (parse_segment_rows _ _ H) as (sid & _ & Hr & Ho).
  split; [eexists; exact Hr|]. eapply rows_in_mono; [|exact Ho].
  rewrite Hr. apply incl_appr, incl_refl.
Qed.

Lemma vmr_read_after_raw xml raw :
  read_raw cfg xml = inr raw ->
  split_and_prune raw = inr (pruned raw)
  /\ read cfg xml = postprocess cfg raw.
Proof.
  intros H. split.
  - destruct (assemble_matrix (vmr_unit_spec _) cfg H) as (Hs & _).
    unfold shape in Hs. inversion Hs as [[Hr Hc]].
    apply split_and_prune_total; lia.
  - unfold read. now rewrite H.
Qed.

End VmrSegment.

Lemma vmr_strip_suffixes_failure cfg fuel s f :
  vmr_collation_parser.strip_suffixes cfg fuel s = inl f -> f = Diverged.
Proof.
  revert s. induction fuel as [|fuel IH]; intros s H.
  - now inversion H.
  - cbn [vmr_collation_parser.strip_suffixes] in H.
    destruct (vmr_collation_parser.strip_each_suffix cfg s) as [found b].
    destruct found; [eapply IH, H|].
    destruct (Re.search vmr_collation_parser.fehler_pattern b); [eapply IH, H|].
    destruct (endswith b `"V"); [eapply IH, H|discriminate].
Qed.

Lemma vmr_get_base_wit_failure cfg wit f :
  vmr_collation_parser.get_base_wit cfg wit = inl f ->
  f = Diverged /\ In [] (subwitness_suffixes cfg).
Proof.
  intros H. split; [eapply vmr_strip_suffixes_failure, H|].
  destruct (empty_suffix_or_none (subwitness_suffixes cfg)) as [E|E]; [exact E|].
  destruct (vmr_get_base_wit_returns cfg wit E) as [b Hb]. congruence.
Qed.

Section VmrFailures.
Import vmr_collation_parser.
Variable cfg : settings.

Lemma rdg_label_of_failure rdg f :
  rdg_label_of rdg = inl f -> f = Raised AttributeError /\ attr rdg `"label" = None.
Proof.
  unfold rdg_label_of. destruct (attr rdg `"label"); [discriminate|].
  intros H. inversion H. auto.
Qed.

Lemma expand_parenthetical_suffixes_failure wit_str f :
  expand_parenthetical_suffixes cfg wit_str = inl f ->
  f = Diverged /\ In [] (subwitness_suffixes cfg).
Proof.
  unfold expand_parenthetical_suffixes.
  apply (for_each_failure (fun f => f = Diverged /\ In [] (subwitness_suffixes cfg))).
  intros s [g0 g1] f0 _. destruct (get_base_wit cfg g0) as [g|b] eqn:G; cbn [bind].
  - intros Hb. inversion Hb. subst. eapply vmr_get_base_wit_failure, G.
  - discriminate.
Qed.

Lemma vmr_support_loop_failure rc tokens rbw f :
  for_each_break tokens
    (fun rbw wit =>
       if Re.matches manuscript_witness_pattern wit
       then base_wit <- get_base_wit cfg wit ;;
            rbw <- add_support rc rbw base_wit ;;
            ret (rbw, false)
       else ret (rbw, true)) rbw = inl f ->
  f = Diverged /\ In [] (subwitness_suffixes cfg).
Proof.
  apply (for_each_break_failure (fun f => f = Diverged /\ In [] (subwitness_suffixes cfg))).
  intros s a f0 _. destruct (Re.matches manuscript_witness_pattern a); [|discriminate].
  destruct (get_base_wit cfg a) as [g|b] eqn:G; cbn [bind].
  - intros Hb. inversion Hb. subst. eapply vmr_get_base_wit_failure, G.
  - rewrite add_support_eq. discriminate.
Qed.

Variables (xml : element) (rdgs : list element).

Lemma vmr_first_pass_failure segment_id st rdg f :
  In rdg rdgs ->
  first_pass cfg segment_id st rdg = inl f -> segment_failure cfg xml rdgs f.
Proof.
  intros Hin. destruct st as [rbn rs].
  pose proof (vmr_first_pass_cases cfg segment_id rbn rs rdg) as C.
  destruct (rdg_label_of rdg) as [g|rdg_label] eqn:L.
  - rewrite C. intros H. inversion H. subst g.
    apply rdg_label_of_failure in L as [-> Hl]. left. eauto.
  - destruct (contains (ignored_reading_types cfg) (rdg_type_of rdg_label)
              || contains (trivial_reading_types cfg) (rdg_type_of rdg_label)) eqn:Sk;
      [congruence|].
    destruct (attr rdg `"reading") eqn:T; [congruence|].
    rewrite C. intros H. inversion H. right. left. split; [reflexivity|].
    right. right. exists rdg. split; [exact Hin|]. exists rdg_label. auto.
Qed.

Lemma vmr_update_failure segment_id rbn rc rdg rdg_label f :
  In rdg rdgs -> rdg_label_of rdg = inr rdg_label ->
  contains (ignored_reading_types cfg) (rdg_type_of rdg_label) = false ->
  update_coefficients cfg segment_id rbn rc (rdg_type_of rdg_label) rdg = inl f ->
  segment_failure cfg xml rdgs f.
Proof.
  intros Hin L Hi. unfold update_coefficients. rewrite L.
  destruct (contains (trivial_reading_types cfg) (rdg_type_of rdg_label)) eqn:Ht;
    [discriminate|].
  cbn [negb bind]. unfold rdg_id_of.
  destruct (attr rdg `"reading") eqn:T; cbv [not_none bind ret raise].
  - destruct (str_eqb (rdg_type_of rdg_label) `"ambiguous"); discriminate.
  - intros H. inversion H. right. left. split; [reflexivity|].
    right. right. exists rdg. split; [exact Hin|]. exists rdg_label.
    rewrite Hi, Ht. auto.
Qed.

Lemma vmr_second_pass_failure segment_id rbn st rdg f :
  In rdg rdgs ->
  second_pass cfg segment_id rbn st rdg = inl f -> segment_failure cfg xml rdgs f.
Proof.
  intros Hin. destruct st as [rc rbw]. unfold second_pass.
  destruct (rdg_label_of rdg) as [g|rdg_label] eqn:L; cbn [bind].
  - intros H. inversion H. subst g. apply rdg_label_of_failure in L as [-> Hl].
    left. eauto.
  - destruct (contains (ignored_reading_types cfg) (rdg_type_of rdg_label)) eqn:Hi;
      [discriminate|].
    destruct (update_coefficients cfg segment_id rbn rc (rdg_type_of rdg_label) rdg)
      as [g|[rc' skip]] eqn:U; cbn [bind].
    + intros H. inversion H. subst g. eapply vmr_update_failure; eassumption.
    + destruct skip; [discriminate|].
      destruct (attr rdg `"witnesses") as [ws|]; [|discriminate].
      unfold preprocess_witnesses.
      destruct (expand_parenthetical_suffixes cfg _) as [g|expanded] eqn:X; cbn [bind ret].
      * intros H. inversion H. subst g. right. right.
        eapply expand_parenthetical_suffixes_failure, X.
      * match goal with |- context [for_each_break ?l ?b rbw] =>
          destruct (for_each_break l b rbw) as [g|rbw'] eqn:E end; cbn [bind]; [|discriminate].
        intros H. inversion H. subst g. right. right.
        eapply vmr_support_loop_failure, E.
Qed.

End VmrFailures.

Lemma parse_segment_failure cfg readings xml f :
  vmr_collation_parser.parse_segment cfg readings xml = inl f ->
  segment_failure cfg xml (xpath_descendants `"segmentReading" xml) f.
Proof.
  unfold vmr_collation_parser.parse_segment, vmr_collation_parser.segment_id_of.
  destruct (attr xml `"verse") as [verse|] eqn:V; cbn [not_none bind];
    [|intros H; inversion H; right; left; auto].
  destruct (attr xml `"wordsegs") as [wordsegs|] eqn:W; cbn [not_none bind ret];
    [|intros H; inversion H; right; left; auto].
  destruct (for_each _ (vmr_collation_parser.first_pass cfg _) ([], readings))
    as [g|[rbn rs]] eqn:E1; cbn [bind].
  - intros H. inversion H. subst g.
    eapply (for_each_failure
              (segment_failure cfg xml (xpath_descendants `"segmentReading" xml)));
      [|exact E1].
    intros s a f0 Hin Hb. eapply vmr_first_pass_failure; eassumption.
  - destruct (for_each _ (vmr_collation_parser.second_pass cfg _ rbn) ([], []))
      as [g|[rc rbw]] eqn:E2; cbn [bind]; [|discriminate].
    intros H. inversion H. subst g.
    eapply (for_each_failure
              (segment_failure cfg xml (xpath_descendants `"segmentReading" xml)));
      [|exact E2].
    intros s a f0 Hin Hb. eapply vmr_second_pass_failure; eassumption.
Qed.

Lemma vmr_read_raw_failure cfg xml f :
  vmr_collation_parser.read_raw cfg xml = inl f ->
  exists segment,
    In segment (xpath_anywhere `"segment" xml)
    /\ segment_failure cfg segment (xpath_descendants `"segmentReading" segment) f.
Proof.
  unfold vmr_collation_parser.read_raw.
  apply (@assemble_failure _ _ (vmr_unit_spec cfg _) cfg
           (fun f => exists segment,
                In segment (xpath_anywhere `"segment" xml)
                /\ segment_failure cfg segment
                     (xpath_descendants `"segmentReading" segment) f)).
  intros u rs f0 Hu Hf. exists u. split; [exact Hu|]. eapply parse_segment_failure, Hf.
Qed.

(** ** Brackets *)

Lemma replace_char_filter (s : str) (c : ascii) :
  replace s [c] [] = filter (fun x => negb (Ascii.eqb x c)) s.
Proof.
  unfold replace. induction s as [|x s IH]; [reflexivity|].
  cbn [replace_aux startswith length Nat.sub filter app].
  destruct (Ascii.eqb x c) eqn:E; cbn [andb negb].
  - destruct s; exact IH.
  - now rewrite IH.
Qed.

(** ** Ignored readings *)

Lemma for_each_filter {A S} (p : A -> bool) (l : list A) (body : S -> A -> M S) s :
  (forall s a, In a l -> p a = false -> body s a = inr s) ->
  for_each (filter p l) body s = for_each l body s.
Proof.
  revert s. induction l as [|a l IH]; intros s Hb; [reflexivity|].
  cbn [filter for_each]. destruct (p a) eqn:E.
  - cbn [for_each]. destruct (body s a) as [f|s1]; cbn [bind]; [reflexivity|].
    apply IH. intros s0 a0 H0. apply Hb. now right.
  - rewrite (Hb s a (or_introl eq_refl) E). cbn [bind].
    apply IH. intros s0 a0 H0. apply Hb. now right.
Qed.

(** ** The witnesses of a reading of the room *)

Lemma for_each_break_take_while {A S} (p : A -> bool) (l : list A)
    (step : S -> A -> M S) s :
  for_each_break l (fun s a => if p a then s' <- step s a ;; ret (s', false)
                               else ret (s, true)) s
  = for_each (take_while p l) step s.
Proof.
  revert s. induction l as [|a l IH]; intros s; [reflexivity|].
  cbn [for_each_break take_while]. destruct (p a).
  - cbn [for_each]. destruct (step s a) as [f|s1]; cbn [bind ret]; [reflexivity|apply IH].
  - reflexivity.
Qed.

Lemma vmr_support_loop cfg rc tokens rbw :
  for_each_break tokens
    (fun rbw wit =>
       if Re.matches vmr_collation_parser.manuscript_witness_pattern wit
       then base_wit <- vmr_collation_parser.get_base_wit cfg wit ;;
            rbw <- add_support rc rbw base_wit ;;
            ret (rbw, false)
       else ret (rbw, true)) rbw
  = for_each (take_while (Re.matches vmr_collation_parser.manuscript_witness_pattern) tokens)
      (fun rbw wit => base_wit <- vmr_collation_parser.get_base_wit cfg wit ;;
                      add_support rc rbw base_wit) rbw.
Proof.
  rewrite <- for_each_break_take_while.
  revert rbw. induction tokens as [|a l IH]; intros rbw; [reflexivity|].
  cbn [for_each_break].
  destruct (Re.matches vmr_collation_parser.manuscript_witness_pattern a); [|reflexivity].
  destruct (vmr_collation_parser.get_base_wit cfg a) as [f|b]; cbn [bind]; [reflexivity|].
  destruct (add_support rc rbw b) as [f|rbw1]; cbn [bind ret]; [reflexivity|apply IH].
Qed.

(** ** The entries of the raw matrix *)

Lemma list_set_nth_same {A} (l : list A) j v d :
  j < length l -> nth j (list_set l j v) d = v.
Proof.
  revert j. induction l as [|x l IH]; intros [|j] H; cbn in *; try lia; auto.
  apply IH. lia.
Qed.

Lemma rows_set_entry_same {A} (rows : list (list A)) i j v d :
  i < length rows -> j < length (nth i rows []) ->
  nth j (nth i (rows_set rows i j v) []) d = v.
Proof.
  revert i. induction rows as [|r rows IH]; intros [|i] Hi Hj; cbn in *; try lia.
  - now apply list_set_nth_same.
  - apply IH; [lia|exact Hj].
Qed.

Lemma rows_set_entry_other_row {A} (rows : list (list A)) i j v i0 j0 d :
  i <> i0 -> nth j0 (nth i0 (rows_set rows i j v) []) d = nth j0 (nth i0 rows []) d.
Proof.
  intros Hi. revert i i0 Hi.
  induction rows as [|r rows IH]; intros [|i] [|i0] Hi; cbn; auto; try lia.
Qed.

Lemma setitem_entry (m : ndarray Q) i j v m' i0 j0 :
  well_shaped m -> setitem m i j v = inr m' ->
  entry 0%Q m' i0 j0 = if (i0 =? i) && (j0 =? j) then v else entry 0%Q m i0 j0.
Proof.
  intros Hw. unfold setitem.
  destruct ((i <? nrows m) && (j <? ncols m)) eqn:E; [|discriminate].
  apply andb_true_iff in E as [Ei Ej]. apply Nat.ltb_lt in Ei, Ej.
  intros H. inv_ret H. unfold entry. cbn [data].
  destruct (Nat.eqb_spec i0 i) as [->|Ni]; cbn [andb].
  - destruct (Nat.eqb_spec j0 j) as [->|Nj].
    + apply rows_set_entry_same; [exact Ei|].
      unfold well_shaped in Hw. rewrite Forall_forall in Hw.
      rewrite (Hw (nth i (data m) [])); [exact Ej|]. now apply nth_In.
    + apply rows_set_entry_other. congruence.
  - apply rows_set_entry_other_row. congruence.
Qed.

Lemma index_map_last (l : list str) (x : str) (i : nat) :
  NoDup l -> nth_error l i = Some x -> Dict.get (index_map l) x = Some i.
Proof.
  intros Hn Hi.
  assert (Hin : In x l) by (eapply nth_error_In, Hi).
  destruct (index_map_mem _ _ Hin) as (k & Hk & _).
  pose proof (index_map_get _ _ Hk) as Hk'.
  rewrite Hk. f_equal.
  apply (proj1 (NoDup_nth_error l) Hn); [apply nth_error_Some; congruence|congruence].
Qed.

Section Fill.
Variables (readings witnesses : list str).

Lemma fill_column j (wc : dict Q) (m m' : ndarray Q) :
  NoDup (Dict.keys wc) -> well_shaped m ->
  for_each wc
    (fun m '(rdg, coefficient) =>
       i <- Dict.item (index_map readings) rdg ;; setitem m i j coefficient) m = inr m' ->
  well_shaped m'
  /\ forall i0 j0,
       entry 0%Q m' i0 j0
       = if (j0 =? j) && touched readings wc i0
         then filled readings wc i0 else entry 0%Q m i0 j0.
Proof.
  revert m. induction wc as [|[rdg c] wc IH]; intros m Hn Hw H.
  - inversion H. subst. split; [exact Hw|]. intros i0 j0. unfold touched.
    destruct (nth_error readings i0); cbn; now rewrite andb_false_r.
  - cbn [for_each] in H. inv_bind H as m1 H1. inv_bind H1 as i Hi.
    apply item_inr in Hi. cbn [Dict.keys map fst] in Hn. inversion Hn as [|? ? Hnot Hn']. subst.
    pose proof (proj1 (setitem_keeps _ _ _ _ H1) Hw) as Hw1.
    destruct (IH m1 Hn' Hw1 H) as [Hw' He]. split; [exact Hw'|].
    intros i0 j0. rewrite He. rewrite (@setitem_entry m i j c m1 i0 j0 Hw H1).
    assert (Hmem : Dict.mem wc rdg = false).
    { destruct (Dict.mem wc rdg) eqn:E; [|reflexivity]. apply mem_keys in E. contradiction. }
    pose proof (index_map_get _ _ Hi) as Hrow.
    unfold filled, touched.
    destruct (Nat.eqb_spec j0 j) as [->|Nj]; cbn [andb];
      [rewrite andb_true_r|now rewrite andb_false_r].
    destruct (nth_error readings i0) as [r|] eqn:Er.
    2:{ destruct (Nat.eqb_spec i0 i) as [->|Ni]; [congruence|reflexivity]. }
    unfold Dict.mem. cbn [Dict.get]. rewrite coefficient_cons.
    destruct (str_eqb rdg r) eqn:Eq.
    + apply str_eqb_eq in Eq. subst r. fold (Dict.mem wc rdg). rewrite Hmem.
      unfold is_row_of. rewrite Hi. cbn [andb].
      rewrite (Nat.eqb_sym i0 i). now destruct (i =? i0).
    + fold (Dict.mem wc r).
      destruct (Dict.mem wc r && is_row_of readings i0 r) eqn:E; [reflexivity|].
      destruct (Nat.eqb_spec i0 i) as [->|Ni]; [|reflexivity].
      rewrite Hrow in Er. inversion Er. subst.
      apply str_eqb_neq in Eq. contradiction.
Qed.

End Fill.

Lemma filled_untouched readings d i : touched readings d i = false -> filled readings d i = 0%Q.
Proof.
  unfold touched, filled. destruct (nth_error readings i) as [r|]; [|reflexivity].
  destruct (is_row_of readings i r); [|reflexivity].
  rewrite andb_true_r. unfold Dict.mem, coefficient. now destruct (Dict.get d r).
Qed.

Lemma row_of_cons (wit : str) (wc : dict Q) (part : dict (dict Q)) (w : str) :
  row_of ((wit, wc) :: part) w = if str_eqb wit w then wc else row_of part w.
Proof. unfold row_of. cbn [Dict.get]. now destruct (str_eqb wit w). Qed.

Lemma fill_columns readings witnesses (part : dict (dict Q)) (m m' : ndarray Q) :
  NoDup witnesses -> NoDup (Dict.keys part) ->
  (forall b d, In (b, d) part -> NoDup (Dict.keys d)) ->
  well_shaped m ->
  for_each part
    (fun m '(wit, wit_coefficients) =>
       j <- Dict.item (index_map witnesses) wit ;;
       for_each wit_coefficients
         (fun m '(rdg, coefficient) =>
            i <- Dict.item (index_map readings) rdg ;;
            setitem m i j coefficient) m) m = inr m' ->
  forall i0 j0 w0,
    nth_error witnesses j0 = Some w0 ->
    entry 0%Q m' i0 j0
    = if Dict.mem part w0 && touched readings (row_of part w0) i0
      then filled readings (row_of part w0) i0 else entry 0%Q m i0 j0.
Proof.
  intros Hnw. revert m. induction part as [|[wit wc] part IH]; intros m Hn Hd Hw H i0 j0 w0 Hj0.
  - inversion H. reflexivity.
  - cbn [for_each] in H. inv_bind H as m1 H1. inv_bind H1 as j Hj.
    apply item_inr in Hj. pose proof (index_map_get _ _ Hj) as Hcol.
    cbn [Dict.keys map fst] in Hn. inversion Hn as [|? ? Hnot Hn']. subst.
    destruct (@fill_column readings j wc m m1) as [Hw1 He];
      [eapply Hd; now left|exact Hw|exact H1|].
    rewrite (IH m1 Hn' (fun b d Hb => Hd b d (or_intror Hb)) Hw1 H i0 j0 w0 Hj0).
    rewrite He, row_of_cons. unfold Dict.mem at 2. cbn [Dict.get].
    destruct (str_eqb wit w0) eqn:Eq.
    + apply str_eqb_eq in Eq. subst w0.
      assert (Hmem : Dict.mem part wit = false).
      { destruct (Dict.mem part wit) eqn:E; [|reflexivity]. apply mem_keys in E.
        contradiction. }
      rewrite Hmem. cbn [andb].
      assert (j0 = j).
      { apply (proj1 (NoDup_nth_error witnesses) Hnw);
          [apply nth_error_Some; congruence|congruence]. }
      subst j0. now rewrite Nat.eqb_refl.
    + fold (Dict.mem part w0).
      destruct (Nat.eqb_spec j0 j) as [->|Nj]; cbn [andb]; [|reflexivity].
      rewrite Hcol in Hj0. inversion Hj0. subst. apply str_eqb_neq in Eq. contradiction.
Qed.

Lemma fill_matrix_entry readings witnesses rbw m i j w :
  NoDup witnesses -> Dict.keys rbw = witnesses ->
  (forall b d, In (b, d) rbw -> NoDup (Dict.keys d)) ->
  fill_matrix readings witnesses rbw = inr m ->
  nth_error witnesses j = Some w ->
  entry 0%Q m i j = filled readings (row_of rbw w) i.
Proof.
  intros Hn Hk Hd H Hj. unfold fill_matrix in H.
  fold (index_map readings) in H. fold (index_map witnesses) in H.
  rewrite (@fill_columns readings witnesses rbw
             (zeros (length readings) (length witnesses)) m Hn) with (w0 := w);
    [|now rewrite Hk|exact Hd|apply zeros_fine|exact H|exact Hj].
  rewrite zeros_entry.
  destruct (Dict.mem rbw w && touched readings (row_of rbw w) i) eqn:E; [reflexivity|].
  symmetry. apply filled_untouched.
  apply andb_false_iff in E as [E|E]; [|exact E].
  assert (Dict.mem rbw w = true); [|congruence].
  apply mem_keys. rewrite Hk. eapply nth_error_In, Hj.
Qed.

(** ** Merging the units *)

Lemma overwrite_cons l c (wc d : dict Q) :
  overwrite ((l, c) :: wc) d = overwrite wc (Dict.set d l c).
Proof. reflexivity. Qed.

Lemma coefficient_overwrite (wc d : dict Q) l :
  NoDup (Dict.keys wc) ->
  coefficient (overwrite wc d) l = if Dict.mem wc l then coefficient wc l else coefficient d l.
Proof.
  revert d. induction wc as [|[l0 c0] wc IH]; intros d Hn; [reflexivity|].
  cbn [Dict.keys map fst] in Hn. inversion Hn as [|? ? Hnot Hn']. subst.
  rewrite overwrite_cons, IH by exact Hn'. unfold Dict.mem at 2. cbn [Dict.get].
  rewrite coefficient_cons. destruct (str_eqb l0 l) eqn:E.
  - apply str_eqb_eq in E. subst l0.
    assert (Hm : Dict.mem wc l = false).
    { destruct (Dict.mem wc l) eqn:E; [|reflexivity]. apply mem_keys in E. contradiction. }
    rewrite Hm. apply coefficient_set_same.
  - fold (Dict.mem wc l). apply str_eqb_neq in E.
    destruct (Dict.mem wc l); [reflexivity|]. now apply coefficient_set_other.
Qed.

Lemma merge_steps_row out st b :
  NoDup (Dict.keys out) ->
  row_of (snd (fold_left merge_step out st)) b
  = match Dict.get out b with
    | Some wc => overwrite wc (row_of (snd st) b)
    | None => row_of (snd st) b
    end.
Proof.
  revert st. induction out as [|[wit wc] out IH]; intros [ws rbw] Hn; [reflexivity|].
  cbn [Dict.keys map fst] in Hn. inversion Hn as [|? ? Hnot Hn']. subst.
  cbn [fold_left merge_step]. rewrite IH by exact Hn'. cbn [snd Dict.get].
  destruct (str_eqb wit b) eqn:E.
  - apply str_eqb_eq in E. subst wit.
    assert (Hg : Dict.get out b = None).
    { apply mem_false_get. destruct (Dict.mem out b) eqn:E; [|reflexivity].
      apply mem_keys in E. contradiction. }
    rewrite Hg. apply row_of_set_same.
  - apply str_eqb_neq in E. rewrite row_of_set_other by exact E. reflexivity.
Qed.

Lemma coefficient_absent S d l : positive_in S d -> ~ In l S -> coefficient d l = 0%Q.
Proof.
  intros [_ H] Hl. unfold coefficient. destruct (Dict.get d l) as [x|] eqn:E; [|reflexivity].
  apply get_In in E. destruct (H l x E). contradiction.
Qed.

Lemma mem_absent S d l : positive_in S d -> ~ In l S -> Dict.mem d l = false.
Proof.
  intros [_ H] Hl. unfold Dict.mem. destruct (Dict.get d l) as [x|] eqn:E; [|reflexivity].
  apply get_In in E. destruct (H l x E). contradiction.
Qed.

Lemma support_merge S S' out st w l :
  rows_in S (snd st) -> rows_in S' out ->
  (In l S' -> ~ In l S) ->
  support (snd (fold_left merge_step out st)) w l
  = if existsb (str_eqb l) S' then support out w l else support (snd st) w l.
Proof.
  intros Hr Ho D2. unfold support. rewrite merge_steps_row by exact (proj1 Ho).
  pose proof (row_of_positive w Hr) as Pst. pose proof (row_of_positive w Ho) as Pout.
  unfold row_of at 3. unfold row_of in Pout.
  destruct (existsb (str_eqb l) S') eqn:E.
  - assert (Hin : In l S').
    { apply existsb_exists in E as (x & Hx & Hq). apply str_eqb_eq in Hq. now subst. }
    destruct (Dict.get out w) as [wc|].
    + rewrite coefficient_overwrite by exact (proj1 Pout).
      destruct (Dict.mem wc l) eqn:M; [reflexivity|].
      rewrite (coefficient_absent l Pst (D2 Hin)).
      unfold coefficient. unfold Dict.mem in M. now destruct (Dict.get wc l).
    + rewrite (coefficient_absent l Pst (D2 Hin)). reflexivity.
  - assert (Hnot : ~ In l S').
    { intros Hin. assert (existsb (str_eqb l) S' = true); [|congruence].
      apply existsb_exists. exists l. split; [exact Hin|apply str_eqb_refl]. }
    destruct (Dict.get out w) as [wc|]; [|reflexivity].
    rewrite coefficient_overwrite by exact (proj1 Pout).
    now rewrite (mem_absent l Pout Hnot).
Qed.

Lemma NoDup_app_disjoint {A} (l1 l2 : list A) a :
  NoDup (l1 ++ l2) -> In a l1 -> In a l2 -> False.
Proof.
  induction l1 as [|x l1 IH]; intros Hn H1 H2; [destruct H1|].
  cbn in Hn. inversion Hn as [|? ? Hnot Hn']. subst. destruct H1 as [->|H1].
  - apply Hnot, in_or_app. now right.
  - now apply IH.
Qed.

(** ** The document, unit by unit *)

Section Document.
Variable parse_unit : list str -> element -> M (list str * dict (dict Q)).
Variable labels_of : element -> list str.
Variable map_of : element -> dict (dict Q).
Variable units : list element.
Hypothesis Hunit :
  forall u rs rs' out,
    In u units -> parse_unit rs u = inr (rs', out) ->
    rs' = rs ++ labels_of u /\ rows_in (labels_of u) out /\ out = map_of u.

Lemma collect_steps l st0 st :
  incl l units ->
  for_each l (collect_step parse_unit) st0 = inr st ->
  fst (fst st) = fst (fst st0) ++ flat_map labels_of l
  /\ (rows_in (fst (fst st0)) (snd st0) ->
      NoDup (fst (fst st0) ++ flat_map labels_of l) ->
      rows_in (fst (fst st)) (snd st)
      /\ forall w r,
           (In r (fst (fst st0)) -> support (snd st) w r = support (snd st0) w r)
           /\ (forall u, In u l -> In r (labels_of u) ->
                         support (snd st) w r = support (map_of u) w r)).
Proof.
  revert st0. induction l as [|u l IH]; intros [[rs0 ws0] rbw0] Hi H.
  - inversion H. subst. cbn [fst snd flat_map]. rewrite app_nil_r. split; [reflexivity|].
    intros Hr _. split; [exact Hr|]. intros w r. split; [reflexivity|]. intros u [].
  - cbn [for_each] in H. inv_bind H as st1 H1.
    apply collect_step_inv in H1 as (rs1 & out & Hp & ->).
    assert (Hu : In u units) by (apply Hi; now left).
    destruct (Hunit Hu Hp) as (-> & Ho & Hm).
    apply IH in H as [R1 R2]; [|intros x Hx; apply Hi; now right].
    cbn [fst snd] in *. split; [rewrite R1, <- app_assoc; reflexivity|].
    intros Hr Hn. cbn [flat_map] in Hn. rewrite app_assoc in Hn.
    assert (Hr1 : rows_in (rs0 ++ labels_of u)
                    (snd (fold_left merge_step out (ws0, rbw0)))).
    { apply rows_in_merge_steps.
      - eapply rows_in_mono; [|exact Hr]. apply incl_appl, incl_refl.
      - intros b d Hb. eapply positive_in_mono; [|exact (proj2 Ho b d Hb)].
        apply incl_appr, incl_refl. }
    destruct (R2 Hr1 Hn) as [Rr Rs]. split; [exact Rr|].
    assert (Hdis : forall r, In r (labels_of u) -> ~ In r rs0).
    { intros r Hl H0. apply NoDup_app_remove_r in Hn.
      eapply NoDup_app_disjoint; eassumption. }
    assert (Hmerge : forall w r,
               support (snd (fold_left merge_step out (ws0, rbw0))) w r
               = if existsb (str_eqb r) (labels_of u) then support out w r
                 else support rbw0 w r).
    { intros w r. apply (@support_merge rs0 (labels_of u) out (ws0, rbw0) w r Hr Ho).
      apply Hdis. }
    intros w r. destruct (Rs w r) as [Rs1 Rs2]. split.
    + intros H0. rewrite Rs1 by (apply in_or_app; now left). rewrite Hmerge.
      destruct (existsb (str_eqb r) (labels_of u)) eqn:E; [|reflexivity].
      apply existsb_exists in E as (x & Hx & Hq). apply str_eqb_eq in Hq. subst x.
      exfalso. eapply Hdis; eassumption.
    + intros u' [<-|Hu'] Hl; [|now apply Rs2].
      rewrite Rs1 by (apply in_or_app; now right). rewrite Hmerge.
      assert (E : existsb (str_eqb r) (labels_of u) = true).
      { apply existsb_exists. exists r. split; [exact Hl|apply str_eqb_refl]. }
      rewrite E. now rewrite Hm.
Qed.

Lemma assemble_entries cfg raw :
  assemble cfg parse_unit units = inr raw ->
  readings raw = flat_map labels_of units
  /\ (NoDup (readings raw) ->
      forall u i j r w,
        In u units -> In r (labels_of u) ->
        nth_error (readings raw) i = Some r ->
        nth_error (witnesses raw) j = Some w ->
        entry 0%Q (collation_matrix raw) i j = support (map_of u) w r).
Proof.
  intros H. apply assemble_inv in H as (rbw & Hc & Hm & _).
  pose proof Hc as Hc'. rewrite collect_eq in Hc'.
  apply collect_steps in Hc' as [R1 R2]; [|apply incl_refl]. cbn [fst snd app] in *.
  split; [exact R1|]. intros Hn u i j r w Hu Hl Hi Hj.
  rewrite <- R1 in R2. destruct (R2 (rows_in_nil _) Hn) as [Rr Rs].
  destruct (collect_ok _ _ Hc) as [Hk Hnw].
  rewrite (@fill_matrix_entry (readings raw) (witnesses raw) rbw _ i j w Hnw Hk);
    [|intros b d Hb; exact (proj1 (proj2 Rr b d Hb))|exact Hm|exact Hj].
  unfold filled. rewrite Hi. unfold is_row_of.
  rewrite (index_map_last _ Hn Hi), Nat.eqb_refl.
  exact (proj2 (Rs w r) u Hu Hl).
Qed.

End Document.

(** ** The reading list does not matter to the map of a unit *)

Lemma tei_first_passes_any tei_ns cfg app_id rdgs rbn rs rbn' rs' rs2 :
  for_each rdgs (tei_collation_parser.first_pass tei_ns cfg app_id) (rbn, rs)
  = inr (rbn', rs') ->
  for_each rdgs (tei_collation_parser.first_pass tei_ns cfg app_id) (rbn, rs2)
  = inr (rbn', rs2 ++ tei_labels tei_ns cfg app_id rdgs).
Proof.
  revert rbn rs rs2. induction rdgs as [|rdg rdgs IH]; intros rbn rs rs2 H.
  - inversion H. cbn. now rewrite app_nil_r.
  - cbn [for_each] in *. rewrite tei_labels_cons.
    pose proof (tei_first_pass_cases tei_ns cfg app_id rbn rs rdg) as C.
    pose proof (tei_first_pass_cases tei_ns cfg app_id rbn rs2 rdg) as C2.
    destruct (contains (ignored_reading_types cfg) (tei_collation_parser.rdg_type_of rdg)
              || contains (trivial_reading_types cfg)
                          (tei_collation_parser.rdg_type_of rdg)) eqn:Sk.
    + rewrite C in H. rewrite C2. cbn [bind] in *.
      assert (Ns : is_substantive cfg rdg = false).
      { unfold is_substantive. now rewrite Sk. }
      rewrite Ns. cbn [app]. eapply IH, H.
    + destruct (attr rdg `"n") as [rdg_n|]; [|rewrite C in H; discriminate].
      rewrite C in H. rewrite C2. cbn [bind or_empty] in *.
      destruct (is_substantive cfg rdg).
      * rewrite (IH _ _ (rs2 ++ [tei_label tei_ns app_id rdg_n rdg]) H).
        now rewrite <- app_assoc.
      * cbn [app]. eapply IH, H.
Qed.

Lemma parse_app_map tei_ns xml_ns cfg readings app readings' out :
  tei_collation_parser.parse_app tei_ns xml_ns cfg readings app = inr (readings', out) ->
  out = tei_unit_map tei_ns xml_ns cfg app.
Proof.
  intros H. unfold tei_unit_map. apply parse_app_inv in H as (rbn & rc & H1 & H2).
  pose proof (@tei_first_passes_any _ _ _ _ _ _ _ _ [] H1) as E1.
  unfold tei_collation_parser.parse_app. cbv zeta.
  match goal with
  | |- context [bind (for_each ?l ?b ?s) _] =>
      replace (for_each l b s) with (@inr failure _ (rbn, [] ++ tei_labels tei_ns cfg
                 (tei_collation_parser.app_id_of xml_ns app) l)) by (symmetry; exact E1)
  end.
  cbn [bind]. rewrite H2. reflexivity.
Qed.

Lemma vmr_first_passes_any cfg segment_id rdgs rbn rs rbn' rs' rs2 :
  for_each rdgs (vmr_collation_parser.first_pass cfg segment_id) (rbn, rs)
  = inr (rbn', rs') ->
  for_each rdgs (vmr_collation_parser.first_pass cfg segment_id) (rbn, rs2)
  = inr (rbn', rs2 ++ vmr_labels cfg segment_id rdgs).
Proof.
  revert rbn rs rs2. induction rdgs as [|rdg rdgs IH]; intros rbn rs rs2 H.
  - inversion H. cbn. now rewrite app_nil_r.
  - cbn [for_each] in *. unfold vmr_labels. cbn [flat_map].
    fold (vmr_labels cfg segment_id rdgs).
    pose proof (vmr_first_pass_cases cfg segment_id rbn rs rdg) as C.
    pose proof (vmr_first_pass_cases cfg segment_id rbn rs2 rdg) as C2.
    destruct (vmr_collation_parser.rdg_label_of rdg) as [f|rdg_label];
      [rewrite C in H; discriminate|].
    destruct (contains (ignored_reading_types cfg)
                (vmr_collation_parser.rdg_type_of rdg_label)
              || contains (trivial_reading_types cfg)
                          (vmr_collation_parser.rdg_type_of rdg_label)) eqn:Sk.
    + rewrite C in H. rewrite C2. cbn [bind] in *.
      assert (Ns : vmr_is_substantive cfg rdg_label = false).
      { unfold vmr_is_substantive. now rewrite Sk. }
      rewrite Ns. cbn [app]. eapply IH, H.
    + destruct (attr rdg `"reading") as [t|]; [|rewrite C in H; discriminate].
      rewrite C in H. rewrite C2. cbn [bind] in *.
      destruct (vmr_is_substantive cfg rdg_label).
      * rewrite (IH _ _ (rs2 ++ [vmr_id segment_id rdg_label rdg]) H).
        now rewrite <- app_assoc.
      * cbn [app]. eapply IH, H.
Qed.

Lemma segment_id_of_inr xml segment_id :
  vmr_collation_parser.segment_id_of xml = inr segment_id ->
  segment_id = or_empty (attr xml `"verse") ++ `"/" ++ or_empty (attr xml `"wordsegs").
Proof.
  unfold vmr_collation_parser.segment_id_of.
  destruct (attr xml `"verse"); [|discriminate].
  destruct (attr xml `"wordsegs"); [|discriminate].
  cbn. intros H. now inversion H.
Qed.

Lemma parse_segment_map cfg readings segment readings' out :
  vmr_collation_parser.parse_segment cfg readings segment = inr (readings', out) ->
  out = vmr_unit_map cfg segment.
Proof.
  intros H. unfold vmr_unit_map. unfold vmr_collation_parser.parse_segment in *.
  inv_bind H as segment_id Hid. rewrite Hid. cbn [bind].
  inv_bind H as r1 H1. destruct r1 as [rbn rs].
  inv_bind H as r2 H2. destruct r2 as [rc out']. inv_ret H.
  pose proof (@vmr_first_passes_any _ _ _ _ _ _ _ [] H1) as E1.
  match goal with
  | |- context [bind (for_each ?l ?b ?s) _] =>
      replace (for_each l b s) with (@inr failure _ (rbn, [] ++ vmr_labels cfg segment_id l))
        by (symmetry; exact E1)
  end.
  cbn [bind]. rewrite H2. reflexivity.
Qed.

Lemma tei_units tei_ns xml_ns cfg (units : list element) u rs rs' out :
  In u units ->
  tei_collation_parser.parse_app tei_ns xml_ns cfg rs u = inr (rs', out) ->
  rs' = rs ++ tei_unit_labels tei_ns xml_ns cfg u
  /\ rows_in (tei_unit_labels tei_ns xml_ns cfg u) out
  /\ out = tei_unit_map tei_ns xml_ns cfg u.
Proof.
  intros _ H. destruct (parse_app_rows _ _ _ _ _ H) as [Hr Ho].
  split; [exact Hr|]. split; [exact Ho|]. eapply parse_app_map, H.
Qed.

Lemma vmr_units cfg (units : list element) u rs rs' out :
  In u units ->
  vmr_collation_parser.parse_segment cfg rs u = inr (rs', out) ->
  rs' = rs ++ vmr_unit_labels cfg u
  /\ rows_in (vmr_unit_labels cfg u) out
  /\ out = vmr_unit_map cfg u.
Proof.
  intros _ H. destruct (parse_segment_rows _ _ _ H) as (sid & Hid & Hr & Ho).
  apply segment_id_of_inr in Hid. subst sid.
  split; [exact Hr|]. split; [exact Ho|]. eapply parse_segment_map, H.
Qed.

(** ** Regular expressions *)

Lemma match_here_explains re at_start s ts :
  Re.match_here re at_start s = Some ts -> explains re ts s.
Proof.
  revert at_start s ts. induction re as [|a re IH]; intros at_start s ts H.
  - cbn in H. inversion H. exact I.
  - destruct a as [p|p| |]; cbn [Re.match_here] in H.
    + destruct s as [|c s]; [discriminate|]. destruct (p c) eqn:E; [|discriminate].
      destruct (Re.match_here re false s) as [ts'|] eqn:M; [|discriminate].
      inversion H. subst. cbn [explains]. exists s. split; [reflexivity|].
      split; [now exists c|]. eapply IH, M.
    + revert at_start ts H. induction s as [|c s IHs]; intros at_start ts H.
      * destruct (Re.match_here re at_start []) as [ts'|] eqn:M; [|discriminate].
        inversion H. subst. cbn [explains]. exists []. split; [reflexivity|].
        split; [reflexivity|]. eapply IH, M.
      * destruct (p c) eqn:E.
        -- match type of H with
           | match ?star with _ => _ end = _ => destruct star as [[|t ts']|] eqn:S
           end.
           ++ destruct (Re.match_here re at_start (c :: s)) as [ts'|] eqn:M; [|discriminate].
              inversion H. subst. cbn [explains]. exists (c :: s). split; [reflexivity|].
              split; [reflexivity|]. eapply IH, M.
           ++ inversion H. subst. apply IHs in S. cbn [explains] in *.
              destruct S as (s' & Hs & Ht & Hr). exists s'. split; [now rewrite Hs|].
              split; [|exact Hr]. cbn [atom_text forallb] in *. now rewrite E, Ht.
           ++ destruct (Re.match_here re at_start (c :: s)) as [ts'|] eqn:M; [|discriminate].
              inversion H. subst. cbn [explains]. exists (c :: s). split; [reflexivity|].
              split; [reflexivity|]. eapply IH, M.
        -- destruct (Re.match_here re at_start (c :: s)) as [ts'|] eqn:M; [|discriminate].
           inversion H. subst. cbn [explains]. exists (c :: s). split; [reflexivity|].
           split; [reflexivity|]. eapply IH, M.
    + destruct at_start; [|discriminate].
      destruct (Re.match_here re true s) as [ts'|] eqn:M; [|discriminate].
      inversion H. subst. cbn [explains]. exists s. split; [reflexivity|].
      split; [reflexivity|]. eapply IH, M.
    + destruct s as [|c [|c' s]].
      * destruct (Re.match_here re at_start []) as [ts'|] eqn:M; [|discriminate].
        inversion H. subst. cbn [explains]. exists []. split; [reflexivity|].
        split; [cbn; auto|]. eapply IH, M.
      * destruct (Ascii.eqb c "010") eqn:E; [|discriminate]. apply Ascii.eqb_eq in E. subst c.
        destruct (Re.match_here re at_start ["010"%char]) as [ts'|] eqn:M; [|discriminate].
        inversion H. subst. cbn [explains]. exists ["010"%char]. split; [reflexivity|].
        split; [cbn; auto|]. eapply IH, M.
      * discriminate.
Qed.

Lemma findall_aux_none (re : Re.regex) (P : str -> Prop) :
  (forall at_start s ts, Re.match_here re at_start s = Some ts -> ~ P s) ->
  (forall c s, P (c :: s) -> P s) ->
  forall s at_start skip, P s -> Re.findall_aux re at_start skip s = [].
Proof.
  intros Hm Ht. induction s as [|c s IH]; intros at_start skip Hs; [reflexivity|].
  cbn [Re.findall_aux]. destruct skip as [|k].
  - destruct (Re.match_here re at_start (c :: s)) as [ts|] eqn:M.
    + exfalso. exact (Hm _ _ _ M Hs).
    + apply IH. eapply Ht, Hs.
  - apply IH. eapply Ht, Hs.
Qed.

Lemma explains_cons a re ts s :
  explains (a :: re) ts s ->
  exists t ts' s', ts = t :: ts' /\ s = t ++ s' /\ atom_text a t s' /\ explains re ts' s'.
Proof.
  destruct ts as [|t ts']; cbn [explains]; [intros []|].
  intros (s' & H1 & H2 & H3). now exists t, ts', s'.
Qed.

Lemma parentheses_pattern_needs_one at_start s ts :
  Re.match_here vmr_collation_parser.witness_with_parentheses_pattern at_start s = Some ts ->
  In "("%char s.
Proof.
  intros H. apply match_here_explains in H.
  unfold vmr_collation_parser.witness_with_parentheses_pattern in H.
  apply explains_cons in H as (t0 & ts0 & s0 & _ & -> & _ & H).
  apply explains_cons in H as (t1 & ts1 & s1 & _ & -> & _ & H).
  apply explains_cons in H as (t2 & ts2 & s2 & _ & -> & (c & -> & Hc) & _).
  apply in_or_app. right. apply in_or_app. right. left.
  unfold vmr_collation_parser.is_char in Hc. apply Ascii.eqb_eq in Hc. now subst.
Qed.

Lemma lstrip_if_app p (pre rest : str) :
  forallb p pre = true -> lstrip_if p (pre ++ rest) = lstrip_if p rest.
Proof.
  induction pre as [|c pre IH]; [reflexivity|]. cbn [forallb app lstrip_if].
  intros H. apply andb_true_iff in H as [Hc Hp]. rewrite Hc. now apply IH.
Qed.

Lemma forallb_rev {A} (p : A -> bool) (l : list A) : forallb p (rev l) = forallb p l.
Proof.
  induction l as [|x l IH]; [reflexivity|]. cbn [rev forallb].
  rewrite forallb_app, IH. cbn. rewrite andb_true_r. apply andb_comm.
Qed.

Lemma suffixed_pattern_last_letter (x : ascii) (s : str) :
  isdigit x = false -> Ascii.eqb x "010" = false ->
  Re.matches [Re.Bol; Re.Chr islower_az; Re.Star islower_az;
              Re.Chr (vmr_collation_parser.is_char x); Re.Star isdigit; Re.Eol] s = true ->
  last_letter s = Some x.
Proof.
  intros Hd Hn. unfold Re.matches.
  destruct (Re.match_here _ true s) as [ts|] eqn:M; [|discriminate]. intros _.
  apply match_here_explains in M.
  apply explains_cons in M as (t0 & ts0 & s0 & _ & -> & E0 & M).
  apply explains_cons in M as (t1 & ts1 & s1 & _ & -> & _ & M).
  apply explains_cons in M as (t2 & ts2 & s2 & _ & -> & _ & M).
  apply explains_cons in M as (t3 & ts3 & s3 & _ & -> & (c & -> & Hc) & M).
  apply explains_cons in M as (t4 & ts4 & s4 & _ & -> & E4 & M).
  apply explains_cons in M as (t5 & ts5 & s5 & _ & -> & (-> & E5) & _).
  cbn [atom_text] in E0, E4. subst t0.
  unfold vmr_collation_parser.is_char in Hc. apply Ascii.eqb_eq in Hc. subst c.
  unfold last_letter.
  replace ([] ++ t1 ++ t2 ++ [x] ++ t4 ++ [] ++ s5) with ((t1 ++ t2) ++ x :: (t4 ++ s5))
    by (cbn [app]; now rewrite <- app_assoc).
  rewrite rev_app_distr. cbn [rev]. rewrite <- app_assoc.
  rewrite lstrip_if_app.
  2:{ rewrite forallb_rev, forallb_app. apply andb_true_iff. split.
      - clear -E4. induction t4 as [|d t4 IH]; [reflexivity|].
        cbn [forallb] in *. apply andb_true_iff in E4 as [-> E4]. cbn. now apply IH.
      - destruct E5 as [->| ->]; reflexivity. }
  cbn [app lstrip_if]. now rewrite Hd, Hn.
Qed.

Lemma match_here_star_cons p re at_start c s :
  Re.match_here (Re.Star p :: re) at_start (c :: s)
  = let stop := option_map (cons []) (Re.match_here re at_start (c :: s)) in
    if p c
    then match Re.match_here (Re.Star p :: re) false s with
         | Some (t :: ts) => Some ((c :: t) :: ts)
         | _ => stop
         end
    else stop.
Proof. reflexivity. Qed.

Lemma match_here_star_nil p re at_start :
  Re.match_here (Re.Star p :: re) at_start []
  = option_map (cons []) (Re.match_here re at_start []).
Proof. reflexivity. Qed.

Lemma match_here_star_alone p at_start s :
  exists t, Re.match_here [Re.Star p] at_start s = Some [t].
Proof.
  revert at_start. induction s as [|c s IH]; intros at_start.
  - now exists [].
  - rewrite match_here_star_cons. cbn zeta. destruct (p c).
    + destruct (IH false) as [t ->]. now exists (c :: t).
    + now exists [].
Qed.

Lemma match_here_chr_cons p re at_start c s :
  Re.match_here (Re.Chr p :: re) at_start (c :: s)
  = if p c then option_map (cons [c]) (Re.match_here re false s) else None.
Proof. reflexivity. Qed.

Lemma manuscript_pattern_after_sigla at_start (w : str) :
  match Re.match_here [Re.Star (has_char `"PL"); Re.Chr isdigit; Re.Star isdigit] at_start w
  with
  | Some ts => ts <> []
               /\ match lstrip_if (has_char `"PL") w with
                  | c :: _ => isdigit c = true
                  | [] => False
                  end
  | None => match lstrip_if (has_char `"PL") w with
            | c :: _ => isdigit c = false
            | [] => True
            end
  end.
Proof.
  revert at_start. induction w as [|c w IH]; intros at_start.
  - rewrite match_here_star_nil. cbn. exact I.
  - rewrite match_here_star_cons. cbn zeta. cbn [lstrip_if].
    destruct (has_char `"PL" c) eqn:E.
    + specialize (IH false).
      destruct (Re.match_here [Re.Star (has_char `"PL"); Re.Chr isdigit; Re.Star isdigit]
                  false w) as [[|t ts]|].
      * destruct IH as [N _]. now contradiction N.
      * split; [discriminate|exact (proj2 IH)].
      * assert (D : isdigit c = false).
        { unfold has_char in E. cbn in E. rewrite orb_false_r in E.
          apply orb_true_iff in E as [E|E]; apply Ascii.eqb_eq in E; now subst. }
        rewrite match_here_chr_cons, D. cbn [option_map]. exact IH.
    + rewrite match_here_chr_cons. destruct (isdigit c) eqn:D.
      * destruct (match_here_star_alone isdigit false w) as [t ->]. cbn [option_map].
        split; [discriminate|reflexivity].
      * cbn [option_map]. reflexivity.
Qed.

(** ** The support of a substantive reading *)

Lemma support_single label bs rbw b l :
  (support (distribute [(label, 1%Q)] bs rbw) b l
   == support rbw b l + (if str_eqb label l then occurrences bs b else 0))%Q.
Proof.
  rewrite support_distribute by (repeat constructor; intros []).
  rewrite coefficient_cons. unfold occurrences.
  destruct (str_eqb label l).
  - now rewrite Qmult_1_r.
  - unfold coefficient. cbn [Dict.get]. now rewrite Qmult_0_r.
Qed.

(** ** The threshold *)

Lemma threshold_bounds (p : Q) (n : nat) :
  (0 <= p)%Q -> (p <= 1)%Q ->
  (0 <= int_of_float (p * inject_Z (Z.of_nat n)) <= Z.of_nat n)%Z.
Proof.
  intros H0 H1.
  assert (Hn : (0 <= inject_Z (Z.of_nat n))%Q) by (unfold Qle; cbn; lia).
  assert (Hx : (0 <= p * inject_Z (Z.of_nat n))%Q) by now apply Qmult_le_0_compat.
  rewrite int_of_float_floor by exact Hx. split.
  - change 0%Z with (Qfloor 0). now apply Qfloor_resp_le.
  - rewrite <- (Qfloor_Z (Z.of_nat n)) at 2. apply Qfloor_resp_le.
    rewrite <- (Qmult_1_l (inject_Z (Z.of_nat n))) at 2.
    now apply Qmult_le_compat_r.
Qed.

(** ** Labels that occur twice *)

Lemma enumerate_snoc {A} (l : list A) (y : A) :
  enumerate (l ++ [y]) = enumerate l ++ [(length l, y)].
Proof.
  unfold enumerate.
  assert (G : forall start,
             combine (seq start (length (l ++ [y]))) (l ++ [y])
             = combine (seq start (length l)) l ++ [(start + length l, y)]).
  { induction l as [|x l IH]; intros start; cbn [length app seq combine].
    - now rewrite Nat.add_0_r.
    - rewrite IH. cbn [app]. now rewrite Nat.add_succ_comm. }
  apply (G 0).
Qed.

Lemma index_map_snoc (l : list str) (y : str) :
  index_map (l ++ [y]) = Dict.set (index_map l) y (length l).
Proof. unfold index_map. now rewrite enumerate_snoc, fold_left_app. Qed.

Lemma index_map_is_last (l : list str) (x : str) (k i : nat) :
  Dict.get (index_map l) x = Some k -> nth_error l i = Some x -> i <= k.
Proof.
  revert k i. induction l as [|y l IH] using rev_ind; intros k i Hk Hi.
  - now destruct i.
  - rewrite index_map_snoc in Hk.
    assert (Li : i < length (l ++ [y])) by (apply nth_error_Some; congruence).
    rewrite length_app in Li. cbn [length] in Li.
    destruct (str_eq_dec y x) as [->|Ne].
    + rewrite get_set_same in Hk. inversion Hk. lia.
    + rewrite get_set_other in Hk by exact Ne.
      destruct (Nat.eq_dec i (length l)) as [->|Ni].
      * rewrite nth_error_app2, Nat.sub_diag in Hi by lia. cbn in Hi. congruence.
      * rewrite nth_error_app1 in Hi by lia. now apply IH.
Qed.

Lemma assemble_duplicate_row cfg parse_unit units raw i k r j :
  unit_spec parse_unit units ->
  assemble cfg parse_unit units = inr raw ->
  nth_error (readings raw) i = Some r ->
  nth_error (readings raw) k = Some r ->
  i < k -> j < length (witnesses raw) ->
  entry 0%Q (collation_matrix raw) i j = 0%Q.
Proof.
  intros Hspec H Hi Hk Lt Hj. apply assemble_inv in H as (rbw & Hc & Hm & _).
  destruct (collect_ok _ _ Hc) as [Hkeys Hnw].
  pose proof (collect_rows Hspec Hc) as Hr.
  destruct (nth_error (witnesses raw) j) as [w|] eqn:Ew;
    [|apply nth_error_None in Ew; lia].
  rewrite (@fill_matrix_entry (readings raw) (witnesses raw) rbw _ i j w Hnw Hkeys);
    [|intros b d Hb; exact (proj1 (proj2 Hr b d Hb))|exact Hm|exact Ew].
  unfold filled. rewrite Hi. unfold is_row_of.
  destruct (Dict.get (index_map (readings raw)) r) as [k'|] eqn:G; [|reflexivity].
  destruct (Nat.eqb_spec k' i) as [->|Ne]; [|reflexivity].
  pose proof (index_map_is_last _ _ G Hk). lia.
Qed.

(** ** The text of a reading *)

Lemma replace_aux_skip old new (pre rest : str) :
  replace_aux old new (length pre) (pre ++ rest) = replace_aux old new 0 rest.
Proof. induction pre as [|c pre IH]; [reflexivity|exact IH]. Qed.

Lemma startswith_app (p rest : str) : startswith (p ++ rest) p = true.
Proof.
  induction p as [|c p IH]; [now destruct rest|]. cbn [app startswith].
  now rewrite Ascii.eqb_refl, IH.
Qed.

Lemma replace_aux_absent (c : ascii) (old new s : str) :
  ~ In c s -> replace_aux (c :: old) new 0 s = s.
Proof.
  induction s as [|x s IH]; intros H; [reflexivity|].
  cbn [replace_aux startswith].
  destruct (Ascii.eqb x c) eqn:E.
  - apply Ascii.eqb_eq in E. subst. exfalso. apply H. now left.
  - cbn [andb]. f_equal. apply IH. intros I. apply H. now right.
Qed.

Lemma raw_tag_of_qname (ns name : str) :
  ~ In "{"%char name -> replace (qname ns name) (`"{" ++ ns ++ `"}") [] = name.
Proof.
  intros H. unfold qname, replace. cbn [lit list_ascii_of_string app].
  cbn [replace_aux].
  replace (startswith ("{"%char :: ns ++ "}"%char :: name) ("{"%char :: ns ++ ["}"%char]))
    with true.
  2:{ symmetry. change ("{"%char :: ns ++ "}"%char :: name)
        with (("{"%char :: ns) ++ "}"%char :: name).
      replace (("{"%char :: ns) ++ "}"%char :: name)
        with (("{"%char :: ns ++ ["}"%char]) ++ name)
        by (cbn [app]; now rewrite <- app_assoc).
      apply startswith_app. }
  cbn [app length Nat.sub]. rewrite Nat.sub_0_r.
  replace (ns ++ "}"%char :: name) with ((ns ++ ["}"%char]) ++ name)
    by (now rewrite <- app_assoc).
  rewrite replace_aux_skip. now apply replace_aux_absent.
Qed.

Lemma serialize_eq tei_ns tag attrs text tail kids :
  tei_collation_parser.serialize tei_ns (Element tag attrs text tail kids)
  = let xml := Element tag attrs text tail kids in
    let raw_tag := replace tag (`"{" ++ tei_ns ++ `"}") [] in
    let kids := map (tei_collation_parser.serialize tei_ns) kids in
    if str_eqb raw_tag `"rdg" then or_empty text ++ join `" " kids
    else if contains [`"w"; `"abbr"; `"hi"] raw_tag
         then or_empty text ++ join [] kids ++ or_empty tail
    else if str_eqb raw_tag `"space" then
      `"[" ++ `"space"
      ++ match attr xml `"reason" with
         | Some reason => `" " ++ `"(" ++ reason ++ `")"
         | None => []
         end
      ++ tei_collation_parser.extent_of xml ++ `"]" ++ or_empty tail
    else if str_eqb raw_tag `"ex" then
      `"(" ++ or_empty text ++ join `" " kids ++ `")" ++ or_empty tail
    else if str_eqb raw_tag `"gap" then
      `"[" ++ `"gap"
      ++ match attr xml `"reason" with
         | Some reason => `" " ++ `"(" ++ reason ++ `")" ++ reason
         | None => []
         end
      ++ tei_collation_parser.extent_of xml ++ `"]" ++ or_empty tail
    else if contains [`"unclear"; `"supplied"] raw_tag then
      `"[" ++ or_empty text ++ join `" " kids ++ `"]" ++ or_empty tail
    else if str_eqb raw_tag `"choice" then
      `"[" ++ or_empty text ++ join `"/" kids ++ `"]" ++ or_empty tail
    else if str_eqb raw_tag `"ref" then
      `"[" ++ or_empty text ++ `"]" ++ or_empty tail
    else [].
Proof. reflexivity. Qed.

(** ** A document without units *)

Lemma int_of_float_zero (p : Q) : int_of_float (p * inject_Z (Z.of_nat 0)) = 0%Z.
Proof. unfold int_of_float. cbn. now rewrite Z.mul_0_r. Qed.

Lemma postprocess_empty cfg : postprocess cfg empty_parser = inr (as_real empty_parser).
Proof. unfold postprocess. cbn. now destruct (use_tfidf cfg). Qed.

(** ** The preprocessing of a witness string *)

Lemma remove_brackets_all (s : str) :
  vmr_collation_parser.remove_angle_brackets (vmr_collation_parser.remove_square_brackets s)
  = filter (fun c => negb (has_char `"[]>" c)) s.
Proof.
  unfold vmr_collation_parser.remove_square_brackets,
    vmr_collation_parser.remove_angle_brackets.
  change `"[" with ["["%char]. change `"]" with ["]"%char]. change `">" with [">"%char].
  rewrite !replace_char_filter.
  induction s as [|x s IH]; [reflexivity|].
  cbn [filter has_char existsb lit list_ascii_of_string].
  destruct (Ascii.eqb x "[") eqn:E1; cbn [negb orb filter]; [exact IH|].
  destruct (Ascii.eqb x "]") eqn:E2; cbn [negb orb filter]; [exact IH|].
  destruct (Ascii.eqb x ">") eqn:E3; cbn [negb orb filter]; [exact IH|].
  now rewrite IH.
Qed.

(** * The further properties, one by one *)

(** ** X1: What the TEI normaliser leaves *)

(** X1.  When no configured suffix is the empty string, the TEI [get_base_wit]
    returns for every token. Its result is a prefix of the token stripped of
    [#] at both ends, and ends in none of the configured suffixes. The token
    comes back as it is exactly when it neither starts nor ends with [#] and
    ends in no configured suffix. *)
Theorem tei_get_base_wit_clean cfg wit :
  Forall (fun suffix => suffix <> []) (subwitness_suffixes cfg) ->
  exists base,
    tei_collation_parser.get_base_wit cfg wit = inr base
    /\ (exists t, strip_chars wit `"#" = base ++ t)
    /\ Forall (fun suffix => endswith base suffix = false) (subwitness_suffixes cfg)
    /\ (base = wit
        <-> hd_error wit <> Some hash
            /\ endswith wit [hash] = false
            /\ Forall (fun suffix => endswith wit suffix = false) (subwitness_suffixes cfg)).
Proof.
  intros Hne. destruct (tei_get_base_wit_returns cfg wit Hne) as [base Hb].
  exists base. split; [exact Hb|].
  assert (Hfix : Forall (fun suffix => endswith base suffix = false) (subwitness_suffixes cfg)).
  { apply find_none_Forall. unfold tei_collation_parser.get_base_wit in Hb.
    eapply tei_strip_suffixes_fixed, Hb. }
  split; [eapply tei_strip_suffixes_prefix, Hb|]. split; [exact Hfix|]. split.
  - intros ->. split; [eapply tei_get_base_wit_head, Hb|]. split; [|exact Hfix].
    destruct (endswith wit [hash]) eqn:E; [|reflexivity].
    pose proof (tei_get_base_wit_length _ _ Hb). pose proof (strip_hash_shorter _ E). lia.
  - intros (Hh & Ht & Hs).
    unfold tei_collation_parser.get_base_wit in Hb.
    rewrite (strip_hash_id _ Hh Ht) in Hb.
    rewrite tei_strip_suffixes_at_fixed in Hb by now apply find_none_Forall.
    now inversion Hb.
Qed.

Lemma tei_get_base_wit_clean_witness :
  Forall (fun suffix => suffix <> []) (subwitness_suffixes (tei_settings 1 false))
  /\ tei_collation_parser.get_base_wit (tei_settings 1 false) `"#01C*" = inr `"01"
  /\ Forall (fun suffix => endswith `"01" suffix = false)
            (subwitness_suffixes (tei_settings 1 false)).
Proof.
  destruct (@tei_get_base_wit_clean (tei_settings 1 false) `"#01C*"
              (tei_settings_suffixes 1 false)) as (base & Hb & _ & Hs & _).
  assert (E : base = `"01").
  { assert (inr base = @inr failure str `"01") by (rewrite <- Hb; reflexivity). congruence. }
  subst. split; [exact (tei_settings_suffixes 1 false)|]. split; [exact Hb|exact Hs].
Defined.

(** ** X2: What the normaliser of the room leaves *)

(** X2.  When no configured suffix is the empty string, [get_base_wit] of the
    room returns for every siglum. Its result is a prefix of the siglum that
    ends in no configured suffix, in no error suffix (an [f] and digits, the
    [fehler_pattern]) and not in [V]. The siglum comes back as it is exactly
    when it has none of these endings. *)
Theorem vmr_get_base_wit_clean cfg wit :
  Forall (fun suffix => suffix <> []) (subwitness_suffixes cfg) ->
  exists base,
    vmr_collation_parser.get_base_wit cfg wit = inr base
    /\ (exists t, wit = base ++ t)
    /\ Forall (fun suffix => endswith base suffix = false) (subwitness_suffixes cfg)
    /\ Re.search vmr_collation_parser.fehler_pattern base = None
    /\ endswith base `"V" = false
    /\ (base = wit
        <-> Forall (fun suffix => endswith wit suffix = false) (subwitness_suffixes cfg)
            /\ Re.search vmr_collation_parser.fehler_pattern wit = None
            /\ endswith wit `"V" = false).
Proof.
  intros Hne. destruct (vmr_get_base_wit_returns cfg wit Hne) as [base Hb].
  exists base. split; [exact Hb|].
  pose proof Hb as Hb'. unfold vmr_collation_parser.get_base_wit in Hb'.
  destruct (vmr_strip_suffixes_fixed _ _ _ Hb') as (H1 & H2 & H3).
  assert (Hfix : Forall (fun suffix => endswith base suffix = false) (subwitness_suffixes cfg)).
  { rewrite strip_each_suffix_fold in H1. eapply turns_none_found, H1. }
  split; [eapply vmr_strip_suffixes_prefix, Hb'|].
  split; [exact Hfix|]. split; [exact H2|]. split; [exact H3|]. split.
  - intros <-. auto.
  - intros (Hs & Hf & Hv).
    rewrite vmr_strip_suffixes_at_fixed in Hb'; auto.
    + now inversion Hb'.
    + rewrite strip_each_suffix_fold. now apply turns_fixed.
Qed.

Lemma vmr_get_base_wit_clean_witness :
  Forall (fun suffix => suffix <> []) (subwitness_suffixes (tei_settings 1 false))
  /\ vmr_collation_parser.get_base_wit (tei_settings 1 false) `"P74Vf1C" = inr `"P74"
  /\ endswith `"P74" `"V" = false.
Proof.
  destruct (@vmr_get_base_wit_clean (tei_settings 1 false) `"P74Vf1C"
              (tei_settings_suffixes 1 false)) as (base & Hb & _ & _ & _ & Hv & _).
  assert (E : base = `"P74").
  { assert (inr base = @inr failure str `"P74") by (rewrite <- Hb; reflexivity). congruence. }
  subst. split; [exact (tei_settings_suffixes 1 false)|]. split; [exact Hb|exact Hv].
Defined.

(** ** X3: Manuscript sigla *)

(** X3.  A siglum matches [manuscript_witness_pattern] exactly when the first
    character after its leading [P]s and [L]s is a digit. *)
Theorem manuscript_witness_pattern_matches (wit : str) :
  Re.matches vmr_collation_parser.manuscript_witness_pattern wit
  = match lstrip_if (has_char `"PL") wit with
    | c :: _ => isdigit c
    | [] => false
    end.
Proof.
  unfold Re.matches, vmr_collation_parser.manuscript_witness_pattern.
  change (Re.match_here (Re.Bol :: ?re) true ?s)
    with (option_map (cons (@nil ascii)) (Re.match_here re true s)).
  pose proof (manuscript_pattern_after_sigla true wit) as H.
  destruct (Re.match_here [Re.Star (has_char `"PL"); Re.Chr isdigit; Re.Star isdigit]
              true wit) as [ts|]; cbn [option_map].
  - destruct H as [_ H]. destruct (lstrip_if (has_char `"PL") wit); [destruct H|].
    now rewrite H.
  - destruct (lstrip_if (has_char `"PL") wit); [reflexivity|]. now rewrite H.
Qed.

(** ** X4: The type of a reading of the room *)

(** X4.  The five tests by which [parse_segment] reads the type off the label of
    a reading never compete, although each of them overwrites the type set by
    the ones before. A label that matches the orthographic pattern has [o] as
    its last character that is no digit and no line feed, a label that matches
    the defective pattern has [f]; so no label matches both, and a label that
    matches either is none of [zu], [zw] and [zz]. The type is the one of the
    test that holds, and empty when none holds. *)
Theorem vmr_rdg_type_of_cases (rdg_label : str) :
  let orthographic :=
    Re.matches vmr_collation_parser.orthographic_rdg_pattern rdg_label in
  let defective := Re.matches vmr_collation_parser.defective_rdg_pattern rdg_label in
  (orthographic = true -> last_letter rdg_label = Some "o"%char)
  /\ (defective = true -> last_letter rdg_label = Some "f"%char)
  /\ (orthographic && defective = false)
  /\ vmr_collation_parser.rdg_type_of rdg_label
     = (if defective then `"defective"
        else if orthographic then `"orthographic"
        else if str_eqb rdg_label `"zu" then `"overlap"
        else if str_eqb rdg_label `"zw" then `"ambiguous"
        else if str_eqb rdg_label `"zz" then `"lac"
        else [])
  /\ (orthographic || defective = true ->
      str_eqb rdg_label `"zu" || str_eqb rdg_label `"zw" || str_eqb rdg_label `"zz" = false).
Proof.
  intros orthographic defective.
  assert (Ho : orthographic = true -> last_letter rdg_label = Some "o"%char)
    by (apply suffixed_pattern_last_letter; reflexivity).
  assert (Hf : defective = true -> last_letter rdg_label = Some "f"%char)
    by (apply suffixed_pattern_last_letter; reflexivity).
  split; [exact Ho|]. split; [exact Hf|]. split; [|split].
  - destruct orthographic; [|reflexivity]. destruct defective; [|reflexivity].
    specialize (Ho eq_refl). specialize (Hf eq_refl). congruence.
  - unfold vmr_collation_parser.rdg_type_of. fold orthographic. fold defective.
    unfold vmr_collation_parser.lacunose_rdg_label, vmr_collation_parser.ambiguous_rdg_label,
      vmr_collation_parser.overlap_rdg_label.
    destruct defective, orthographic; reflexivity.
  - intros H. unfold orthographic, defective in H. clear Ho Hf.
    destruct (str_eqb rdg_label `"zu") eqn:E1.
    { apply str_eqb_eq in E1. rewrite E1 in H. vm_compute in H. discriminate. }
    destruct (str_eqb rdg_label `"zw") eqn:E2.
    { apply str_eqb_eq in E2. rewrite E2 in H. vm_compute in H. discriminate. }
    destruct (str_eqb rdg_label `"zz") eqn:E3; [|reflexivity].
    apply str_eqb_eq in E3. rewrite E3 in H. vm_compute in H. discriminate.
Qed.

Lemma vmr_rdg_type_of_cases_witness :
  Re.matches vmr_collation_parser.orthographic_rdg_pattern `"bo" = true
  /\ last_letter `"bo" = Some "o"%char
  /\ vmr_collation_parser.rdg_type_of `"bo" = `"orthographic".
Proof.
  destruct (vmr_rdg_type_of_cases `"bo") as (Ho & _ & _ & Ht & _).
  split; [reflexivity|]. split; [exact (Ho eq_refl)|exact Ht].
Defined.

(** ** X5: Brackets *)

(** X5.  [remove_square_brackets] deletes every square bracket of the witness
    string and [remove_angle_brackets] every right angle bracket; all other
    characters stay, in their order. *)
Theorem remove_brackets_filter (wit_str : str) :
  vmr_collation_parser.remove_square_brackets wit_str
  = filter (fun c => negb (has_char `"[]" c)) wit_str
  /\ vmr_collation_parser.remove_angle_brackets wit_str
     = filter (fun c => negb (has_char `">" c)) wit_str.
Proof.
  unfold vmr_collation_parser.remove_square_brackets,
    vmr_collation_parser.remove_angle_brackets.
  change `"[" with ["["%char]. change `"]" with ["]"%char]. change `">" with [">"%char].
  rewrite !replace_char_filter. split.
  - induction wit_str as [|x s IH]; [reflexivity|]. cbn [filter has_char existsb lit
      list_ascii_of_string].
    destruct (Ascii.eqb x "[") eqn:E1; cbn [negb orb filter].
    + exact IH.
    + destruct (Ascii.eqb x "]") eqn:E2; cbn [negb orb filter]; [exact IH|].
      now rewrite IH.
  - apply filter_ext. intros x. cbn. now rewrite orb_false_r.
Qed.

(** ** X6: Witness strings without parentheses *)

(** X6.  [expand_parenthetical_suffixes] returns a witness string that holds no
    opening parenthesis as it is, whatever the configured suffixes: no siglum
    is normalised, so the call returns even when the empty string is among the
    suffixes. *)
Theorem expand_parenthetical_suffixes_plain cfg wit_str :
  ~ In "("%char wit_str ->
  vmr_collation_parser.expand_parenthetical_suffixes cfg wit_str = inr wit_str.
Proof.
  intros H. unfold vmr_collation_parser.expand_parenthetical_suffixes, Re.findall.
  rewrite (@findall_aux_none _ (fun s => ~ In "("%char s)); [reflexivity| | |exact H].
  - intros at_start s ts M N. apply N. eapply parentheses_pattern_needs_one, M.
  - intros c s N I. apply N. now right.
Qed.

Lemma expand_parenthetical_suffixes_plain_witness :
  ~ In "("%char `"01 02* vgms"
  /\ vmr_collation_parser.expand_parenthetical_suffixes (tei_settings 1 false) `"01 02* vgms"
     = inr `"01 02* vgms".
Proof.
  assert (H : ~ In "("%char `"01 02* vgms").
  { cbn. intros I. repeat (destruct I as [I|I]; [discriminate|]). exact I. }
  split; [exact H|]. exact (expand_parenthetical_suffixes_plain (tei_settings 1 false) _ H).
Defined.

(** ** X7: The preprocessing of a witness string *)

(** X7.  On a witness string without an opening parenthesis, the four steps by
    which [parse_segment] preprocesses the witnesses of a reading come to this:
    the square brackets and the right angle brackets are deleted, and the
    tokens between white space are joined by single spaces. Nothing else is
    changed; no suffix [ms] or [mss] goes. *)
Theorem preprocess_witnesses_plain cfg (witnesses_str : str) :
  ~ In "("%char witnesses_str ->
  vmr_collation_parser.preprocess_witnesses cfg witnesses_str
  = inr (join `" " (split (filter (fun c => negb (has_char `"[]>" c)) witnesses_str))).
Proof.
  intros H. unfold vmr_collation_parser.preprocess_witnesses.
  rewrite remove_brackets_all.
  set (s := filter _ witnesses_str).
  assert (Hs : ~ In "("%char s).
  { intros I. apply filter_In in I. exact (H (proj1 I)). }
  unfold vmr_collation_parser.expand_parenthetical_suffixes, Re.findall.
  rewrite (@findall_aux_none _ (fun s => ~ In "("%char s)); [| | |exact Hs].
  - cbn [map for_each bind ret]. now rewrite remove_ms_mss_suffixes_joins.
  - intros at_start s0 ts M N. apply N. eapply parentheses_pattern_needs_one, M.
  - intros c s0 N I. apply N. now right.
Qed.

Lemma preprocess_witnesses_plain_witness :
  ~ In "("%char `"01  [02*] vgms>  04"
  /\ vmr_collation_parser.preprocess_witnesses (tei_settings 1 false) `"01  [02*] vgms>  04"
     = inr `"01 02* vgms 04".
Proof.
  assert (H : ~ In "("%char `"01  [02*] vgms>  04").
  { cbn. intros I. repeat (destruct I as [I|I]; [discriminate|]). exact I. }
  split; [exact H|].
  exact (@preprocess_witnesses_plain (tei_settings 1 false) _ H).
Defined.

(** ** X8: The text of an element *)

(** X8.  [serialize] goes by the local name of the tag in the TEI namespace. For
    [rdg] it returns the text of the element followed by the serialised
    children, joined by single spaces; the tail is left out. For [w], [abbr]
    and [hi] it returns the text, the serialised children without a separator,
    and the tail. For a name that is none of the eleven it knows it returns the
    empty string. *)
Theorem serialize_by_local_name tei_ns (e : element) (name : str) :
  tag e = qname tei_ns name -> ~ In "{"%char name ->
  let kids := map (tei_collation_parser.serialize tei_ns) (children e) in
  (name = `"rdg" ->
   tei_collation_parser.serialize tei_ns e = or_empty (text e) ++ join `" " kids)
  /\ (In name [`"w"; `"abbr"; `"hi"] ->
      tei_collation_parser.serialize tei_ns e
      = or_empty (text e) ++ join [] kids ++ or_empty (tail e))
  /\ (~ In name [`"rdg"; `"w"; `"abbr"; `"hi"; `"space"; `"ex"; `"gap"; `"unclear";
                 `"supplied"; `"choice"; `"ref"] ->
      tei_collation_parser.serialize tei_ns e = []).
Proof.
  destruct e as [t attrs tx tl kids0]. cbn [tag children text tail].
  intros -> Hn. rewrite serialize_eq. cbv zeta. rewrite (@raw_tag_of_qname tei_ns name Hn).
  set (kids := map (tei_collation_parser.serialize tei_ns) kids0). split; [|split].
  - intros ->. reflexivity.
  - intros [<-|[<-|[<-|[]]]]; reflexivity.
  - intros H.
    repeat match goal with
           | |- context [str_eqb name ?x] =>
               let E := fresh "E" in
               destruct (str_eqb name x) eqn:E;
               [apply str_eqb_eq in E; exfalso; apply H; subst; cbn; tauto|]
           | |- context [contains ?l name] =>
               let E := fresh "E" in
               destruct (contains l name) eqn:E;
               [apply contains_In in E; exfalso; apply H; cbn in E |- *; tauto|]
           end.
    reflexivity.
Qed.

Lemma serialize_by_local_name_witness :
  tag reading_a = qname TEI_NS `"rdg"
  /\ ~ In "{"%char `"rdg"
  /\ tei_collation_parser.serialize TEI_NS reading_a
     = or_empty (text reading_a)
       ++ join `" " (map (tei_collation_parser.serialize TEI_NS) (children reading_a)).
Proof.
  assert (H1 : tag reading_a = qname TEI_NS `"rdg") by reflexivity.
  assert (H2 : ~ In "{"%char `"rdg").
  { cbn. intros I. repeat (destruct I as [I|I]; [discriminate|]). exact I. }
  split; [exact H1|]. split; [exact H2|].
  exact (proj1 (@serialize_by_local_name TEI_NS reading_a `"rdg" H1 H2) eq_refl).
Defined.

(** ** X9: A reading without a number *)



(** ** X10: Readings of an ignored type *)

(** X10.  A reading of an ignored type might as well not be there: a unit from
    which the readings of ignored types are deleted gives the same result in
    [parse_app] and in [parse_segment], be it the labels and the map or a
    failure. *)
Theorem ignored_readings_are_inert :
  (forall tei_ns xml_ns cfg readings xml xml',
      tei_collation_parser.app_id_of xml_ns xml' = tei_collation_parser.app_id_of xml_ns xml ->
      xpath_children (qname tei_ns `"rdg") xml'
      = filter (fun rdg => negb (contains (ignored_reading_types cfg)
                                          (tei_collation_parser.rdg_type_of rdg)))
               (xpath_children (qname tei_ns `"rdg") xml) ->
      tei_collation_parser.parse_app tei_ns xml_ns cfg readings xml'
      = tei_collation_parser.parse_app tei_ns xml_ns cfg readings xml)
  /\
  (forall cfg readings xml xml',
      vmr_collation_parser.segment_id_of xml' = vmr_collation_parser.segment_id_of xml ->
      xpath_descendants `"segmentReading" xml'
      = filter (fun rdg =>
                  match vmr_collation_parser.rdg_label_of rdg with
                  | inr rdg_label =>
                      negb (contains (ignored_reading_types cfg)
                                     (vmr_collation_parser.rdg_type_of rdg_label))
                  | inl _ => true
                  end)
               (xpath_descendants `"segmentReading" xml) ->
      vmr_collation_parser.parse_segment cfg readings xml'
      = vmr_collation_parser.parse_segment cfg readings xml).
Proof.
  split.
  - intros tei_ns xml_ns cfg readings xml xml' Hid Hr.
    unfold tei_collation_parser.parse_app. rewrite Hid, Hr.
    rewrite for_each_filter.
    + destruct (for_each _ (tei_collation_parser.first_pass tei_ns cfg _) ([], readings))
        as [f|[rbn rs]]; cbn [bind]; [reflexivity|].
      rewrite for_each_filter; [reflexivity|].
      intros s rdg _ Hi. apply negb_false_iff in Hi.
      now apply tei_second_pass_ignored.
    + intros s rdg _ Hi. apply negb_false_iff in Hi.
      apply tei_first_pass_skips. now rewrite Hi.
  - intros cfg readings xml xml' Hid Hr.
    unfold vmr_collation_parser.parse_segment. rewrite Hid, Hr.
    destruct (vmr_collation_parser.segment_id_of xml) as [f|segment_id]; cbn [bind];
      [reflexivity|].
    rewrite for_each_filter.
    + destruct (for_each _ (vmr_collation_parser.first_pass cfg _) ([], readings))
        as [f|[rbn rs]]; cbn [bind]; [reflexivity|].
      rewrite for_each_filter; [reflexivity|].
      intros [rc rbw] rdg _ Hi. unfold vmr_collation_parser.second_pass.
      destruct (vmr_collation_parser.rdg_label_of rdg) as [f|l]; [discriminate|].
      apply negb_false_iff in Hi. cbn [bind]. now rewrite Hi.
    + intros s rdg _ Hi.
      destruct (vmr_collation_parser.rdg_label_of rdg) as [f|l] eqn:L; [discriminate|].
      apply negb_false_iff in Hi.
      eapply vmr_first_pass_skips; [exact L|]. now rewrite Hi.
Qed.

Lemma ignored_readings_are_inert_witness :
  tei_collation_parser.app_id_of XML_NS collapsed_unit
  = tei_collation_parser.app_id_of XML_NS unit_with_lacuna
  /\ xpath_children (qname TEI_NS `"rdg") collapsed_unit
     = filter (fun rdg => negb (contains (ignored_reading_types (tei_settings 1 false))
                                         (tei_collation_parser.rdg_type_of rdg)))
              (xpath_children (qname TEI_NS `"rdg") unit_with_lacuna)
  /\ tei_collation_parser.parse_app TEI_NS XML_NS (tei_settings 1 false) [] collapsed_unit
     = tei_collation_parser.parse_app TEI_NS XML_NS (tei_settings 1 false) []
         unit_with_lacuna.
Proof.
  assert (H1 : tei_collation_parser.app_id_of XML_NS collapsed_unit
               = tei_collation_parser.app_id_of XML_NS unit_with_lacuna) by reflexivity.
  assert (H2 : xpath_children (qname TEI_NS `"rdg") collapsed_unit
               = filter (fun rdg => negb (contains (ignored_reading_types
                                                      (tei_settings 1 false))
                                                   (tei_collation_parser.rdg_type_of rdg)))
                        (xpath_children (qname TEI_NS `"rdg") unit_with_lacuna))
    by (vm_compute; reflexivity).
  split; [exact H1|]. split; [exact H2|].
  exact (proj1 ignored_readings_are_inert TEI_NS XML_NS (tei_settings 1 false) []
           unit_with_lacuna collapsed_unit H1 H2).
Defined.

(** ** X11: The support of a substantive reading *)

(** X11.  In the second loop of both parsers a substantive reading (of a type
    that is not ignored, trivial or ambiguous) replaces the carried
    coefficients by its own label with the coefficient 1, and the support of a
    base witness for that label grows by the number of times the witness occurs
    among the normalised supporters of the reading. No other support changes. *)
Theorem substantive_support :
  (forall tei_ns cfg app_id readings_by_number rc rbw rdg rc' rbw',
      substantive cfg rdg ->
      tei_collation_parser.second_pass tei_ns cfg app_id readings_by_number (rc, rbw) rdg
      = inr (rc', rbw') ->
      exists rdg_n bs,
        attr rdg `"n" = Some rdg_n
        /\ rc' = [(tei_label tei_ns app_id rdg_n rdg, 1%Q)]
        /\ tei_supporters cfg rdg = inr bs
        /\ forall b l,
            (support rbw' b l
             == support rbw b l
                + (if str_eqb (tei_label tei_ns app_id rdg_n rdg) l
                   then occurrences bs b else 0))%Q)
  /\
  (forall cfg segment_id readings_by_number rc rbw rdg rdg_label rc' rbw',
      vmr_collation_parser.rdg_label_of rdg = inr rdg_label ->
      vmr_is_substantive cfg rdg_label = true ->
      vmr_collation_parser.second_pass cfg segment_id readings_by_number (rc, rbw) rdg
      = inr (rc', rbw') ->
      exists bs,
        rc' = [(vmr_id segment_id rdg_label rdg, 1%Q)]
        /\ vmr_supporters cfg rdg = inr bs
        /\ forall b l,
            (support rbw' b l
             == support rbw b l
                + (if str_eqb (vmr_id segment_id rdg_label rdg) l
                   then occurrences bs b else 0))%Q).
Proof.
  split.
  - intros tei_ns cfg app_id rbn rc rbw rdg rc' rbw' (Hi & Ht & Ha) H.
    destruct (@tei_second_pass_inv tei_ns cfg app_id rbn rc rbw rdg rc' rbw' Hi H)
      as (skip & Hu & Hs).
    unfold tei_collation_parser.update_coefficients in Hu. rewrite Ht, Ha in Hu.
    cbn [negb] in Hu. inv_bind Hu as r Hr. destruct r as [rdg_n rdg_label].
    unfold tei_collation_parser.rdg_label_of in Hr. inv_bind Hr as n Hn. inv_ret Hr.
    inv_ret Hu. destruct (attr rdg `"n") as [m|] eqn:En; [|discriminate]. inv_ret Hn.
    destruct Hs as (bs & Hb & ->). exists rdg_n, bs.
    split; [reflexivity|]. split; [reflexivity|]. split; [exact Hb|].
    intros b l. apply support_single.
  - intros cfg segment_id rbn rc rbw rdg rdg_label rc' rbw' Hl Hsub H.
    apply vmr_second_pass_inv in H as (l' & Hl' & _ & Hno).
    rewrite Hl in Hl'. inversion Hl'. subst l'.
    unfold vmr_is_substantive in Hsub. apply andb_true_iff in Hsub as [Hsk Ha].
    apply negb_true_iff, orb_false_iff in Hsk as [Hi Ht]. apply negb_true_iff in Ha.
    destruct (Hno Hi) as (skip & Hu & Hs).
    unfold vmr_collation_parser.update_coefficients in Hu. rewrite Ht, Ha, Hl in Hu.
    cbn [negb bind] in Hu. unfold vmr_collation_parser.rdg_id_of in Hu.
    destruct (attr rdg `"reading") as [t|] eqn:En; [|discriminate].
    cbn [not_none bind ret] in Hu. inv_ret Hu.
    destruct Hs as (bs & Hb & ->). exists bs.
    unfold vmr_id. rewrite En. cbn [or_empty].
    split; [reflexivity|]. split; [exact Hb|]. intros b l. apply support_single.
Qed.

Lemma substantive_support_witness :
  substantive (tei_settings 1 false) reading_a
  /\ tei_collation_parser.second_pass TEI_NS (tei_settings 1 false) `"u1" [] ([], []) reading_a
     = inr ([(`"u1 a logos", 1%Q)], [(`"A", [(`"u1 a logos", 1%Q)])])
  /\ exists rdg_n bs,
       attr reading_a `"n" = Some rdg_n
       /\ [(`"u1 a logos", 1%Q)] = [(tei_label TEI_NS `"u1" rdg_n reading_a, 1%Q)]
       /\ tei_supporters (tei_settings 1 false) reading_a = inr bs.
Proof.
  assert (H1 : substantive (tei_settings 1 false) reading_a)
    by (repeat split; reflexivity).
  assert (H2 : tei_collation_parser.second_pass TEI_NS (tei_settings 1 false) `"u1" []
                 ([], []) reading_a
               = inr ([(`"u1 a logos", 1%Q)], [(`"A", [(`"u1 a logos", 1%Q)])]))
    by (vm_compute; reflexivity).
  split; [exact H1|]. split; [exact H2|].
  destruct (proj1 substantive_support TEI_NS (tei_settings 1 false) `"u1" [] [] [] reading_a
              _ _ H1 H2) as (rdg_n & bs & Hn & Hrc & Hb & _).
  exists rdg_n, bs. auto.
Defined.

(** ** X12: Witnesses after the manuscripts *)

(** X12.  [parse_segment] reads the witnesses of a reading up to the first token
    that is no manuscript siglum: two readings with the same label and text
    whose preprocessed witness strings begin with the same run of manuscript
    sigla have the same effect. *)
Theorem second_pass_stops_at_first_non_manuscript
    cfg segment_id readings_by_number st rdg rdg' ws ws' processed processed' :
  attr rdg' `"label" = attr rdg `"label" ->
  attr rdg' `"reading" = attr rdg `"reading" ->
  attr rdg `"witnesses" = Some ws ->
  attr rdg' `"witnesses" = Some ws' ->
  vmr_collation_parser.preprocess_witnesses cfg ws = inr processed ->
  vmr_collation_parser.preprocess_witnesses cfg ws' = inr processed' ->
  take_while (Re.matches vmr_collation_parser.manuscript_witness_pattern) (split processed')
  = take_while (Re.matches vmr_collation_parser.manuscript_witness_pattern) (split processed) ->
  vmr_collation_parser.second_pass cfg segment_id readings_by_number st rdg'
  = vmr_collation_parser.second_pass cfg segment_id readings_by_number st rdg.
Proof.
  intros Hl Ht Hw Hw' Hp Hp' Htw. destruct st as [rc rbw].
  unfold vmr_collation_parser.second_pass, vmr_collation_parser.update_coefficients,
    vmr_collation_parser.rdg_label_of, vmr_collation_parser.rdg_id_of.
  rewrite Hl, Ht, Hw, Hw', Hp, Hp'.
  destruct (attr rdg `"label") as [label|]; cbn [not_none bind ret]; [|reflexivity].
  set (rdg_label := strip (replace label vmr_collation_parser.diamond [])).
  destruct (contains (ignored_reading_types cfg) (vmr_collation_parser.rdg_type_of rdg_label));
    [reflexivity|].
  match goal with
  | |- bind ?u ?k' = bind ?u ?k => destruct u as [f|[rc1 skip]]; cbn [bind]; [reflexivity|]
  end.
  destruct skip; [reflexivity|].
  now rewrite !vmr_support_loop, Htw.
Qed.

Lemma second_pass_stops_at_first_non_manuscript_witness :
  vmr_collation_parser.preprocess_witnesses (tei_settings 1 false) `"01 vgms 04" = inr `"01 vgms 04"
  /\ vmr_collation_parser.preprocess_witnesses (tei_settings 1 false) `"01 Or" = inr `"01 Or"
  /\ vmr_collation_parser.second_pass (tei_settings 1 false) `"Acts.1.1/2-4" [] ([], [])
       (segment_reading `"a" `"logon" `"01 Or")
     = vmr_collation_parser.second_pass (tei_settings 1 false) `"Acts.1.1/2-4" [] ([], [])
         (segment_reading `"a" `"logon" `"01 vgms 04").
Proof.
  assert (H1 : vmr_collation_parser.preprocess_witnesses (tei_settings 1 false) `"01 vgms 04"
               = inr `"01 vgms 04") by (vm_compute; reflexivity).
  assert (H2 : vmr_collation_parser.preprocess_witnesses (tei_settings 1 false) `"01 Or"
               = inr `"01 Or") by (vm_compute; reflexivity).
  split; [exact H1|]. split; [exact H2|].
  apply (@second_pass_stops_at_first_non_manuscript (tei_settings 1 false) `"Acts.1.1/2-4"
           [] ([], []) (segment_reading `"a" `"logon" `"01 vgms 04")
           (segment_reading `"a" `"logon" `"01 Or") `"01 vgms 04" `"01 Or"
           `"01 vgms 04" `"01 Or");
    [reflexivity|reflexivity|reflexivity|reflexivity|exact H1|exact H2|
     vm_compute; reflexivity].
Defined.

(** ** X13: What a unit returns *)

(** X13.  When [parse_app] or [parse_segment] returns, the reading list has
    grown by the labels of the substantive readings of the unit, in the order
    of the document, and by nothing else. The map it returns holds every base
    witness once; the coefficients of a witness hold every label once, all
    labels are labels of this unit and all coefficients are positive. *)
Theorem unit_maps :
  (forall tei_ns xml_ns cfg readings app readings' rbw,
      tei_collation_parser.parse_app tei_ns xml_ns cfg readings app = inr (readings', rbw) ->
      readings' = readings ++ tei_unit_labels tei_ns xml_ns cfg app
      /\ NoDup (Dict.keys rbw)
      /\ forall b d, In (b, d) rbw ->
           NoDup (Dict.keys d)
           /\ forall l x, In (l, x) d ->
                In l (tei_unit_labels tei_ns xml_ns cfg app) /\ (0 < x)%Q)
  /\
  (forall cfg readings segment readings' rbw,
      vmr_collation_parser.parse_segment cfg readings segment = inr (readings', rbw) ->
      readings' = readings ++ vmr_unit_labels cfg segment
      /\ NoDup (Dict.keys rbw)
      /\ forall b d, In (b, d) rbw ->
           NoDup (Dict.keys d)
           /\ forall l x, In (l, x) d ->
                In l (vmr_unit_labels cfg segment) /\ (0 < x)%Q).
Proof.
  split.
  - intros tei_ns xml_ns cfg readings app readings' rbw H.
    destruct (@tei_units tei_ns xml_ns cfg [app] app _ _ _ (or_introl eq_refl) H)
      as (Hr & [Hn Hd] & _).
    split; [exact Hr|]. split; [exact Hn|]. intros b d Hb. exact (Hd b d Hb).
  - intros cfg readings segment readings' rbw H.
    destruct (@vmr_units cfg [segment] segment _ _ _ (or_introl eq_refl) H)
      as (Hr & [Hn Hd] & _).
    split; [exact Hr|]. split; [exact Hn|]. intros b d Hb. exact (Hd b d Hb).
Qed.

Lemma unit_maps_witness :
  tei_collation_parser.parse_app TEI_NS XML_NS (tei_settings 1 false) [`"u0 a en"]
    scenario_unit_example
  = inr ([`"u0 a en"; `"u1 a logos"; `"u1 b logon"],
         [(`"A", [(`"u1 a logos", 1%Q)]); (`"B", [(`"u1 b logon", 1%Q)]);
          (`"C1", halves `"u1 a logos" `"u1 b logon")])
  /\ [`"u0 a en"; `"u1 a logos"; `"u1 b logon"]
     = [`"u0 a en"] ++ tei_unit_labels TEI_NS XML_NS (tei_settings 1 false)
                         scenario_unit_example.
Proof.
  assert (H : tei_collation_parser.parse_app TEI_NS XML_NS (tei_settings 1 false)
                [`"u0 a en"] scenario_unit_example
              = inr ([`"u0 a en"; `"u1 a logos"; `"u1 b logon"],
                     [(`"A", [(`"u1 a logos", 1%Q)]); (`"B", [(`"u1 b logon", 1%Q)]);
                      (`"C1", halves `"u1 a logos" `"u1 b logon")]))
    by (vm_compute; reflexivity).
  split; [exact H|]. exact (proj1 (proj1 unit_maps _ _ _ _ _ _ _ H)).
Defined.

(** ** X14: How reading a TEI document ends *)


(** ** X15: How reading a response of the room ends *)

(** X15.  The part of [read] before [postprocess], from the parsed response on,
    either returns or fails in a segment, and then for one of these reasons: an
    AttributeError, with a reading that has no label; a TypeError, with a
    segment that lacks [verse] or [wordsegs] or a reading of a type neither
    ignored nor trivial that has no text; or a loop without end, with the empty
    string among the configured suffixes. *)
Theorem vmr_read_raw_outcomes cfg xml :
  (exists raw, vmr_collation_parser.read_raw cfg xml = inr raw)
  \/ exists f segment,
       vmr_collation_parser.read_raw cfg xml = inl f
       /\ In segment (xpath_anywhere `"segment" xml)
       /\ segment_failure cfg segment (xpath_descendants `"segmentReading" segment) f.
Proof.
  destruct (vmr_collation_parser.read_raw cfg xml) as [f|raw] eqn:E.
  - right. apply vmr_read_raw_failure in E as (segment & H1 & H2). now exists f, segment.
  - left. now exists raw.
Qed.

(** ** X16: A document without units *)

(** X16.  A document without variation units is read without failure under every
    setting, TF-IDF included: the threshold is 0, the three lists are empty and
    both matrices have the shape (0, 0). *)
Theorem read_empty_document :
  (forall tei_ns xml_ns cfg xml,
      xpath_anywhere (qname tei_ns `"app") xml = [] ->
      tei_collation_parser.read_raw tei_ns xml_ns cfg xml = inr empty_parser
      /\ tei_collation_parser.read tei_ns xml_ns cfg xml = inr (as_real empty_parser))
  /\
  (forall cfg xml,
      xpath_anywhere `"segment" xml = [] ->
      vmr_collation_parser.read_raw cfg xml = inr empty_parser
      /\ vmr_collation_parser.read cfg xml = inr (as_real empty_parser)).
Proof.
  split.
  - intros tei_ns xml_ns cfg xml H.
    assert (R : tei_collation_parser.read_raw tei_ns xml_ns cfg xml = inr empty_parser).
    { unfold tei_collation_parser.read_raw, assemble. rewrite H.
      cbn [length collect for_each bind ret]. rewrite int_of_float_zero. reflexivity. }
    split; [exact R|]. unfold tei_collation_parser.read. rewrite R. apply postprocess_empty.
  - intros cfg xml H.
    assert (R : vmr_collation_parser.read_raw cfg xml = inr empty_parser).
    { unfold vmr_collation_parser.read_raw, assemble. rewrite H.
      cbn [length collect for_each bind ret]. rewrite int_of_float_zero. reflexivity. }
    split; [exact R|]. unfold vmr_collation_parser.read. rewrite R. apply postprocess_empty.
Qed.

Lemma read_empty_document_witness :
  xpath_anywhere (qname TEI_NS `"app") (tei_element `"TEI" [] []) = []
  /\ tei_collation_parser.read TEI_NS XML_NS (tei_settings 1 true) (tei_element `"TEI" [] [])
     = inr (as_real empty_parser).
Proof.
  assert (H : xpath_anywhere (qname TEI_NS `"app") (tei_element `"TEI" [] []) = [])
    by reflexivity.
  split; [exact H|].
  exact (proj2 (proj1 read_empty_document TEI_NS XML_NS (tei_settings 1 true) _ H)).
Defined.

(** ** X17: The raw matrix *)

(** X17.  When the part of [read] before [postprocess] returns, the raw matrix
    has one row for every reading label and one column for every witness, every
    row has that width, no entry is negative and no witness is listed twice. *)
Theorem read_raw_matrix :
  (forall tei_ns xml_ns cfg xml raw,
      tei_collation_parser.read_raw tei_ns xml_ns cfg xml = inr raw ->
      shape (collation_matrix raw) = (length (readings raw), length (witnesses raw))
      /\ well_shaped (collation_matrix raw)
      /\ nonnegative (collation_matrix raw)
      /\ NoDup (witnesses raw))
  /\
  (forall cfg xml raw,
      vmr_collation_parser.read_raw cfg xml = inr raw ->
      shape (collation_matrix raw) = (length (readings raw), length (witnesses raw))
      /\ well_shaped (collation_matrix raw)
      /\ nonnegative (collation_matrix raw)
      /\ NoDup (witnesses raw)).
Proof.
  split.
  - intros tei_ns xml_ns cfg xml raw H.
    exact (assemble_matrix (tei_unit_spec tei_ns xml_ns cfg _) cfg H).
  - intros cfg xml raw H.
    exact (assemble_matrix (vmr_unit_spec cfg _) cfg H).
Qed.

Lemma read_raw_matrix_witness :
  tei_collation_parser.read_raw TEI_NS XML_NS (tei_settings 1 false) scenario_document
  = inr scenario_raw
  /\ shape (collation_matrix scenario_raw) = (2, 3)
  /\ vmr_collation_parser.read_raw (tei_settings 1 false) vmr_document = inr vmr_raw
  /\ shape (collation_matrix vmr_raw) = (2, 6)
  /\ NoDup (witnesses vmr_raw).
Proof.
  assert (H1 : tei_collation_parser.read_raw TEI_NS XML_NS (tei_settings 1 false)
                 scenario_document = inr scenario_raw) by (vm_compute; reflexivity).
  assert (H2 : vmr_collation_parser.read_raw (tei_settings 1 false) vmr_document
               = inr vmr_raw) by (vm_compute; reflexivity).
  destruct read_raw_matrix as [T V].
  destruct (T _ _ _ _ _ H1) as (S1 & _). destruct (V _ _ _ H2) as (S2 & _ & _ & N2).
  split; [exact H1|]. split; [exact S1|]. split; [exact H2|]. split; [exact S2|exact N2].
Defined.

(** ** X18: The rows of the raw matrix *)

(** X18.  The reading list after all units are parsed is the labels of the
    substantive readings of the units, unit after unit in the order of the
    document. *)
Theorem read_raw_readings :
  (forall tei_ns xml_ns cfg xml raw,
      tei_collation_parser.read_raw tei_ns xml_ns cfg xml = inr raw ->
      readings raw
      = flat_map (tei_unit_labels tei_ns xml_ns cfg)
                 (xpath_anywhere (qname tei_ns `"app") xml))
  /\
  (forall cfg xml raw,
      vmr_collation_parser.read_raw cfg xml = inr raw ->
      readings raw = flat_map (vmr_unit_labels cfg) (xpath_anywhere `"segment" xml)).
Proof.
  split.
  - intros tei_ns xml_ns cfg xml raw H.
    exact (proj1 (@assemble_entries _ _ _ _ (@tei_units tei_ns xml_ns cfg _) cfg raw H)).
  - intros cfg xml raw H.
    exact (proj1 (@assemble_entries _ _ _ _ (@vmr_units cfg _) cfg raw H)).
Qed.

Lemma read_raw_readings_witness :
  vmr_collation_parser.read_raw (tei_settings 1 false) vmr_document = inr vmr_raw
  /\ readings vmr_raw
     = flat_map (vmr_unit_labels (tei_settings 1 false))
                (xpath_anywhere `"segment" vmr_document).
Proof.
  assert (H : vmr_collation_parser.read_raw (tei_settings 1 false) vmr_document = inr vmr_raw)
    by (vm_compute; reflexivity).
  split; [exact H|]. exact (proj2 read_raw_readings _ _ _ H).
Defined.

(** ** X19: The entries of the raw matrix *)

(** X19.  When no label occurs twice in the reading list, the entry of the raw
    matrix in the row of a label of a unit and the column of a witness is the
    coefficient that the parser of that very unit gave the witness for the
    label, and 0 when it gave none. *)
Theorem read_raw_entries :
  (forall tei_ns xml_ns cfg xml raw app i j r w,
      tei_collation_parser.read_raw tei_ns xml_ns cfg xml = inr raw ->
      NoDup (readings raw) ->
      In app (xpath_anywhere (qname tei_ns `"app") xml) ->
      In r (tei_unit_labels tei_ns xml_ns cfg app) ->
      nth_error (readings raw) i = Some r ->
      nth_error (witnesses raw) j = Some w ->
      entry 0%Q (collation_matrix raw) i j = support (tei_unit_map tei_ns xml_ns cfg app) w r)
  /\
  (forall cfg xml raw segment i j r w,
      vmr_collation_parser.read_raw cfg xml = inr raw ->
      NoDup (readings raw) ->
      In segment (xpath_anywhere `"segment" xml) ->
      In r (vmr_unit_labels cfg segment) ->
      nth_error (readings raw) i = Some r ->
      nth_error (witnesses raw) j = Some w ->
      entry 0%Q (collation_matrix raw) i j = support (vmr_unit_map cfg segment) w r).
Proof.
  split.
  - intros tei_ns xml_ns cfg xml raw app i j r w H Hn Hu Hl Hi Hj.
    exact (proj2 (@assemble_entries _ _ _ _ (@tei_units tei_ns xml_ns cfg _) cfg raw H)
             Hn app i j r w Hu Hl Hi Hj).
  - intros cfg xml raw segment i j r w H Hn Hu Hl Hi Hj.
    exact (proj2 (@assemble_entries _ _ _ _ (@vmr_units cfg _) cfg raw H) Hn segment i j r w Hu Hl Hi Hj).
Qed.

Lemma read_raw_entries_witness :
  vmr_collation_parser.read_raw (tei_settings 1 false) vmr_document = inr vmr_raw
  /\ NoDup (readings vmr_raw)
  /\ In vmr_segment (xpath_anywhere `"segment" vmr_document)
  /\ In `"Acts.1.1/2-4 a logon" (vmr_unit_labels (tei_settings 1 false) vmr_segment)
  /\ nth_error (readings vmr_raw) 0 = Some `"Acts.1.1/2-4 a logon"
  /\ nth_error (witnesses vmr_raw) 2 = Some `"03"
  /\ entry 0%Q (collation_matrix vmr_raw) 0 2
     = support (vmr_unit_map (tei_settings 1 false) vmr_segment) `"03" `"Acts.1.1/2-4 a logon".
Proof.
  assert (H : vmr_collation_parser.read_raw (tei_settings 1 false) vmr_document = inr vmr_raw)
    by (vm_compute; reflexivity).
  assert (Hn : NoDup (readings vmr_raw)).
  { cbn [readings vmr_raw]. constructor; [intros [E|[]]; discriminate|].
    constructor; [intros []|constructor]. }
  assert (Hu : In vmr_segment (xpath_anywhere `"segment" vmr_document))
    by (vm_compute; auto).
  assert (Hl : In `"Acts.1.1/2-4 a logon" (vmr_unit_labels (tei_settings 1 false) vmr_segment))
    by (vm_compute; auto).
  split; [exact H|]. split; [exact Hn|]. split; [exact Hu|]. split; [exact Hl|].
  split; [reflexivity|]. split; [reflexivity|].
  exact (proj2 read_raw_entries (tei_settings 1 false) vmr_document vmr_raw vmr_segment
           0 2 _ _ H Hn Hu Hl eq_refl eq_refl).
Defined.

(** ** X20: Rows with the same label *)

(** X20.  When two rows of the raw matrix bear the same label, the earlier one
    is zero in every column: [rows_by_reading] keeps the last index of a label,
    and all coefficients of the label are written there. *)
Theorem duplicate_label_rows :
  (forall tei_ns xml_ns cfg xml raw i k r j,
      tei_collation_parser.read_raw tei_ns xml_ns cfg xml = inr raw ->
      nth_error (readings raw) i = Some r ->
      nth_error (readings raw) k = Some r ->
      i < k -> j < length (witnesses raw) ->
      entry 0%Q (collation_matrix raw) i j = 0%Q)
  /\
  (forall cfg xml raw i k r j,
      vmr_collation_parser.read_raw cfg xml = inr raw ->
      nth_error (readings raw) i = Some r ->
      nth_error (readings raw) k = Some r ->
      i < k -> j < length (witnesses raw) ->
      entry 0%Q (collation_matrix raw) i j = 0%Q).
Proof.
  split.
  - intros tei_ns xml_ns cfg xml raw i k r j H. eapply assemble_duplicate_row; [|exact H].
    apply tei_unit_spec.
  - intros cfg xml raw i k r j H. eapply assemble_duplicate_row; [|exact H].
    apply vmr_unit_spec.
Qed.

Lemma duplicate_label_rows_witness :
  tei_collation_parser.read_raw TEI_NS XML_NS (tei_settings 1 false) repeated_unit_document
  = inr repeated_unit_raw
  /\ nth_error (readings repeated_unit_raw) 0 = Some `"u1 a logos"
  /\ nth_error (readings repeated_unit_raw) 1 = Some `"u1 a logos"
  /\ entry 0%Q (collation_matrix repeated_unit_raw) 0 0 = 0%Q
  /\ entry 0%Q (collation_matrix repeated_unit_raw) 1 0 = 1%Q.
Proof.
  assert (H : tei_collation_parser.read_raw TEI_NS XML_NS (tei_settings 1 false)
                repeated_unit_document = inr repeated_unit_raw)
    by (vm_compute; reflexivity).
  split; [exact H|]. split; [reflexivity|]. split; [reflexivity|]. split; [|reflexivity].
  refine (proj1 duplicate_label_rows TEI_NS XML_NS (tei_settings 1 false)
            repeated_unit_document repeated_unit_raw 0 1 `"u1 a logos" 0 H eq_refl eq_refl _ _).
  - lia.
  - cbn. lia.
Defined.

(** ** X21: The bounds of the threshold *)

(** X21.  For a proportion between 0 and 1 the threshold [min_extant] that
    [read] sets lies between 0 and the number of variation units. *)
Theorem min_extant_bounds :
  (forall tei_ns xml_ns cfg xml raw,
      (0 <= min_extant_proportion cfg)%Q -> (min_extant_proportion cfg <= 1)%Q ->
      tei_collation_parser.read_raw tei_ns xml_ns cfg xml = inr raw ->
      (0 <= min_extant raw
       <= Z.of_nat (length (xpath_anywhere (qname tei_ns `"app") xml)))%Z)
  /\
  (forall cfg xml raw,
      (0 <= min_extant_proportion cfg)%Q -> (min_extant_proportion cfg <= 1)%Q ->
      vmr_collation_parser.read_raw cfg xml = inr raw ->
      (0 <= min_extant raw <= Z.of_nat (length (xpath_anywhere `"segment" xml)))%Z).
Proof.
  split.
  - intros tei_ns xml_ns cfg xml raw H0 H1 H.
    apply assemble_inv in H as (_ & _ & _ & ->). now apply threshold_bounds.
  - intros cfg xml raw H0 H1 H.
    apply assemble_inv in H as (_ & _ & _ & ->). now apply threshold_bounds.
Qed.

Lemma min_extant_bounds_witness :
  (0 <= min_extant_proportion (tei_settings (95 # 100) false))%Q
  /\ (min_extant_proportion (tei_settings (95 # 100) false) <= 1)%Q
  /\ tei_collation_parser.read_raw TEI_NS XML_NS (tei_settings (95 # 100) false) three_units
     = inr three_units_raw
  /\ (0 <= min_extant three_units_raw
      <= Z.of_nat (length (xpath_anywhere (qname TEI_NS `"app") three_units)))%Z.
Proof.
  assert (H0 : (0 <= min_extant_proportion (tei_settings (95 # 100) false))%Q)
    by (unfold Qle; cbn; lia).
  assert (H1 : (min_extant_proportion (tei_settings (95 # 100) false) <= 1)%Q)
    by (unfold Qle; cbn; lia).
  assert (H : tei_collation_parser.read_raw TEI_NS XML_NS (tei_settings (95 # 100) false)
                three_units = inr three_units_raw) by (vm_compute; reflexivity).
  split; [exact H0|]. split; [exact H1|]. split; [exact H|].
  exact (proj1 min_extant_bounds TEI_NS XML_NS _ _ _ H0 H1 H).
Defined.

(** ** X22: The shapes after [postprocess] *)

(** X22.  When [postprocess] returns, with or without TF-IDF, the primary matrix
    has one row for every remaining reading and one column for every primary
    witness, the fragmentary matrix has the same rows and one column for every
    fragmentary witness, and every row of either has its full width. *)
Theorem postprocess_shapes cfg (self : parser Q) fin :
  postprocess cfg self = inr fin ->
  shape (collation_matrix fin) = (length (readings fin), length (witnesses fin))
  /\ shape (fragmentary_collation_matrix fin)
     = (length (readings fin), length (fragmentary_witnesses fin))
  /\ well_shaped (collation_matrix fin)
  /\ well_shaped (fragmentary_collation_matrix fin).
Proof.
  intros H. pose proof (postprocess_inv _ _ H) as (Hs & _ & Hr & Hw & Hf & Hn & Hnf & Hno).
  destruct (pruned_well_shaped _ Hs) as [Wp Wf].
  destruct (pruned_lengths self) as (L1 & L2 & L3 & L4).
  assert (G : well_shaped (collation_matrix fin)
              /\ well_shaped (fragmentary_collation_matrix fin)
              /\ ncols (collation_matrix fin) = ncols (collation_matrix (pruned self))
              /\ ncols (fragmentary_collation_matrix fin)
                 = ncols (fragmentary_collation_matrix (pruned self))).
  { unfold postprocess in H. rewrite Hs in H. cbn [bind] in H.
    destruct (use_tfidf cfg).
    - now apply apply_tfidf_shapes.
    - inv_ret H. cbn [as_real collation_matrix fragmentary_collation_matrix].
      split; [now apply astype_real_well_shaped|].
      split; [now apply astype_real_well_shaped|]. split; reflexivity. }
  destruct G as (G1 & G2 & G3 & G4). unfold shape.
  rewrite Hn, Hnf, G3, G4, Hr, Hw, Hf, L1, L2, L3, L4. auto.
Qed.

Lemma postprocess_shapes_witness :
  postprocess (tei_settings 1 true) common_readings = inr common_readings_reweighted
  /\ shape (collation_matrix common_readings_reweighted) = (2, 1)
  /\ shape (fragmentary_collation_matrix common_readings_reweighted) = (2, 1).
Proof.
  destruct (@postprocess_shapes (tei_settings 1 true) common_readings _
              postprocess_common_readings) as (H1 & H2 & _).
  split; [exact postprocess_common_readings|]. split; [exact H1|exact H2].
Defined.

(** ** X23: No witness lost *)

(** X23.  [postprocess] neither loses nor doubles a witness, on any state of the
    parser: the primary witnesses followed by the fragmentary ones are a
    permutation of the witnesses before, and their numbers add up. *)
Theorem postprocess_witnesses_permutation cfg (self : parser Q) fin :
  postprocess cfg self = inr fin ->
  Permutation (witnesses fin ++ fragmentary_witnesses fin) (witnesses self)
  /\ length (witnesses fin) + length (fragmentary_witnesses fin) = length (witnesses self).
Proof.
  intros H. pose proof (postprocess_inv _ _ H) as (_ & _ & _ & Hw & Hf & _).
  assert (P : Permutation (witnesses fin ++ fragmentary_witnesses fin) (witnesses self)).
  { rewrite Hw, Hf. unfold pruned. cbn [witnesses fragmentary_witnesses].
    rewrite <- map_app.
    apply Permutation_trans
      with (map (fun j => nth j (witnesses self) []) (range (length (witnesses self))));
      [|now rewrite map_nth_range].
    apply Permutation_map. unfold sufficient_cols, fragmentary_cols.
    erewrite (filter_ext (fun j => Qlt_bool _ _)).
    - apply filter_complement_Permutation.
    - intros j. cbv beta. apply Qlt_bool_negb. }
  split; [exact P|]. apply Permutation_length in P. now rewrite length_app in P.
Qed.

Lemma postprocess_witnesses_permutation_witness :
  postprocess (tei_settings (95 # 100) false) three_units_raw
  = inr (as_real (pruned three_units_raw))
  /\ Permutation ([`"W1"; `"W3"] ++ [`"W2"]) [`"W1"; `"W2"; `"W3"].
Proof.
  split; [exact three_units_postprocess|].
  exact (proj1 (@postprocess_witnesses_permutation _ three_units_raw _ three_units_postprocess)).
Defined.

(** ** X24: When the reweighting returns *)

(** X24.  With TF-IDF, on a state whose matrix has a row for every reading and a
    column for every witness, [postprocess] returns exactly in two cases: when
    no reading and no primary witness is left, and then the matrices are as the
    pruning left them; and when a reading and a fragmentary witness are left.
    With no reading but a primary witness left, the fit is given a matrix
    without features and raises a ValueError. With a reading left but no
    fragmentary witness, the fragmentary matrix has rows and no column, passes
    the test on its shape, and the transform is given an array without samples
    and raises a ValueError. *)
Theorem postprocess_tfidf_returns cfg (self : parser Q) :
  use_tfidf cfg = true ->
  length (witnesses self) <= ncols (collation_matrix self) ->
  length (readings self) <= nrows (collation_matrix self) ->
  let mid := pruned self in
  (readings mid = [] -> witnesses mid = [] -> postprocess cfg self = inr (as_real mid))
  /\ (readings mid = [] -> witnesses mid <> [] -> postprocess cfg self = raise ValueError)
  /\ (readings mid <> [] -> fragmentary_witnesses mid = [] ->
      postprocess cfg self = raise ValueError)
  /\ (readings mid <> [] -> fragmentary_witnesses mid <> [] ->
      exists fin, postprocess cfg self = inr fin).
Proof.
  intros Ht Hc Hr mid. unfold postprocess.
  rewrite (split_and_prune_total self Hc Hr), Ht. cbn [bind]. fold mid.
  destruct (pruned_lengths self) as (L1 & L2 & L3 & L4). fold mid in L1, L2, L3, L4.
  unfold apply_tfidf, shape_not_empty.
  split; [|split; [|split]].
  - intros E1 E2. rewrite L1, L3, E1, E2. reflexivity.
  - intros E1 E2. rewrite L1, L3, E1. cbn [length Nat.eqb andb negb].
    destruct (length (witnesses mid)) eqn:E; [now destruct (witnesses mid)|].
    cbn [Nat.eqb negb]. rewrite fit_raises; [reflexivity|].
    right. destruct (transpose_shape (collation_matrix mid)) as [_ ->]. now rewrite L1, E1.
  - intros E1 E2.
    assert (R : 0 < length (readings mid)) by (destruct (readings mid); [easy|cbn; lia]).
    rewrite L1. destruct (length (readings mid) =? 0) eqn:E; [apply Nat.eqb_eq in E; lia|].
    cbn [andb negb].
    destruct (Nat.eq_dec (ncols (collation_matrix mid)) 0) as [Z|Z].
    + rewrite fit_raises; [reflexivity|].
      left. now destruct (transpose_shape (collation_matrix mid)) as [-> _].
    + destruct (fit_returns (transpose 0%Q (collation_matrix mid))) as (idf & -> & Hl).
      { destruct (transpose_shape (collation_matrix mid)) as [-> _]. lia. }
      { destruct (transpose_shape (collation_matrix mid)) as [_ ->]. lia. }
      cbn [bind].
      destruct (transpose_shape (collation_matrix mid)) as [_ Hl']. rewrite Hl' in Hl.
      destruct (reweight_returns (map (fun w => (w - 1)%R) idf) (collation_matrix mid))
        as [cm ->]; [lia|lia|now rewrite length_map|].
      cbn [bind]. rewrite L2, E. cbn [andb negb].
      rewrite reweight_raises; [reflexivity|]. now rewrite L4, E2.
  - intros E1 E2.
    assert (R : 0 < length (readings mid)) by (destruct (readings mid); [easy|cbn; lia]).
    assert (F : 0 < length (fragmentary_witnesses mid))
      by (destruct (fragmentary_witnesses mid); [easy|cbn; lia]).
    assert (P : 0 < length (witnesses mid)).
    { destruct (sufficient_cols self) eqn:S.
      - apply preserved_rows_need_columns in S. unfold mid, pruned in R.
        cbn [readings] in R. rewrite S in R. cbn in R. lia.
      - unfold mid, pruned. cbn [witnesses]. rewrite S. cbn. lia. }
    rewrite L1. destruct (length (readings mid) =? 0) eqn:E; [apply Nat.eqb_eq in E; lia|].
    cbn [andb negb].
    destruct (fit_returns (transpose 0%Q (collation_matrix mid))) as (idf & -> & Hl).
    { destruct (transpose_shape (collation_matrix mid)) as [-> _]. lia. }
    { destruct (transpose_shape (collation_matrix mid)) as [_ ->]. lia. }
    cbn [bind].
    destruct (transpose_shape (collation_matrix mid)) as [_ Hl']. rewrite Hl' in Hl.
    destruct (reweight_returns (map (fun w => (w - 1)%R) idf) (collation_matrix mid))
      as [cm ->]; [lia|lia|now rewrite length_map|].
    cbn [bind]. rewrite L2, E. cbn [andb negb].
    destruct (reweight_returns (map (fun w => (w - 1)%R) idf)
                (fragmentary_collation_matrix mid)) as [fm ->];
      [lia|lia|rewrite length_map; lia|].
    cbn [bind]. eexists. reflexivity.
Qed.

Lemma postprocess_tfidf_returns_witness :
  use_tfidf (tei_settings 1 true) = true
  /\ length (witnesses scenario_raw) <= ncols (collation_matrix scenario_raw)
  /\ length (readings scenario_raw) <= nrows (collation_matrix scenario_raw)
  /\ readings (pruned scenario_raw) <> []
  /\ fragmentary_witnesses (pruned scenario_raw) = []
  /\ postprocess (tei_settings 1 true) scenario_raw = raise ValueError.
Proof.
  assert (H1 : use_tfidf (tei_settings 1 true) = true) by reflexivity.
  assert (H2 : length (witnesses scenario_raw) <= ncols (collation_matrix scenario_raw))
    by (cbn; lia).
  assert (H3 : length (readings scenario_raw) <= nrows (collation_matrix scenario_raw))
    by (cbn; lia).
  assert (H4 : readings (pruned scenario_raw) <> []) by (vm_compute; discriminate).
  assert (H5 : fragmentary_witnesses (pruned scenario_raw) = []) by (vm_compute; reflexivity).
  destruct (@postprocess_tfidf_returns (tei_settings 1 true) scenario_raw H1 H2 H3)
    as (_ & _ & V & _).
  split; [exact H1|]. split; [exact H2|]. split; [exact H3|]. split; [exact H4|].
  split; [exact H5|]. exact (V H4 H5).
Defined.

(** ** X25: The reweighted entries *)

(** X25.  With TF-IDF, when [postprocess] returns, every entry of the primary
    and of the fragmentary matrix is the entry after pruning times the weight
    of its row, ln (n / df), with n the number of primary witnesses and df the
    number of primary witnesses that attest the reading of the row. The weights
    are fitted to the primary matrix only; df is between 1 and n, so no weight
    is negative. *)
Theorem postprocess_tfidf_entries cfg (self : parser Q) fin :
  use_tfidf cfg = true ->
  postprocess cfg self = inr fin ->
  let mid := pruned self in
  let n := length (witnesses mid) in
  forall i, i < length (readings mid) ->
    let df := attested (nth i (data (collation_matrix mid)) []) in
    let weight := ln (INR n / INR df) in
    1 <= df <= n
    /\ (0 <= weight)%R
    /\ (forall j, j < length (witnesses mid) ->
          entry 0%R (collation_matrix fin) i j
          = (Q2R (entry 0%Q (collation_matrix mid) i j) * weight)%R)
    /\ (forall j, j < length (fragmentary_witnesses mid) ->
          entry 0%R (fragmentary_collation_matrix fin) i j
          = (Q2R (entry 0%Q (fragmentary_collation_matrix mid) i j) * weight)%R).
Proof.
  intros Ht H mid n i Hi df weight.
  pose proof (postprocess_inv _ _ H) as (Hs & _).
  destruct (pruned_well_shaped _ Hs) as [Wp Wf]. fold mid in Wp, Wf.
  destruct (pruned_rows _ Hs) as [_ Hpos]. fold mid in Hpos.
  destruct (pruned_lengths self) as (L1 & L2 & L3 & L4). fold mid in L1, L2, L3, L4.
  assert (Hrow : In (nth i (data (collation_matrix mid)) []) (data (collation_matrix mid))).
  { apply nth_In. unfold nrows in L1. now rewrite L1. }
  assert (Hdf : 1 <= df <= n).
  { split.
    - apply attested_positive. rewrite Forall_forall in Hpos. now apply Hpos.
    - unfold df, n. rewrite <- L3. unfold well_shaped in Wp. rewrite Forall_forall in Wp.
      rewrite <- (Wp _ Hrow). apply attested_le. }
  split; [exact Hdf|]. split; [apply (idf_weight_sign Hdf)|].
  unfold postprocess in H. rewrite Hs, Ht in H. cbn [bind] in H. fold mid in H.
  unfold apply_tfidf in H.
  rewrite (shape_not_empty_rows (collation_matrix mid)) in H by lia.
  rewrite (shape_not_empty_rows (fragmentary_collation_matrix mid)) in H by lia.
  inv_bind H as idf Hidf. inv_bind H as cm Hcm. inv_bind H as fm Hfm. inv_ret H.
  cbn [collation_matrix fragmentary_collation_matrix].
  apply fit_transpose in Hidf; [|exact Wp]. subst idf.
  assert (Hw : nth i (map (fun w => (w - 1)%R)
                        (map (fun row => (ln (INR (ncols (collation_matrix mid))
                                              / INR (attested row)) + 1)%R)
                             (data (collation_matrix mid)))) 0%R = weight).
  { rewrite map_map. rewrite (nth_map_lt _ _ [] 0%R) by (unfold nrows in L1; lia).
    unfold weight, df, n. rewrite L3. ring. }
  split.
  - intros j Hj. rewrite (entry_reweighted _ Wp Hcm) by lia. now rewrite Hw.
  - intros j Hj. rewrite (entry_reweighted _ Wf Hfm) by lia. now rewrite Hw.
Qed.

Lemma postprocess_tfidf_entries_witness :
  use_tfidf (tei_settings 1 true) = true
  /\ postprocess (tei_settings 1 true) common_readings = inr common_readings_reweighted
  /\ entry 0%R (fragmentary_collation_matrix common_readings_reweighted) 0 0
     = (Q2R (entry 0%Q (fragmentary_collation_matrix (pruned common_readings)) 0 0)
        * ln (INR 1 / INR 1))%R.
Proof.
  destruct (@postprocess_tfidf_entries (tei_settings 1 true) common_readings _
              eq_refl postprocess_common_readings 0) as (_ & _ & _ & F); [cbn; lia|].
  split; [reflexivity|]. split; [exact postprocess_common_readings|].
  apply (F 0). cbn. lia.
Defined.

(** ** X26: Reading without TF-IDF *)

(** X26.  Without TF-IDF, [postprocess] adds no failure to [read]: when the
    parsing returns, [read] returns the split and pruned matrices with their
    entries as they are. *)
Theorem read_without_tfidf :
  (forall tei_ns xml_ns cfg xml raw,
      use_tfidf cfg = false ->
      tei_collation_parser.read_raw tei_ns xml_ns cfg xml = inr raw ->
      tei_collation_parser.read tei_ns xml_ns cfg xml = inr (as_real (pruned raw)))
  /\
  (forall cfg xml raw,
      use_tfidf cfg = false ->
      vmr_collation_parser.read_raw cfg xml = inr raw ->
      vmr_collation_parser.read cfg xml = inr (as_real (pruned raw))).
Proof.
  split.
  - intros tei_ns xml_ns cfg xml raw Ht H.
    destruct (tei_read_after_raw _ _ _ _ H) as [Hs ->].
    unfold postprocess. now rewrite Hs, Ht.
  - intros cfg xml raw Ht H.
    destruct (vmr_read_after_raw _ _ H) as [Hs ->].
    unfold postprocess. now rewrite Hs, Ht.
Qed.

Lemma read_without_tfidf_witness :
  use_tfidf (tei_settings 1 false) = false
  /\ tei_collation_parser.read_raw TEI_NS XML_NS (tei_settings 1 false) scenario_document
     = inr scenario_raw
  /\ tei_collation_parser.read TEI_NS XML_NS (tei_settings 1 false) scenario_document
     = inr (as_real (pruned scenario_raw))
  /\ vmr_collation_parser.read_raw (tei_settings 1 false) vmr_document = inr vmr_raw
  /\ vmr_collation_parser.read (tei_settings 1 false) vmr_document
     = inr (as_real (pruned vmr_raw)).
Proof.
  assert (H1 : tei_collation_parser.read_raw TEI_NS XML_NS (tei_settings 1 false)
                 scenario_document = inr scenario_raw) by (vm_compute; reflexivity).
  assert (H2 : vmr_collation_parser.read_raw (tei_settings 1 false) vmr_document
               = inr vmr_raw) by (vm_compute; reflexivity).
  destruct read_without_tfidf as [T V].
  split; [reflexivity|]. split; [exact H1|]. split; [exact (T TEI_NS XML_NS (tei_settings 1 false) _ _ eq_refl H1)|].
  split; [exact H2|exact (V (tei_settings 1 false) _ _ eq_refl H2)].
Defined.

(** ** X27: No negative entry *)

(** X27.  Whatever [read] returns, with or without TF-IDF, no entry of the
    primary matrix or of the fragmentary matrix is negative. *)
Theorem read_nonnegative :
  (forall tei_ns xml_ns cfg xml fin,
      tei_collation_parser.read tei_ns xml_ns cfg xml = inr fin ->
      nonnegative_real (collation_matrix fin)
      /\ nonnegative_real (fragmentary_collation_matrix fin))
  /\
  (forall cfg xml fin,
      vmr_collation_parser.read cfg xml = inr fin ->
      nonnegative_real (collation_matrix fin)
      /\ nonnegative_real (fragmentary_collation_matrix fin)).
Proof.
  split.
  - intros tei_ns xml_ns cfg xml fin H. unfold tei_collation_parser.read in H.
    inv_bind H as raw Hraw.
    destruct (assemble_matrix (tei_unit_spec tei_ns xml_ns cfg _) cfg Hraw) as (_ & _ & N & _).
    exact (@postprocess_nonnegative cfg raw fin N H).
  - intros cfg xml fin H. unfold vmr_collation_parser.read in H.
    inv_bind H as raw Hraw.
    destruct (assemble_matrix (vmr_unit_spec cfg _) cfg Hraw) as (_ & _ & N & _).
    exact (@postprocess_nonnegative cfg raw fin N H).
Qed.

Lemma read_nonnegative_witness :
  tei_collation_parser.read TEI_NS XML_NS (tei_settings 1 true) common_document
  = inr common_readings_reweighted
  /\ nonnegative_real (collation_matrix common_readings_reweighted)
  /\ nonnegative_real (fragmentary_collation_matrix common_readings_reweighted).
Proof.
  assert (H : tei_collation_parser.read TEI_NS XML_NS (tei_settings 1 true) common_document
              = inr common_readings_reweighted).
  { unfold tei_collation_parser.read.
    replace (tei_collation_parser.read_raw TEI_NS XML_NS (tei_settings 1 true)
               common_document) with (@inr failure _ common_readings)
      by (vm_compute; reflexivity).
    exact postprocess_common_readings. }
  split; [exact H|]. exact (proj1 read_nonnegative _ _ _ _ _ H).
Defined.
